(** * evtmanager: the keyed [EventEmitter] and the single-channel [MonoEmitter]

    A shallow embedding of [src/unnamed/part_001] (class [EventEmitter]) and
    [src/deno/monoemitter.ts] (class [MonoEmitter]).

    Modelling choices, all taken from the TypeScript source:
    - a JavaScript array is an object on a heap; a reference to it is an
      index into the heap, so that [push] (in place) and [filter] / spread
      (fresh array) are told apart and aliasing is visible;
    - a listener is a function reference: a user function [Fn f], whose body
      is looked up in a code table, or the closure [WaitCallback p] that the
      call number [p] of [wait] builds; [x != listener] compares references;
    - [number]s are integers ([Z]); the only NaN of the source,
      [undefined + 1], is [None];
    - a method is a function from the state to the new state and either the
      thrown exception or the returned value;
    - what a user listener does is given in two ways. A [body] is a
      sequence of calls of the registry methods of the emitter it is
      registered on ([addListener], [removeListener], [removeListeners],
      [clear]) followed by what it returns or throws. A program ([prog]) is
      any sequence of requests to the emitter, each going on with the
      answer: every method, the arrays and the limits that the accessors
      hand out, read or written, a dispatch from within the listener and
      the direct call of a listener, nested as deep as the call stack
      allows. A [body] is a program, and both dispatch alike on it;
    - the event loop is the explicit step [run_timer]; every listener
      invocation is logged in [trace], every exception that nobody catches
      in [uncaught].

    [once] and [iterator] are asynchronous: the part of a call that runs
    at once and the part that the job queue runs after the promise awaited
    has settled ([once_resume], [iterator_resume]) are separate steps. *)

From stdpp Require Import gmap strings list fin_maps.
From Stdlib Require Import ZArith Lia.

(** ** JavaScript values, exceptions, promises *)

Module JS.

Inductive value : Type :=
| Undefined
| Num (n : Z)
| Str (s : string).

(** [LimitExceeded] is the [TypeError] "Maximum listeners reached ...",
    [Timeout] the [Error] "Maximum timeout exceeded ...", [Thrown] anything
    a user listener throws or rejects with. *)
Inductive exn : Type :=
| LimitExceeded
| Timeout
| Thrown (v : value).

(** What a listener returns: a plain value, or an awaitable given by the
    time at which it settles and how. *)
Inductive ret : Type :=
| Plain (v : value)
| Awaitable (at_time : nat) (outcome : exn + value).

Inductive promise (A : Type) : Type :=
| Pending
| Fulfilled (a : A)
| Rejected (e : exn).
Arguments Pending {A}.
Arguments Fulfilled {A} a.
Arguments Rejected {A} e.

(** The [resolve] and [reject] functions of a promise act only while it is
    pending. *)
Definition resolve {A} (a : A) (p : promise A) : promise A :=
  match p with Pending => Fulfilled a | _ => p end.

Definition reject {A} (e : exn) (p : promise A) : promise A :=
  match p with Pending => Rejected e | _ => p end.

Definition settled (r : ret) : exn + value :=
  match r with Plain v => inr v | Awaitable _ o => o end.

Definition settle_time (r : ret) : nat :=
  match r with Plain _ => 0 | Awaitable t _ => t end.

Definition awaited (r : ret) : value :=
  match settled r with inr v => v | inl _ => Undefined end.

(** The rejection that [Promise.all] reports: the earliest one, the
    leftmost among those of the same time. *)
Fixpoint first_rejection (rs : list ret) : option (nat * exn) :=
  match rs with
  | [] => None
  | r :: rs' =>
      match settled r, first_rejection rs' with
      | inl e, Some (t', e') =>
          if (t' <? settle_time r)%nat then Some (t', e')
          else Some (settle_time r, e)
      | inl e, None => Some (settle_time r, e)
      | inr _, rest => rest
      end
  end.

Definition Promise_all (rs : list ret) : promise (list value) :=
  match first_rejection rs with
  | Some (_, e) => Rejected e
  | None => Fulfilled (map awaited rs)
  end.

(** [if (x)] on a number. *)
Definition truthy (z : Z) : bool := negb (z =? 0)%Z.

(** Function references. *)
Inductive listener : Type :=
| Fn (f : nat)
| WaitCallback (p : nat).

#[global] Instance listener_eq_dec : EqDecision listener.
Proof. solve_decision. Defined.

(** Event names: [string | number | symbol]. *)
Inductive key : Type :=
| KStr (s : string)
| KNum (n : Z)
| KSym (id : nat).

#[global] Instance key_eq_dec : EqDecision key.
Proof. solve_decision. Defined.

#[global] Instance key_countable : Countable key.
Proof.
  refine (inj_countable'
    (λ k, match k with
          | KStr s => inl s | KNum n => inr (inl n) | KSym i => inr (inr i)
          end)
    (λ x, match x with
          | inl s => KStr s | inr (inl n) => KNum n | inr (inr i) => KSym i
          end) _).
  by intros [].
Defined.

(** Array references and the heap of array objects. *)
Abbreviation loc := nat.
Abbreviation heap_t := (list (list listener)).

Definition array (h : heap_t) (a : loc) : list listener := default [] (h !! a).

(** A new array object. *)
Definition alloc (xs : list listener) (h : heap_t) : heap_t * loc :=
  (h ++ [xs], length h).

(** [a.push(...ls)] *)
Definition push (a : loc) (ls : list listener) (h : heap_t) : heap_t :=
  <[a := array h a ++ ls]> h.

(** Every array object keeps what it held and may only have grown at its
    end. *)
Definition heap_grows (h h' : heap_t) : Prop :=
  ∀ a, array h a `prefix_of` array h' a.

(** How often [l] occurs in [xs]. *)
Definition occurrences (l : listener) (xs : list listener) : nat :=
  length (filter (λ x, x = l) xs).

(** How one dispatch with arguments [args] may move a promise: not at all,
    or from pending to fulfilled with [args]. *)
Definition settles_with (args : list value) (s s' : promise (list value)) : Prop :=
  s' = s ∨ (s = Pending ∧ s' = Fulfilled args).

End JS.
Export JS.

(** ** class EventEmitter (src/unnamed/part_001) *)

Module EventEmitter.

(** The variables a [wait] call closes over: its [event], the promise it
    returns (through [resolve]) and its flag [fullfilled]. *)
Record closure : Type := Closure {
  event : key;
  settlement : promise (list value);
  fullfilled : bool }.

Record state : Type := State {
  events : gmap key loc;                 (* #events *)
  maxListeners : gmap key Z;             (* #maxListeners *)
  heap : heap_t;                         (* the array objects *)
  waits : list closure;                  (* one closure per call of wait *)
  timers : list (nat * Z);               (* setTimeout: (wait call, delay) *)
  uncaught : list exn;                   (* thrown out of a timer callback *)
  trace : list (listener * list value) }. (* listener invocations, oldest first *)

Definition set_events (f : gmap key loc → gmap key loc) (st : state) : state :=
  State (f (events st)) (maxListeners st) (heap st) (waits st) (timers st)
        (uncaught st) (trace st).

Definition set_maxListeners (f : gmap key Z → gmap key Z) (st : state) : state :=
  State (events st) (f (maxListeners st)) (heap st) (waits st) (timers st)
        (uncaught st) (trace st).

Definition set_heap (f : heap_t → heap_t) (st : state) : state :=
  State (events st) (maxListeners st) (f (heap st)) (waits st) (timers st)
        (uncaught st) (trace st).

Definition set_waits (f : list closure → list closure) (st : state) : state :=
  State (events st) (maxListeners st) (heap st) (f (waits st)) (timers st)
        (uncaught st) (trace st).

Definition set_timers (f : list (nat * Z) → list (nat * Z)) (st : state) : state :=
  State (events st) (maxListeners st) (heap st) (waits st) (f (timers st))
        (uncaught st) (trace st).

Definition set_uncaught (f : list exn → list exn) (st : state) : state :=
  State (events st) (maxListeners st) (heap st) (waits st) (timers st)
        (f (uncaught st)) (trace st).

Definition set_trace
    (f : list (listener * list value) → list (listener * list value))
    (st : state) : state :=
  State (events st) (maxListeners st) (heap st) (waits st) (timers st)
        (uncaught st) (f (trace st)).

(** [new EventEmitter()] *)
Definition new : state := State ∅ ∅ [] [] [] [] [].

(** A method that may throw. *)
Definition M (A : Type) : Type := state → state * (exn + A).

(** Stores a new array object and hands back the reference to it. *)
Definition new_array (xs : list listener) (st : state) : state * loc :=
  (set_heap (λ h, (alloc xs h).1) st, (alloc xs (heap st)).2).

(** [getListeners(event)]: [this.#events.get(event) || []]. The array of the
    entry itself when there is one, else a new empty array. *)
Definition getListeners (ev : key) (st : state) : state * loc :=
  match events st !! ev with
  | Some a => (st, a)
  | None => new_array [] st
  end.

(** [listenerCount(event)]: [this.getListeners(event)?.length]. The empty
    array [getListeners] may build for it is dropped at once. *)
Definition listenerCount (ev : key) (st : state) : nat :=
  match events st !! ev with
  | Some a => length (array (heap st) a)
  | None => 0
  end.

(** [const maxCount = this.#maxListeners.get(event) + 1]; [None] is NaN. *)
Definition maxCount (ev : key) (st : state) : option Z :=
  (λ n, n + 1)%Z <$> maxListeners st !! ev.

(** The test of [addListener]:
    [maxCount && ((this.listenerCount(event) + 1) > maxCount)]. *)
Definition limit_reached (ev : key) (st : state) : bool :=
  match maxCount ev st with
  | Some m => truthy m && (m <? Z.of_nat (listenerCount ev st) + 1)%Z
  | None => false
  end.

(** [addListener(event, ...listeners)] *)
Definition addListener (ev : key) (ls : list listener) : M unit := λ st,
  if limit_reached ev st then (st, inl LimitExceeded)
  else
    let evt := events st !! ev in
    let '(st1, a) :=
      new_array (match evt with
                 | Some e => ls ++ array (heap st) e     (* [...listeners, ...evt] *)
                 | None => ls
                 end) st in
    (set_events <[ev := a]> st1, inr ()).

(** [on(event, ...listeners)] *)
Definition on (ev : key) (ls : list listener) : M unit := addListener ev ls.

(** [removeListener(event, listener)]:
    [this.#events.get(event)?.filter(x => x != listener) || []] *)
Definition removeListener (ev : key) (l : listener) (st : state) : state :=
  let '(st1, a) :=
    new_array (match events st !! ev with
               | Some e => filter (λ x, x ≠ l) (array (heap st) e)
               | None => []
               end) st in
  set_events <[ev := a]> st1.

(** [removeListeners(event)] *)
Definition removeListeners (ev : key) (st : state) : state :=
  set_events (delete ev) st.

(** [clear()] *)
Definition clear (st : state) : state := set_events (λ _, ∅) st.

(** The registry calls that a user listener makes on the emitter it is
    registered on, and what it returns (or throws) for given arguments. A
    listener that does anything else to the emitter is a program, see
    below. *)
Inductive action : Type :=
| CallAddListener (ev : key) (ls : list listener)
| CallRemoveListener (ev : key) (l : listener)
| CallRemoveListeners (ev : key)
| CallClear.

Record body : Type := Body {
  acts : list action;
  returns : list value → exn + ret }.

Definition run_action (a : action) : M unit := λ st,
  match a with
  | CallAddListener ev ls => addListener ev ls st
  | CallRemoveListener ev l => (removeListener ev l st, inr ())
  | CallRemoveListeners ev => (removeListeners ev st, inr ())
  | CallClear => (clear st, inr ())
  end.

Fixpoint run_actions (l : list action) : M unit := λ st,
  match l with
  | [] => (st, inr ())
  | a :: l' =>
      match run_action a st with
      | (st1, inl e) => (st1, inl e)
      | (st1, inr _) => run_actions l' st1
      end
  end.

(** The [callback] closure of the call [p] of [wait]:
    [this.removeListener(event, callback); resolve(args); fullfilled = true] *)
Definition callback (p : nat) (args : list value) (st : state) : state :=
  match waits st !! p with
  | Some w =>
      let st1 := removeListener (event w) (WaitCallback p) st in
      set_waits <[p := Closure (event w) (resolve args (settlement w)) true]> st1
  | None => st
  end.

(** [x(...args)] *)
Definition call (code : nat → body) (x : listener) (args : list value) : M ret :=
  λ st,
  let st0 := set_trace (λ t, t ++ [(x, args)]) st in
  match x with
  | Fn f =>
      match run_actions (acts (code f)) st0 with
      | (st1, inl e) => (st1, inl e)
      | (st1, inr _) => (st1, returns (code f) args)
      end
  | WaitCallback p => (callback p args st0, inr (Plain Undefined))
  end.

(** [Array.prototype.map] from index [k] on, for the indices [ks] below the
    length read when [map] was entered. The element is read from the array
    object at each step; an index that is no longer there leaves a hole,
    which reads as [undefined]. *)
Fixpoint map_loop (code : nat → body) (a : loc) (args : list value)
    (ks : list nat) : M (list ret) := λ st,
  match ks with
  | [] => (st, inr [])
  | k :: ks' =>
      match array (heap st) a !! k with
      | Some x =>
          match call code x args st with
          | (st1, inl e) => (st1, inl e)
          | (st1, inr r) =>
              match map_loop code a args ks' st1 with
              | (st2, inl e) => (st2, inl e)
              | (st2, inr rs) => (st2, inr (r :: rs))
              end
          end
      | None =>
          match map_loop code a args ks' st with
          | (st2, inl e) => (st2, inl e)
          | (st2, inr rs) => (st2, inr (Plain Undefined :: rs))
          end
      end
  end.

(** [arr.map(x => x(...args))] *)
Definition Array_map (code : nat → body) (a : loc) (args : list value)
  : M (list ret) := λ st,
  map_loop code a args (seq 0 (length (array (heap st) a))) st.

(** [emitSync(event, ...args)] *)
Definition emitSync (code : nat → body) (ev : key) (args : list value)
  : M (list ret) := λ st,
  match events st !! ev with
  | Some a => Array_map code a args st
  | None => (st, inr [])
  end.

(** [emit(event, ...args)]: [Promise.all] of the same array. *)
Definition emit (code : nat → body) (ev : key) (args : list value)
  : M (promise (list value)) := λ st,
  match emitSync code ev args st with
  | (st1, inl e) => (st1, inl e)
  | (st1, inr rs) => (st1, inr (Promise_all rs))
  end.

(** [wait(event, timeout)]. The executor of the promise runs at once; what
    it throws rejects the promise. The result is the number of the call,
    which names the promise returned. *)
Definition wait (ev : key) (timeout : option Z) (st : state) : state * nat :=
  let p := length (waits st) in
  let st0 := set_waits (λ w, w ++ [Closure ev Pending false]) st in
  match addListener ev [WaitCallback p] st0 with
  | (st1, inl e) =>
      (set_waits (alter (λ w, Closure (event w) (reject e (settlement w))
                                      (fullfilled w)) p) st1, p)
  | (st1, inr _) =>
      match timeout with
      | Some t => if truthy t then (set_timers (λ ts, ts ++ [(p, t)]) st1, p)
                  else (st1, p)
      | None => (st1, p)
      end
  end.

(** The function given to [setTimeout] by the call [p] of [wait]:
    [if(!fullfilled) throw new Error(...)]. *)
Definition timeout_callback (p : nat) : M unit := λ st,
  match waits st !! p with
  | Some w => if fullfilled w then (st, inr ()) else (st, inl Timeout)
  | None => (st, inr ())
  end.

(** The timer of the call [p] of [wait] expires: the event loop runs its
    function, and nothing catches what that throws. *)
Definition run_timer (p : nat) (st : state) : state :=
  if bool_decide (p ∈ (timers st).*1) then
    let st0 := set_timers (filter (λ t, t.1 ≠ p)) st in
    match timeout_callback p st0 with
    | (st1, inl e) => set_uncaught (λ u, u ++ [e]) st1
    | (st1, inr _) => st1
    end
  else st.

(** The promise that the call [p] of [wait] returned. *)
Definition promise_of (p : nat) (st : state) : option (promise (list value)) :=
  settlement <$> waits st !! p.

(** The listeners of [ev], as [emitSync] will find them. *)
Definition registered (ev : key) (st : state) : list listener :=
  match events st !! ev with
  | Some a => array (heap st) a
  | None => []
  end.

(** No entry of [#events] refers to an array that does not exist. *)
Definition wf (st : state) : Prop :=
  ∀ ev a, events st !! ev = Some a → a < length (heap st).

(** *** Sequences of register and unregister calls *)

Inductive op : Type :=
| Register (ev : key) (ls : list listener)
| Unregister (ev : key) (l : listener).

(** One call; [None] when it throws. *)
Definition step (o : op) (st : state) : option state :=
  match o with
  | Register ev ls =>
      match addListener ev ls st with
      | (st', inr _) => Some st'
      | (_, inl _) => None
      end
  | Unregister ev l => Some (removeListener ev l st)
  end.

Fixpoint run (ops : list op) (st : state) : option state :=
  match ops with
  | [] => Some st
  | o :: ops' =>
      match step o st with
      | Some st' => run ops' st'
      | None => None
      end
  end.

(** The listeners handed to the register calls on [ev]. *)
Fixpoint added (ev : key) (ops : list op) : nat :=
  match ops with
  | [] => 0
  | Register ev' ls :: ops' =>
      (if decide (ev' = ev) then length ls else 0) + added ev ops'
  | Unregister _ _ :: ops' => added ev ops'
  end.

(** The entries that the unregister calls on [ev] took out: each takes out
    the occurrences of its listener in the list it finds. *)
Fixpoint removed (ev : key) (ops : list op) (st : state) : nat :=
  match ops with
  | [] => 0
  | o :: ops' =>
      match o with
      | Unregister ev' l =>
          if decide (ev' = ev) then occurrences l (registered ev st) else 0
      | Register _ _ => 0
      end
      + match step o st with
        | Some st' => removed ev ops' st'
        | None => 0
        end
  end.

(** *** What a dispatch with arguments [args] may change *)

Definition waits_advance (args : list value) (ws ws' : list closure) : Prop :=
  ∀ q w, ws !! q = Some w →
    ∃ w', ws' !! q = Some w' ∧ settles_with args (settlement w) (settlement w').

Definition dispatch_rel (args : list value) (st st' : state) : Prop :=
  heap_grows (heap st) (heap st')
  ∧ waits_advance args (waits st) (waits st')
  ∧ maxListeners st' = maxListeners st
  ∧ timers st' = timers st
  ∧ uncaught st' = uncaught st.

(** The invocations of the listeners [xs], in order, each with [args]. *)
Definition invocations (args : list value) (xs : list listener)
  : list (listener * list value) := (λ x, (x, args)) <$> xs.

(** What the listener [x] hands back when invoked with [args] and nothing
    it calls throws. *)
Definition result_of (code : nat → body) (x : listener) (args : list value)
  : exn + ret :=
  match x with
  | Fn f => returns (code f) args
  | WaitCallback _ => inr (Plain Undefined)
  end.

(** [res] is the outcome of invoking the listeners [ls] one after the other,
    in the order of the list, each with [args], from the state [st]. Either
    every one of them was invoked and returned, and [res] holds what they
    returned in the order of the list; or the listeners before some [x]
    were invoked and returned, [x] was invoked next, in the state [sa], and
    threw, none after [x] was invoked, and [res] holds what [x] threw. *)
Definition runs_in_order (code : nat → body) (args : list value)
    (ls : list listener) (st : state) (res : state * (exn + list ret)) : Prop :=
  match res.2 with
  | inr rs =>
      trace res.1 = trace st ++ invocations args ls
      ∧ Forall2 (λ x r, result_of code x args = inr r) ls rs
  | inl e =>
      ∃ pre x post sa,
        ls = pre ++ x :: post
        ∧ trace sa = trace st ++ invocations args pre
        ∧ call code x args sa = (res.1, inl e)
        ∧ trace res.1 = trace st ++ invocations args (pre ++ [x])
  end.

End EventEmitter.

(** ** class MonoEmitter (src/deno/monoemitter.ts) *)

Module MonoEmitter.

(** The variables a [wait] call closes over: the promise it returns
    (through [resolve]) and its flag [fullfilled]. *)
Record closure : Type := Closure {
  settlement : promise (list value);
  fullfilled : bool }.

Record state : Type := State {
  listeners : loc;                       (* #listeners *)
  maxListenersCount : option Z;          (* maxListenersCount?: number *)
  heap : heap_t;                         (* the array objects *)
  waits : list closure;                  (* one closure per call of wait *)
  timers : list (nat * Z);               (* setTimeout: (wait call, delay) *)
  uncaught : list exn;                   (* thrown out of a timer callback *)
  trace : list (listener * list value) }. (* listener invocations, oldest first *)

Definition set_listeners (a : loc) (st : state) : state :=
  State a (maxListenersCount st) (heap st) (waits st) (timers st)
        (uncaught st) (trace st).

Definition set_maxListenersCount (m : option Z) (st : state) : state :=
  State (listeners st) m (heap st) (waits st) (timers st)
        (uncaught st) (trace st).

Definition set_heap (f : heap_t → heap_t) (st : state) : state :=
  State (listeners st) (maxListenersCount st) (f (heap st)) (waits st)
        (timers st) (uncaught st) (trace st).

Definition set_waits (f : list closure → list closure) (st : state) : state :=
  State (listeners st) (maxListenersCount st) (heap st) (f (waits st))
        (timers st) (uncaught st) (trace st).

Definition set_timers (f : list (nat * Z) → list (nat * Z)) (st : state) : state :=
  State (listeners st) (maxListenersCount st) (heap st) (waits st)
        (f (timers st)) (uncaught st) (trace st).

Definition set_uncaught (f : list exn → list exn) (st : state) : state :=
  State (listeners st) (maxListenersCount st) (heap st) (waits st)
        (timers st) (f (uncaught st)) (trace st).

Definition set_trace
    (f : list (listener * list value) → list (listener * list value))
    (st : state) : state :=
  State (listeners st) (maxListenersCount st) (heap st) (waits st)
        (timers st) (uncaught st) (f (trace st)).

(** [new MonoEmitter()]: [#listeners = []] is the first array object. *)
Definition new : state := State 0 None [[]] [] [] [] [].

(** A method that may throw. *)
Definition M (A : Type) : Type := state → state * (exn + A).

(** [this.#listeners = xs] for a new array [xs]. *)
Definition assign_listeners (xs : list listener) (st : state) : state :=
  set_listeners (alloc xs (heap st)).2 (set_heap (λ h, (alloc xs h).1) st).

(** The contents of [this.#listeners]. *)
Definition registered (st : state) : list listener :=
  array (heap st) (listeners st).

(** [get listenersCount()] *)
Definition listenersCount (st : state) : nat := length (registered st).

(** The test of [addListener]:
    [this.maxListenersCount && (this.maxListenersCount < (this.listenersCount + 1))] *)
Definition limit_reached (st : state) : bool :=
  match maxListenersCount st with
  | Some m => truthy m && (m <? Z.of_nat (listenersCount st) + 1)%Z
  | None => false
  end.

(** [addListener(...listeners)]: [this.#listeners.push(...listeners)] *)
Definition addListener (ls : list listener) : M unit := λ st,
  if limit_reached st then (st, inl LimitExceeded)
  else (set_heap (push (listeners st) ls) st, inr ()).

(** [on(...listeners)] *)
Definition on (ls : list listener) : M unit := addListener ls.

(** [removeListener(listener)]:
    [this.#listeners = this.#listeners.filter(x => x != listener)] *)
Definition removeListener (l : listener) (st : state) : state :=
  assign_listeners (filter (λ x, x ≠ l) (registered st)) st.

(** [clear()]: [this.#listeners = []] *)
Definition clear (st : state) : state := assign_listeners [] st.

(** [get listeners()]: [return this.#listeners] *)
Definition get_listeners (st : state) : loc := listeners st.

(** The registry calls that a user listener makes on the emitter it is
    registered on, and what it returns (or throws) for given arguments. A
    listener that does anything else to the emitter is a program, see
    below. *)
Inductive action : Type :=
| CallAddListener (ls : list listener)
| CallRemoveListener (l : listener)
| CallClear.

Record body : Type := Body {
  acts : list action;
  returns : list value → exn + ret }.

Definition run_action (a : action) : M unit := λ st,
  match a with
  | CallAddListener ls => addListener ls st
  | CallRemoveListener l => (removeListener l st, inr ())
  | CallClear => (clear st, inr ())
  end.

Fixpoint run_actions (l : list action) : M unit := λ st,
  match l with
  | [] => (st, inr ())
  | a :: l' =>
      match run_action a st with
      | (st1, inl e) => (st1, inl e)
      | (st1, inr _) => run_actions l' st1
      end
  end.

(** The [callback] closure of the call [p] of [wait]:
    [this.#listeners = this.#listeners.filter(x => x != callback);
     resolve(args); fullfilled = true] *)
Definition callback (p : nat) (args : list value) (st : state) : state :=
  match waits st !! p with
  | Some w =>
      let st1 := assign_listeners
                   (filter (λ x, x ≠ WaitCallback p) (registered st)) st in
      set_waits <[p := Closure (resolve args (settlement w)) true]> st1
  | None => st
  end.

(** [x(...args)] *)
Definition call (code : nat → body) (x : listener) (args : list value) : M ret :=
  λ st,
  let st0 := set_trace (λ t, t ++ [(x, args)]) st in
  match x with
  | Fn f =>
      match run_actions (acts (code f)) st0 with
      | (st1, inl e) => (st1, inl e)
      | (st1, inr _) => (st1, returns (code f) args)
      end
  | WaitCallback p => (callback p args st0, inr (Plain Undefined))
  end.

(** [Array.prototype.map] over the array object [a], for the indices [ks]
    below the length read when [map] was entered. The element is read from
    the array object at each step; an index that is no longer there leaves
    a hole, which reads as [undefined]. *)
Fixpoint map_loop (code : nat → body) (a : loc) (args : list value)
    (ks : list nat) : M (list ret) := λ st,
  match ks with
  | [] => (st, inr [])
  | k :: ks' =>
      match array (heap st) a !! k with
      | Some x =>
          match call code x args st with
          | (st1, inl e) => (st1, inl e)
          | (st1, inr r) =>
              match map_loop code a args ks' st1 with
              | (st2, inl e) => (st2, inl e)
              | (st2, inr rs) => (st2, inr (r :: rs))
              end
          end
      | None =>
          match map_loop code a args ks' st with
          | (st2, inl e) => (st2, inl e)
          | (st2, inr rs) => (st2, inr (Plain Undefined :: rs))
          end
      end
  end.

(** [arr.map(x => x(...args))] *)
Definition Array_map (code : nat → body) (a : loc) (args : list value)
  : M (list ret) := λ st,
  map_loop code a args (seq 0 (length (array (heap st) a))) st.

(** [emitSync(...args)] *)
Definition emitSync (code : nat → body) (args : list value) : M (list ret) :=
  λ st, Array_map code (listeners st) args st.

(** [emit(...args)]: [Promise.all] of the same array. *)
Definition emit (code : nat → body) (args : list value)
  : M (promise (list value)) := λ st,
  match emitSync code args st with
  | (st1, inl e) => (st1, inl e)
  | (st1, inr rs) => (st1, inr (Promise_all rs))
  end.

(** [wait(timeout)]: the callback is pushed without the test of
    [addListener]. The result is the number of the call, which names the
    promise returned. *)
Definition wait (timeout : option Z) (st : state) : state * nat :=
  let p := length (waits st) in
  let st0 := set_waits (λ w, w ++ [Closure Pending false]) st in
  let st1 := set_heap (push (listeners st0) [WaitCallback p]) st0 in
  match timeout with
  | Some t => if truthy t then (set_timers (λ ts, ts ++ [(p, t)]) st1, p)
              else (st1, p)
  | None => (st1, p)
  end.

(** The function given to [setTimeout] by the call [p] of [wait]:
    [if(!fullfilled) throw new Error(...)]. *)
Definition timeout_callback (p : nat) : M unit := λ st,
  match waits st !! p with
  | Some w => if fullfilled w then (st, inr ()) else (st, inl Timeout)
  | None => (st, inr ())
  end.

(** The timer of the call [p] of [wait] expires: the event loop runs its
    function, and nothing catches what that throws. *)
Definition run_timer (p : nat) (st : state) : state :=
  if bool_decide (p ∈ (timers st).*1) then
    let st0 := set_timers (filter (λ t, t.1 ≠ p)) st in
    match timeout_callback p st0 with
    | (st1, inl e) => set_uncaught (λ u, u ++ [e]) st1
    | (st1, inr _) => st1
    end
  else st.

(** The promise that the call [p] of [wait] returned. *)
Definition promise_of (p : nat) (st : state) : option (promise (list value)) :=
  settlement <$> waits st !! p.

(** [#listeners] refers to an array that exists. *)
Definition wf (st : state) : Prop := listeners st < length (heap st).

(** *** Sequences of register and unregister calls *)

Inductive op : Type :=
| Register (ls : list listener)
| Unregister (l : listener).

(** One call; [None] when it throws. *)
Definition step (o : op) (st : state) : option state :=
  match o with
  | Register ls =>
      match addListener ls st with
      | (st', inr _) => Some st'
      | (_, inl _) => None
      end
  | Unregister l => Some (removeListener l st)
  end.

Fixpoint run (ops : list op) (st : state) : option state :=
  match ops with
  | [] => Some st
  | o :: ops' =>
      match step o st with
      | Some st' => run ops' st'
      | None => None
      end
  end.

(** The listeners handed to the register calls. *)
Fixpoint added (ops : list op) : nat :=
  match ops with
  | [] => 0
  | Register ls :: ops' => length ls + added ops'
  | Unregister _ :: ops' => added ops'
  end.

(** The entries that the unregister calls took out: each takes out the
    occurrences of its listener in the list it finds. *)
Fixpoint removed (ops : list op) (st : state) : nat :=
  match ops with
  | [] => 0
  | o :: ops' =>
      match o with
      | Unregister l => occurrences l (registered st)
      | Register _ => 0
      end
      + match step o st with
        | Some st' => removed ops' st'
        | None => 0
        end
  end.

(** *** What a dispatch with arguments [args] may change *)

Definition waits_advance (args : list value) (ws ws' : list closure) : Prop :=
  ∀ q w, ws !! q = Some w →
    ∃ w', ws' !! q = Some w' ∧ settles_with args (settlement w) (settlement w').

Definition dispatch_rel (args : list value) (st st' : state) : Prop :=
  heap_grows (heap st) (heap st')
  ∧ waits_advance args (waits st) (waits st')
  ∧ maxListenersCount st' = maxListenersCount st
  ∧ timers st' = timers st
  ∧ uncaught st' = uncaught st.

(** The invocations of the listeners [xs], in order, each with [args]. *)
Definition invocations (args : list value) (xs : list listener)
  : list (listener * list value) := (λ x, (x, args)) <$> xs.

(** What the listener [x] hands back when invoked with [args] and nothing
    it calls throws. *)
Definition result_of (code : nat → body) (x : listener) (args : list value)
  : exn + ret :=
  match x with
  | Fn f => returns (code f) args
  | WaitCallback _ => inr (Plain Undefined)
  end.

(** [res] is the outcome of invoking the listeners [ls] one after the other,
    in the order of the list, each with [args], from the state [st]. Either
    every one of them was invoked and returned, and [res] holds what they
    returned in the order of the list; or the listeners before some [x]
    were invoked and returned, [x] was invoked next, in the state [sa], and
    threw, none after [x] was invoked, and [res] holds what [x] threw. *)
Definition runs_in_order (code : nat → body) (args : list value)
    (ls : list listener) (st : state) (res : state * (exn + list ret)) : Prop :=
  match res.2 with
  | inr rs =>
      trace res.1 = trace st ++ invocations args ls
      ∧ Forall2 (λ x r, result_of code x args = inr r) ls rs
  | inl e =>
      ∃ pre x post sa,
        ls = pre ++ x :: post
        ∧ trace sa = trace st ++ invocations args pre
        ∧ call code x args sa = (res.1, inl e)
        ∧ trace res.1 = trace st ++ invocations args (pre ++ [x])
  end.

End MonoEmitter.

(** ** Kinds of listeners *)

Module Listeners.

(** A user listener, as opposed to the callback of a [wait]. *)
Definition is_user (x : listener) : Prop :=
  match x with Fn _ => True | WaitCallback _ => False end.

#[global] Instance is_user_dec (x : listener) : Decision (is_user x).
Proof. destruct x; simpl; apply _. Defined.

(** The [RangeError] of a call that the call stack has no room for. *)
Definition stack_overflow : exn :=
  Thrown (Str "RangeError: Maximum call stack size exceeded").

(** The arguments of the first invocation of [x] in the log [tr]. *)
Fixpoint first_args (x : listener) (tr : list (listener * list value))
  : option (list value) :=
  match tr with
  | [] => None
  | (y, args) :: tr' => if decide (y = x) then Some args else first_args x tr'
  end.

(** What the invocations logged in [tr] make of the promise [s] that the
    call [p] of [wait] returned: the first invocation of the callback of
    that call resolves it. *)
Definition resolved_by (p : nat) (tr : list (listener * list value))
    (s : promise (list value)) : promise (list value) :=
  match first_args (WaitCallback p) tr with
  | Some args => resolve args s
  | None => s
  end.

End Listeners.
Export Listeners.

(** ** once and iterator

    Both are asynchronous: [once] is an [async] method, [iterator] an
    [async] generator. Each runs at once up to its [await this.wait(...)],
    which registers the callback, and is then suspended; once the promise
    awaited has settled, the job queue runs the rest. The suspended call is
    a value here, and running the rest is an explicit step, as firing a
    timer is. *)

Module EventEmitterExt.
Import EventEmitter.

(** A call of [once] suspended at [await this.wait(event)]: the promise it
    awaits and the [listeners] array it closes over. Nothing but the call
    refers to that array. *)
Record once_frame : Type := OnceFrame {
  awaited_wait : nat;
  once_listeners : list listener }.

(** [once(event, ...listeners)], up to the [await]. *)
Definition once (ev : key) (ls : list listener) (st : state)
  : state * once_frame :=
  ((wait ev None st).1, OnceFrame (wait ev None st).2 ls).

(** [listeners.map(x => x(...args))] *)
Fixpoint invoke_all (code : nat → body) (ls : list listener)
    (args : list value) : M (list ret) := λ st,
  match ls with
  | [] => (st, inr [])
  | x :: ls' =>
      match call code x args st with
      | (st1, inl e) => (st1, inl e)
      | (st1, inr r) =>
          match invoke_all code ls' args st1 with
          | (st2, inl e) => (st2, inl e)
          | (st2, inr rs) => (st2, inr (r :: rs))
          end
      end
  end.

(** The rest of [once]: [None] while the promise awaited is pending;
    otherwise the settlement of the promise that [once] returned. An
    exception, of [wait] or of a listener, rejects it. *)
Definition once_resume (code : nat → body) (fr : once_frame) (st : state)
  : state * option (promise unit) :=
  match promise_of (awaited_wait fr) st with
  | Some (Fulfilled args) =>
      match invoke_all code (once_listeners fr) args st with
      | (st1, inl e) => (st1, Some (Rejected e))
      | (st1, inr rs) =>
          (st1, Some (match Promise_all rs with
                      | Fulfilled _ => Fulfilled ()
                      | Rejected e => Rejected e
                      | Pending => Pending
                      end))
      end
  | Some (Rejected e) => (st, Some (Rejected e))
  | Some Pending | None => (st, None)
  end.

(** The generator of [iterator(event)]: not running (before its first
    [next()] or at its [yield]), suspended at the [await] of a [wait], or
    finished by an exception. [queued] counts the [next()] calls made while
    it was at the [await], which the generator serves one after the
    other. *)
Inductive phase : Type :=
| Suspended
| Awaiting (p : nat)
| Completed.

Record generator : Type := Generator {
  iter_event : key;
  iter_phase : phase;
  queued : nat }.

(** What a [next()] call gets in the end. *)
Inductive delivery : Type :=
| Yielded (args : list value)
| Thrown_out (e : exn)
| Done.

(** [iterator(event)]: calling a generator function runs none of its
    body. *)
Definition iterator (ev : key) : generator := Generator ev Suspended 0.

(** [next()]: a generator that is not running enters the loop and calls
    [wait]; one that is at the [await] queues the call; a finished one
    answers at once. *)
Definition next (g : generator) (st : state)
  : state * generator * option delivery :=
  match iter_phase g with
  | Suspended =>
      ((wait (iter_event g) None st).1,
       Generator (iter_event g) (Awaiting (wait (iter_event g) None st).2) 0,
       None)
  | Awaiting p => (st, Generator (iter_event g) (Awaiting p) (S (queued g)), None)
  | Completed => (st, g, Some Done)
  end.

(** The generator goes on after its [await]: it yields the arguments to the
    oldest [next()] call and, when another call is queued, loops and calls
    [wait] again; a rejected [wait] ends it, the oldest call gets the
    exception and the queued ones get [done]. *)
Definition iterator_resume (g : generator) (st : state)
  : state * generator * list delivery :=
  match iter_phase g with
  | Awaiting p =>
      match promise_of p st with
      | Some (Fulfilled args) =>
          match queued g with
          | 0 => (st, Generator (iter_event g) Suspended 0, [Yielded args])
          | S n =>
              ((wait (iter_event g) None st).1,
               Generator (iter_event g)
                 (Awaiting (wait (iter_event g) None st).2) n,
               [Yielded args])
          end
      | Some (Rejected e) =>
          (st, Generator (iter_event g) Completed 0,
           Thrown_out e :: replicate (queued g) Done)
      | Some Pending | None => (st, g, [])
      end
  | Suspended | Completed => (st, g, [])
  end.

(** Listeners whose bodies call no method of the emitter. *)
Definition pure_code (code : nat → body) : Prop := ∀ f, acts (code f) = [].

(** Closure flags only go from [false] to [true], and no closure is lost. *)
Definition flags_kept (ws ws' : list closure) : Prop :=
  ∀ q w, ws !! q = Some w →
    ∃ w', ws' !! q = Some w' ∧ event w' = event w
          ∧ (fullfilled w = true → fullfilled w' = true).

(** In the list [xs], [x] is the first listener that throws, [e] is what it
    throws, and [pre] are the listeners before it. *)
Definition throws_first (code : nat → body) (args : list value)
    (xs pre : list listener) (x : listener) (e : exn) : Prop :=
  ∃ post, xs = pre ++ x :: post
          ∧ Forall (λ y, ∃ v, result_of code y args = inr v) pre
          ∧ result_of code x args = inl e.

(** Registering the groups [gs] for [ev], one call each. *)
Definition register_groups (ev : key) (gs : list (list listener)) : list op :=
  Register ev <$> gs.

(** Calls that register at most one listener each. *)
Definition one_at_a_time (ops : list op) : Prop :=
  Forall (λ o, match o with
               | Register _ ls => length ls ≤ 1
               | Unregister _ _ => True
               end) ops.

End EventEmitterExt.

Module MonoEmitterExt.
Import MonoEmitter.

(** A call of [once] suspended at [await this.wait()]: the promise it
    awaits and the [listeners] array it closes over. *)
Record once_frame : Type := OnceFrame {
  awaited_wait : nat;
  once_listeners : list listener }.

(** [once(...listeners)], up to the [await]. *)
Definition once (ls : list listener) (st : state) : state * once_frame :=
  ((wait None st).1, OnceFrame (wait None st).2 ls).

(** [listeners.map(x => x(...args))] *)
Fixpoint invoke_all (code : nat → body) (ls : list listener)
    (args : list value) : M (list ret) := λ st,
  match ls with
  | [] => (st, inr [])
  | x :: ls' =>
      match call code x args st with
      | (st1, inl e) => (st1, inl e)
      | (st1, inr r) =>
          match invoke_all code ls' args st1 with
          | (st2, inl e) => (st2, inl e)
          | (st2, inr rs) => (st2, inr (r :: rs))
          end
      end
  end.

(** The rest of [once]: [None] while the promise awaited is pending;
    otherwise the settlement of the promise that [once] returned. *)
Definition once_resume (code : nat → body) (fr : once_frame) (st : state)
  : state * option (promise unit) :=
  match promise_of (awaited_wait fr) st with
  | Some (Fulfilled args) =>
      match invoke_all code (once_listeners fr) args st with
      | (st1, inl e) => (st1, Some (Rejected e))
      | (st1, inr rs) =>
          (st1, Some (match Promise_all rs with
                      | Fulfilled _ => Fulfilled ()
                      | Rejected e => Rejected e
                      | Pending => Pending
                      end))
      end
  | Some (Rejected e) => (st, Some (Rejected e))
  | Some Pending | None => (st, None)
  end.

Inductive phase : Type :=
| Suspended
| Awaiting (p : nat)
| Completed.

Record generator : Type := Generator {
  iter_phase : phase;
  queued : nat }.

Inductive delivery : Type :=
| Yielded (args : list value)
| Thrown_out (e : exn)
| Done.

(** [iterator()] *)
Definition iterator : generator := Generator Suspended 0.

(** [next()] *)
Definition next (g : generator) (st : state)
  : state * generator * option delivery :=
  match iter_phase g with
  | Suspended => ((wait None st).1, Generator (Awaiting (wait None st).2) 0, None)
  | Awaiting p => (st, Generator (Awaiting p) (S (queued g)), None)
  | Completed => (st, g, Some Done)
  end.

(** The generator goes on after its [await]. *)
Definition iterator_resume (g : generator) (st : state)
  : state * generator * list delivery :=
  match iter_phase g with
  | Awaiting p =>
      match promise_of p st with
      | Some (Fulfilled args) =>
          match queued g with
          | 0 => (st, Generator Suspended 0, [Yielded args])
          | S n =>
              ((wait None st).1, Generator (Awaiting (wait None st).2) n,
               [Yielded args])
          end
      | Some (Rejected e) =>
          (st, Generator Completed 0, Thrown_out e :: replicate (queued g) Done)
      | Some Pending | None => (st, g, [])
      end
  | Suspended | Completed => (st, g, [])
  end.

(** Listeners whose bodies call no method of the emitter. *)
Definition pure_code (code : nat → body) : Prop := ∀ f, acts (code f) = [].

(** Closure flags only go from [false] to [true], and no closure is lost. *)
Definition flags_kept (ws ws' : list closure) : Prop :=
  ∀ q w, ws !! q = Some w →
    ∃ w', ws' !! q = Some w' ∧ (fullfilled w = true → fullfilled w' = true).

(** In the list [xs], [x] is the first listener that throws, [e] is what it
    throws, and [pre] are the listeners before it. *)
Definition throws_first (code : nat → body) (args : list value)
    (xs pre : list listener) (x : listener) (e : exn) : Prop :=
  ∃ post, xs = pre ++ x :: post
          ∧ Forall (λ y, ∃ v, result_of code y args = inr v) pre
          ∧ result_of code x args = inl e.

(** Registering the groups [gs], one call each. *)
Definition register_groups (gs : list (list listener)) : list op :=
  Register <$> gs.

(** Calls that register at most one listener each. *)
Definition one_at_a_time (ops : list op) : Prop :=
  Forall (λ o, match o with
               | Register ls => length ls ≤ 1
               | Unregister _ => True
               end) ops.

End MonoEmitterExt.

(** ** Listeners as programs

    What a listener does while it is invoked is not in the source: it is
    any synchronous JavaScript that holds the emitter. Here it is a program
    that asks the emitter for one thing after the other and goes on with the
    answer, thrown exceptions included: every method, the array an accessor
    hands out (read or written in place), the limits (read or written),
    a dispatch from within the listener, and the direct call of a listener
    it holds. ([on] is [addListener]; the part of [once] and of an
    iterator's [next()] that runs at once is [wait].) The depth of nested
    calls is bounded, as the call stack is: a call beyond it throws a
    [RangeError]. A [body] is such a program that makes registry calls
    only. *)

Module EventEmitterProg.
Import EventEmitter.

Inductive request : Type :=
| AddListener (ev : key) (ls : list listener)
| RemoveListener (ev : key) (l : listener)
| RemoveListeners (ev : key)
| Clear
| GetListeners (ev : key)
| ListenerCount (ev : key)
| MaxListeners
| SetMaxListeners (f : gmap key Z → gmap key Z)
| ReadArray (a : loc)
| WriteArray (a : loc) (xs : list listener)
| Wait (ev : key) (timeout : option Z)
| EmitSync (ev : key) (args : list value)
| Emit (ev : key) (args : list value)
| Invoke (x : listener) (args : list value).

Inductive answer : Type :=
| Returned
| Threw (e : exn)
| ArrayRef (a : loc)
| Count (n : nat)
| Limits (m : gmap key Z)
| Elements (xs : list listener)
| PromiseOf (p : nat)
| Results (rs : list ret)
| AllOf (pr : promise (list value))
| Result (r : ret).

Inductive prog : Type :=
| Return (r : exn + ret)
| Ask (q : request) (k : answer → prog).

Definition answer_of {A : Type} (f : A → answer) (r : exn + A) : answer :=
  match r with inl e => Threw e | inr a => f a end.

(** [arr.map(x => x(...args))], where [inv] is what calling a listener
    does. *)
Fixpoint map_loop (inv : listener → list value → M ret) (a : loc)
    (args : list value) (ks : list nat) : M (list ret) := λ st,
  match ks with
  | [] => (st, inr [])
  | k :: ks' =>
      match array (heap st) a !! k with
      | Some x =>
          match inv x args st with
          | (st1, inl e) => (st1, inl e)
          | (st1, inr r) =>
              match map_loop inv a args ks' st1 with
              | (st2, inl e) => (st2, inl e)
              | (st2, inr rs) => (st2, inr (r :: rs))
              end
          end
      | None =>
          match map_loop inv a args ks' st with
          | (st2, inl e) => (st2, inl e)
          | (st2, inr rs) => (st2, inr (Plain Undefined :: rs))
          end
      end
  end.

Definition Array_map (inv : listener → list value → M ret) (a : loc)
    (args : list value) : M (list ret) := λ st,
  map_loop inv a args (seq 0 (length (array (heap st) a))) st.

(** [emitSync(event, ...args)] *)
Definition emitSync_with (inv : listener → list value → M ret) (ev : key)
    (args : list value) : M (list ret) := λ st,
  match events st !! ev with
  | Some a => Array_map inv a args st
  | None => (st, inr [])
  end.

(** [emit(event, ...args)] *)
Definition emit_with (inv : listener → list value → M ret) (ev : key)
    (args : list value) : M (promise (list value)) := λ st,
  match emitSync_with inv ev args st with
  | (st1, inl e) => (st1, inl e)
  | (st1, inr rs) => (st1, inr (Promise_all rs))
  end.

(** The requests that call listeners. *)
Definition reentrant (q : request) : bool :=
  match q with
  | EmitSync _ _ | Emit _ _ | Invoke _ _ => true
  | _ => false
  end.

Definition perform (inv : listener → list value → M ret) (q : request)
    (st : state) : state * answer :=
  match q with
  | AddListener ev ls =>
      ((addListener ev ls st).1, answer_of (λ _, Returned) (addListener ev ls st).2)
  | RemoveListener ev l => (removeListener ev l st, Returned)
  | RemoveListeners ev => (removeListeners ev st, Returned)
  | Clear => (clear st, Returned)
  | GetListeners ev => ((getListeners ev st).1, ArrayRef (getListeners ev st).2)
  | ListenerCount ev => (st, Count (listenerCount ev st))
  | MaxListeners => (st, Limits (maxListeners st))
  | SetMaxListeners f => (set_maxListeners f st, Returned)
  | ReadArray a => (st, Elements (array (heap st) a))
  | WriteArray a xs => (set_heap (λ h, <[a := xs]> h) st, Returned)
  | Wait ev timeout => ((wait ev timeout st).1, PromiseOf (wait ev timeout st).2)
  | EmitSync ev args =>
      ((emitSync_with inv ev args st).1,
       answer_of Results (emitSync_with inv ev args st).2)
  | Emit ev args =>
      ((emit_with inv ev args st).1, answer_of AllOf (emit_with inv ev args st).2)
  | Invoke x args => ((inv x args st).1, answer_of Result (inv x args st).2)
  end.

Fixpoint exec (inv : listener → list value → M ret) (p : prog) : M ret := λ st,
  match p with
  | Return r => (st, r)
  | Ask q k => exec inv (k (perform inv q st).2) (perform inv q st).1
  end.

(** [x(...args)], the listeners it calls being called by [inv]. *)
Definition call_with (inv : listener → list value → M ret)
    (code : nat → list value → prog) (x : listener) (args : list value)
  : M ret := λ st,
  let st0 := set_trace (λ t, t ++ [(x, args)]) st in
  match x with
  | Fn f => exec inv (code f args) st0
  | WaitCallback p => (callback p args st0, inr (Plain Undefined))
  end.

(** [x(...args)] with room for [depth] nested calls. *)
Fixpoint call (depth : nat) (code : nat → list value → prog) (x : listener)
    (args : list value) : M ret :=
  match depth with
  | 0 => λ st, (st, inl stack_overflow)
  | S d => call_with (call d code) code x args
  end.

Definition emitSync (depth : nat) (code : nat → list value → prog) (ev : key)
    (args : list value) : M (list ret) :=
  emitSync_with (call depth code) ev args.

Definition emit (depth : nat) (code : nat → list value → prog) (ev : key)
    (args : list value) : M (promise (list value)) :=
  emit_with (call depth code) ev args.

(** The listeners [ls], called one after the other with [args], up to the
    first that throws. *)
Fixpoint invoke_all_with (inv : listener → list value → M ret)
    (ls : list listener) (args : list value) : M (list ret) := λ st,
  match ls with
  | [] => (st, inr [])
  | x :: ls' =>
      match inv x args st with
      | (st1, inl e) => (st1, inl e)
      | (st1, inr r) =>
          match invoke_all_with inv ls' args st1 with
          | (st2, inl e) => (st2, inl e)
          | (st2, inr rs) => (st2, inr (r :: rs))
          end
      end
  end.

Definition invoke_all (depth : nat) (code : nat → list value → prog)
    (ls : list listener) (args : list value) : M (list ret) :=
  invoke_all_with (call depth code) ls args.

(** A program that makes requests in [allowed] only, whatever it is
    answered. *)
Fixpoint only (allowed : request → Prop) (p : prog) : Prop :=
  match p with
  | Return _ => True
  | Ask q k => allowed q ∧ ∀ a, only allowed (k a)
  end.

Definition writes_array (q : request) : Prop :=
  match q with WriteArray _ _ => True | _ => False end.

Definition writes_limit (q : request) : Prop :=
  match q with SetMaxListeners _ => True | _ => False end.

(** The listeners that write to no array. *)
Definition no_array_written (code : nat → list value → prog) : Prop :=
  ∀ f args, only (λ q, ¬ writes_array q) (code f args).

(** The listeners that write no limit. *)
Definition no_limit_written (code : nat → list value → prog) : Prop :=
  ∀ f args, only (λ q, ¬ writes_limit q) (code f args).

(** A [body] as a program. *)
Definition request_of (a : action) : request :=
  match a with
  | CallAddListener ev ls => AddListener ev ls
  | CallRemoveListener ev l => RemoveListener ev l
  | CallRemoveListeners ev => RemoveListeners ev
  | CallClear => Clear
  end.

Fixpoint of_acts (l : list action) (r : exn + ret) : prog :=
  match l with
  | [] => Return r
  | a :: l' =>
      Ask (request_of a)
          (λ ans, match ans with Threw e => Return (inl e) | _ => of_acts l' r end)
  end.

Definition of_body (code : nat → body) : nat → list value → prog :=
  λ f args, of_acts (acts (code f)) (returns (code f) args).

(** From [st] to [st'] the log grew, and the promise of the call [p] of
    [wait], if the call had been made, is the one there was, resolved by the
    first invocation of its callback in what the log grew by. *)
Definition promise_step (p : nat) (st st' : state) : Prop :=
  ∃ new, trace st' = trace st ++ new
    ∧ ∀ w, waits st !! p = Some w →
        ∃ w', waits st' !! p = Some w'
              ∧ settlement w' = resolved_by p new (settlement w).

End EventEmitterProg.

Module MonoEmitterProg.
Import MonoEmitter.

Inductive request : Type :=
| AddListener (ls : list listener)
| RemoveListener (l : listener)
| Clear
| Listeners
| ListenersCount
| MaxListenersCount
| SetMaxListenersCount (m : option Z)
| ReadArray (a : loc)
| WriteArray (a : loc) (xs : list listener)
| Wait (timeout : option Z)
| EmitSync (args : list value)
| Emit (args : list value)
| Invoke (x : listener) (args : list value).

Inductive answer : Type :=
| Returned
| Threw (e : exn)
| ArrayRef (a : loc)
| Count (n : nat)
| Limit (m : option Z)
| Elements (xs : list listener)
| PromiseOf (p : nat)
| Results (rs : list ret)
| AllOf (pr : promise (list value))
| Result (r : ret).

Inductive prog : Type :=
| Return (r : exn + ret)
| Ask (q : request) (k : answer → prog).

Definition answer_of {A : Type} (f : A → answer) (r : exn + A) : answer :=
  match r with inl e => Threw e | inr a => f a end.

(** [arr.map(x => x(...args))], where [inv] is what calling a listener
    does. *)
Fixpoint map_loop (inv : listener → list value → M ret) (a : loc)
    (args : list value) (ks : list nat) : M (list ret) := λ st,
  match ks with
  | [] => (st, inr [])
  | k :: ks' =>
      match array (heap st) a !! k with
      | Some x =>
          match inv x args st with
          | (st1, inl e) => (st1, inl e)
          | (st1, inr r) =>
              match map_loop inv a args ks' st1 with
              | (st2, inl e) => (st2, inl e)
              | (st2, inr rs) => (st2, inr (r :: rs))
              end
          end
      | None =>
          match map_loop inv a args ks' st with
          | (st2, inl e) => (st2, inl e)
          | (st2, inr rs) => (st2, inr (Plain Undefined :: rs))
          end
      end
  end.

Definition Array_map (inv : listener → list value → M ret) (a : loc)
    (args : list value) : M (list ret) := λ st,
  map_loop inv a args (seq 0 (length (array (heap st) a))) st.

(** [emitSync(...args)] *)
Definition emitSync_with (inv : listener → list value → M ret)
    (args : list value) : M (list ret) := λ st,
  Array_map inv (listeners st) args st.

(** [emit(...args)] *)
Definition emit_with (inv : listener → list value → M ret)
    (args : list value) : M (promise (list value)) := λ st,
  match emitSync_with inv args st with
  | (st1, inl e) => (st1, inl e)
  | (st1, inr rs) => (st1, inr (Promise_all rs))
  end.

(** The requests that call listeners. *)
Definition reentrant (q : request) : bool :=
  match q with
  | EmitSync _ | Emit _ | Invoke _ _ => true
  | _ => false
  end.

Definition perform (inv : listener → list value → M ret) (q : request)
    (st : state) : state * answer :=
  match q with
  | AddListener ls =>
      ((addListener ls st).1, answer_of (λ _, Returned) (addListener ls st).2)
  | RemoveListener l => (removeListener l st, Returned)
  | Clear => (clear st, Returned)
  | Listeners => (st, ArrayRef (get_listeners st))
  | ListenersCount => (st, Count (listenersCount st))
  | MaxListenersCount => (st, Limit (maxListenersCount st))
  | SetMaxListenersCount m => (set_maxListenersCount m st, Returned)
  | ReadArray a => (st, Elements (array (heap st) a))
  | WriteArray a xs => (set_heap (λ h, <[a := xs]> h) st, Returned)
  | Wait timeout => ((wait timeout st).1, PromiseOf (wait timeout st).2)
  | EmitSync args =>
      ((emitSync_with inv args st).1, answer_of Results (emitSync_with inv args st).2)
  | Emit args =>
      ((emit_with inv args st).1, answer_of AllOf (emit_with inv args st).2)
  | Invoke x args => ((inv x args st).1, answer_of Result (inv x args st).2)
  end.

Fixpoint exec (inv : listener → list value → M ret) (p : prog) : M ret := λ st,
  match p with
  | Return r => (st, r)
  | Ask q k => exec inv (k (perform inv q st).2) (perform inv q st).1
  end.

(** [x(...args)], the listeners it calls being called by [inv]. *)
Definition call_with (inv : listener → list value → M ret)
    (code : nat → list value → prog) (x : listener) (args : list value)
  : M ret := λ st,
  let st0 := set_trace (λ t, t ++ [(x, args)]) st in
  match x with
  | Fn f => exec inv (code f args) st0
  | WaitCallback p => (callback p args st0, inr (Plain Undefined))
  end.

(** [x(...args)] with room for [depth] nested calls. *)
Fixpoint call (depth : nat) (code : nat → list value → prog) (x : listener)
    (args : list value) : M ret :=
  match depth with
  | 0 => λ st, (st, inl stack_overflow)
  | S d => call_with (call d code) code x args
  end.

Definition emitSync (depth : nat) (code : nat → list value → prog)
    (args : list value) : M (list ret) :=
  emitSync_with (call depth code) args.

Definition emit (depth : nat) (code : nat → list value → prog)
    (args : list value) : M (promise (list value)) :=
  emit_with (call depth code) args.

(** The listeners [ls], called one after the other with [args], up to the
    first that throws. *)
Fixpoint invoke_all_with (inv : listener → list value → M ret)
    (ls : list listener) (args : list value) : M (list ret) := λ st,
  match ls with
  | [] => (st, inr [])
  | x :: ls' =>
      match inv x args st with
      | (st1, inl e) => (st1, inl e)
      | (st1, inr r) =>
          match invoke_all_with inv ls' args st1 with
          | (st2, inl e) => (st2, inl e)
          | (st2, inr rs) => (st2, inr (r :: rs))
          end
      end
  end.

Definition invoke_all (depth : nat) (code : nat → list value → prog)
    (ls : list listener) (args : list value) : M (list ret) :=
  invoke_all_with (call depth code) ls args.

(** A program that makes requests in [allowed] only, whatever it is
    answered. *)
Fixpoint only (allowed : request → Prop) (p : prog) : Prop :=
  match p with
  | Return _ => True
  | Ask q k => allowed q ∧ ∀ a, only allowed (k a)
  end.

Definition writes_array (q : request) : Prop :=
  match q with WriteArray _ _ => True | _ => False end.

Definition writes_limit (q : request) : Prop :=
  match q with SetMaxListenersCount _ => True | _ => False end.

(** The listeners that write to no array. *)
Definition no_array_written (code : nat → list value → prog) : Prop :=
  ∀ f args, only (λ q, ¬ writes_array q) (code f args).

(** The listeners that write no limit. *)
Definition no_limit_written (code : nat → list value → prog) : Prop :=
  ∀ f args, only (λ q, ¬ writes_limit q) (code f args).

(** A [body] as a program. *)
Definition request_of (a : action) : request :=
  match a with
  | CallAddListener ls => AddListener ls
  | CallRemoveListener l => RemoveListener l
  | CallClear => Clear
  end.

Fixpoint of_acts (l : list action) (r : exn + ret) : prog :=
  match l with
  | [] => Return r
  | a :: l' =>
      Ask (request_of a)
          (λ ans, match ans with Threw e => Return (inl e) | _ => of_acts l' r end)
  end.

Definition of_body (code : nat → body) : nat → list value → prog :=
  λ f args, of_acts (acts (code f)) (returns (code f) args).

(** From [st] to [st'] the log grew, and the promise of the call [p] of
    [wait], if the call had been made, is the one there was, resolved by the
    first invocation of its callback in what the log grew by. *)
Definition promise_step (p : nat) (st st' : state) : Prop :=
  ∃ new, trace st' = trace st ++ new
    ∧ ∀ w, waits st !! p = Some w →
        ∃ w', waits st' !! p = Some w'
              ∧ settlement w' = resolved_by p new (settlement w).

End MonoEmitterProg.

(** ** The claims of the specification, as it words them *)

Module Stated.

(** C1, single-channel: with the limit [N] set, register fails exactly when
    the current count plus the number of listeners supplied exceeds [N]. *)
Definition limit_on_prospective_count
    (N : Z) (ls : list listener) (st : MonoEmitter.state) : Prop :=
  MonoEmitter.maxListenersCount st = Some N →
  ((MonoEmitter.addListener ls st).2 = inl LimitExceeded ↔
   (N < Z.of_nat (MonoEmitter.listenersCount st) + Z.of_nat (length ls))%Z).

(** C1, keyed: with the limit [N] set for the key, register fails exactly
    when the current count plus the number of listeners supplied exceeds
    [N]. *)
Definition limit_on_prospective_count_keyed
    (N : Z) (ev : key) (ls : list listener) (st : EventEmitter.state) : Prop :=
  EventEmitter.maxListeners st !! ev = Some N →
  ((EventEmitter.addListener ev ls st).2 = inl LimitExceeded ↔
   (N < Z.of_nat (EventEmitter.listenerCount ev st) + Z.of_nat (length ls))%Z).

(** C3, single-channel: the group registered lands before the listeners
    already there. *)
Definition register_prepends
    (ls : list listener) (st : MonoEmitter.state) : Prop :=
  ∀ st', MonoEmitter.addListener ls st = (st', inr ()) →
         MonoEmitter.registered st' = ls ++ MonoEmitter.registered st.

(** C4, keyed: a limit of zero or none never makes register fail. *)
Definition zero_limit_is_unlimited
    (ev : key) (ls : list listener) (st : EventEmitter.state) : Prop :=
  (EventEmitter.maxListeners st !! ev = Some 0%Z
   ∨ EventEmitter.maxListeners st !! ev = None) →
  (EventEmitter.addListener ev ls st).2 ≠ inl LimitExceeded.

(** C2, keyed: when the timer of a [wait] expires with no emission, the
    promise returned is rejected with [Timeout] and the one-shot listener is
    gone, so that the count is what it was before the [wait]. *)
Definition timeout_rejects_and_deregisters
    (ev : key) (t : Z) (st : EventEmitter.state) : Prop :=
  let '(st1, p) := EventEmitter.wait ev (Some t) st in
  let st2 := EventEmitter.run_timer p st1 in
  EventEmitter.promise_of p st2 = Some (Rejected Timeout)
  ∧ EventEmitter.listenerCount ev st2 = EventEmitter.listenerCount ev st.



(** C9, single-channel: pushing onto the array that the accessor returned
    leaves the count as it was. *)
Definition accessor_returns_copy
    (l : listener) (st : MonoEmitter.state) : Prop :=
  MonoEmitter.listenersCount
    (MonoEmitter.set_heap (push (MonoEmitter.get_listeners st) [l]) st)
  = MonoEmitter.listenersCount st.

(** C8, single-channel: a dispatch that returns has invoked the listeners
    of the list found when it was called, those and no others, in the order
    of that list. *)
Definition dispatch_invokes_captured_list
    (depth : nat) (code : nat → list value → MonoEmitterProg.prog)
    (args : list value) (st : MonoEmitter.state) : Prop :=
  ∀ st' rs, MonoEmitterProg.emitSync depth code args st = (st', inr rs) →
    MonoEmitter.trace st'
    = MonoEmitter.trace st
      ++ MonoEmitter.invocations args (MonoEmitter.registered st).

End Stated.

(** ** Arrays on the heap *)

Section Heap.
Implicit Types (h : heap_t) (xs ls : list listener) (a : loc).

Lemma array_alloc_new h xs : array (alloc xs h).1 (alloc xs h).2 = xs.
Proof.
  unfold array, alloc; simpl.
  by rewrite lookup_app_r, Nat.sub_diag by lia.
Qed.

Lemma array_alloc_old h xs a : a < length h → array (alloc xs h).1 a = array h a.
Proof.
  intros Ha. unfold array, alloc; simpl. by rewrite lookup_app_l.
Qed.

Lemma array_push_same h a ls :
  a < length h → array (push a ls h) a = array h a ++ ls.
Proof.
  intros Ha. unfold push, array at 1. by rewrite list_lookup_insert_eq.
Qed.

Lemma array_push_other h a b ls : a ≠ b → array (push a ls h) b = array h b.
Proof.
  intros Hab. unfold push, array at 1. by rewrite list_lookup_insert_ne.
Qed.

Lemma length_alloc h xs : length (alloc xs h).1 = S (length h).
Proof. unfold alloc; simpl. rewrite length_app; simpl; lia. Qed.

Lemma length_push h a ls : length (push a ls h) = length h.
Proof. unfold push. by rewrite length_insert. Qed.

Lemma heap_grows_refl h : heap_grows h h.
Proof. intros a. reflexivity. Qed.

Lemma heap_grows_trans h1 h2 h3 :
  heap_grows h1 h2 → heap_grows h2 h3 → heap_grows h1 h3.
Proof. intros H12 H23 a. etrans; [apply H12 | apply H23]. Qed.

Lemma heap_grows_alloc h xs : heap_grows h (alloc xs h).1.
Proof.
  intros a. destruct (decide (a < length h)) as [Ha|Ha].
  - by rewrite array_alloc_old.
  - unfold array at 1. rewrite lookup_ge_None_2 by lia. apply prefix_nil.
Qed.

Lemma heap_grows_push h a ls : heap_grows h (push a ls h).
Proof.
  intros b. destruct (decide (a = b)) as [<-|Hab].
  - destruct (decide (a < length h)) as [Ha|Ha].
    + rewrite array_push_same by done. by apply prefix_app_r.
    + unfold push. by rewrite list_insert_ge by lia.
  - by rewrite array_push_other.
Qed.

Lemma length_filter_neq (l : listener) xs :
  length (filter (λ x, x ≠ l) xs) + occurrences l xs = length xs.
Proof.
  unfold occurrences. induction xs as [|x xs IH]; [done|].
  rewrite !filter_cons. destruct (decide (x = l)), (decide (x ≠ l));
    simpl; try contradiction; lia.
Qed.

Lemma filter_neq_absent (l : listener) xs :
  l ∉ xs → filter (λ x, x ≠ l) xs = xs.
Proof.
  induction xs as [|x xs IH]; [done|].
  rewrite not_elem_of_cons. intros [Hx Hxs].
  rewrite filter_cons. destruct (decide (x ≠ l)) as [|Hn].
  - by rewrite IH.
  - destruct Hn. congruence.
Qed.

Lemma filter_neq_gone (l : listener) xs : l ∉ filter (λ x, x ≠ l) xs.
Proof. rewrite list_elem_of_filter. by intros [? ?]. Qed.

End Heap.

(** ** Promise.all *)

Lemma first_rejection_None rs :
  first_rejection rs = None ↔ Forall (λ r, settled r = inr (awaited r)) rs.
Proof.
  induction rs as [|r rs IH]; simpl.
  - split; [constructor | done].
  - unfold awaited. destruct (settled r) as [e|v] eqn:Hr.
    + split.
      * destruct (first_rejection rs) as [[t' e']|]; [|done].
        by destruct (t' <? settle_time r)%nat.
      * intros H. inversion H; subst. congruence.
    + rewrite IH. split.
      * intros H. constructor; [by rewrite Hr | done].
      * intros H. by inversion H.
Qed.

Lemma first_rejection_Some rs t e :
  first_rejection rs = Some (t, e) →
  ∃ r, r ∈ rs ∧ settled r = inl e ∧ settle_time r = t.
Proof.
  revert t e. induction rs as [|r rs IH]; simpl; intros t e H; [done|].
  destruct (settled r) as [e0|v] eqn:Hr.
  - destruct (first_rejection rs) as [[t' e']|] eqn:Hrs.
    + destruct (t' <? settle_time r)%nat; simplify_eq.
      * destruct (IH _ _ eq_refl) as (r' & ? & ? & ?).
        exists r'. split_and!; [by right|done|done].
      * exists r. split_and!; [by left|done|done].
    + simplify_eq. exists r. split_and!; [by left|done|done].
  - destruct (IH _ _ H) as (r' & ? & ? & ?).
    exists r'. split_and!; [by right|done|done].
Qed.

(** [Promise.all] fulfils exactly when every element does, and then with
    the awaited values in the order of the elements. *)
Lemma Promise_all_Fulfilled rs vs :
  Promise_all rs = Fulfilled vs ↔
  Forall (λ r, settled r = inr (awaited r)) rs ∧ vs = map awaited rs.
Proof.
  unfold Promise_all. destruct (first_rejection rs) as [[t e]|] eqn:H.
  - split; [done|]. intros [HF _]. apply first_rejection_None in HF. congruence.
  - apply first_rejection_None in H. split.
    + intros [= <-]. done.
    + intros [_ ->]. done.
Qed.

Lemma Promise_all_Rejected rs e :
  Promise_all rs = Rejected e → ∃ r, r ∈ rs ∧ settled r = inl e.
Proof.
  unfold Promise_all. destruct (first_rejection rs) as [[t e']|] eqn:H; [|done].
  intros [= ->]. destruct (first_rejection_Some _ _ _ H) as (r & ? & ? & ?).
  by exists r.
Qed.

Lemma Promise_all_not_Pending rs : Promise_all rs ≠ Pending.
Proof.
  unfold Promise_all. by destruct (first_rejection rs) as [[t e']|].
Qed.

(** ** The registry of EventEmitter *)

Section EventEmitterRegistry.
Import EventEmitter.
Implicit Types (st : state) (ev : key) (ls : list listener) (l : listener).

Lemma listenerCount_registered ev st :
  listenerCount ev st = length (registered ev st).
Proof. unfold listenerCount, registered. by destruct (events st !! ev). Qed.

Lemma wf_new : wf new.
Proof. intros ev a. unfold new; simpl. by rewrite lookup_empty. Qed.

Lemma limit_reached_iff ev st :
  limit_reached ev st = true ↔
  ∃ N, maxListeners st !! ev = Some N ∧ (N + 1 ≠ 0)%Z
       ∧ (N < Z.of_nat (listenerCount ev st))%Z.
Proof.
  unfold limit_reached, maxCount, truthy.
  destruct (maxListeners st !! ev) as [N|]; simpl.
  - rewrite andb_true_iff, negb_true_iff, Z.eqb_neq, Z.ltb_lt. split.
    + intros [? ?]. exists N. split_and!; [done|done|lia].
    + intros (N' & [= <-] & ? & ?). split; [done|lia].
  - split; [done|]. by intros (N & ? & _).
Qed.

Lemma addListener_throws_iff ev ls st :
  (addListener ev ls st).2 = inl LimitExceeded ↔ limit_reached ev st = true.
Proof.
  unfold addListener. destruct (limit_reached ev st); simpl; [done|].
  by destruct (events st !! ev).
Qed.

Lemma addListener_throws ev ls st :
  limit_reached ev st = true → addListener ev ls st = (st, inl LimitExceeded).
Proof. intros H. unfold addListener. by rewrite H. Qed.

Lemma addListener_returns ev ls st :
  limit_reached ev st = false →
  addListener ev ls st =
    (set_events <[ev := length (heap st)]>
       (set_heap (λ h, h ++ [ls ++ registered ev st]) st), inr ()).
Proof.
  intros H. unfold addListener, registered, new_array, alloc. rewrite H.
  destruct (events st !! ev); simpl; [done|]. by rewrite app_nil_r.
Qed.

Lemma addListener_cases ev ls st :
  addListener ev ls st = (st, inl LimitExceeded) ∨
  addListener ev ls st =
    (set_events <[ev := length (heap st)]>
       (set_heap (λ h, h ++ [ls ++ registered ev st]) st), inr ()).
Proof.
  destruct (limit_reached ev st) eqn:H.
  - left. by apply addListener_throws.
  - right. by apply addListener_returns.
Qed.

Lemma removeListener_eq ev l st :
  removeListener ev l st =
    set_events <[ev := length (heap st)]>
      (set_heap (λ h, h ++ [filter (λ x, x ≠ l) (registered ev st)]) st).
Proof.
  unfold removeListener, registered, new_array, alloc.
  by destruct (events st !! ev).
Qed.

(** Reading the listeners of [ev'] after [ev] got a new array. *)
Lemma registered_stored ev ev' xs st :
  wf st →
  registered ev' (set_events <[ev := length (heap st)]>
                    (set_heap (λ h, h ++ [xs]) st)) =
  if decide (ev = ev') then xs else registered ev' st.
Proof.
  intros Hwf. unfold registered; simpl. rewrite lookup_insert.
  destruct (decide (ev = ev')) as [->|Hne].
  - unfold array. by rewrite lookup_app_r, Nat.sub_diag by lia.
  - destruct (events st !! ev') as [a|] eqn:Ha; [|done].
    unfold array. by rewrite lookup_app_l by eauto.
Qed.

Lemma registered_stored_same ev xs st :
  registered ev (set_events <[ev := length (heap st)]>
                   (set_heap (λ h, h ++ [xs]) st)) = xs.
Proof.
  unfold registered; simpl. rewrite lookup_insert_eq.
  unfold array. by rewrite lookup_app_r, Nat.sub_diag by lia.
Qed.

Lemma wf_stored ev xs st :
  wf st →
  wf (set_events <[ev := length (heap st)]> (set_heap (λ h, h ++ [xs]) st)).
Proof.
  intros Hwf ev' a; simpl. rewrite lookup_insert, length_app; simpl.
  destruct (decide (ev = ev')); [intros [= <-]; lia|].
  intros H%Hwf. lia.
Qed.

Lemma registered_addListener ev ls st st' :
  addListener ev ls st = (st', inr ()) →
  registered ev st' = ls ++ registered ev st.
Proof.
  destruct (addListener_cases ev ls st) as [H|H]; rewrite H; [done|].
  intros [= <-]. apply registered_stored_same.
Qed.

Lemma registered_removeListener ev l st :
  registered ev (removeListener ev l st) =
  filter (λ x, x ≠ l) (registered ev st).
Proof. rewrite removeListener_eq. apply registered_stored_same. Qed.

Lemma registered_clear ev st : registered ev (clear st) = [].
Proof. unfold registered, clear; simpl. by rewrite lookup_empty. Qed.

Lemma registered_removeListeners ev st : registered ev (removeListeners ev st) = [].
Proof. unfold registered, removeListeners; simpl. by rewrite lookup_delete_eq. Qed.

Lemma wf_addListener ev ls st : wf st → wf (addListener ev ls st).1.
Proof.
  intros Hwf. destruct (addListener_cases ev ls st) as [H|H]; rewrite H; simpl.
  - done.
  - by apply wf_stored.
Qed.

Lemma wf_removeListener ev l st : wf st → wf (removeListener ev l st).
Proof. intros Hwf. rewrite removeListener_eq. by apply wf_stored. Qed.

End EventEmitterRegistry.

(** ** The registry of MonoEmitter *)

Section MonoEmitterRegistry.
Import MonoEmitter.
Implicit Types (st : state) (ls : list listener) (l : listener).

Lemma mono_wf_new : wf new.
Proof. unfold wf, new; simpl. lia. Qed.

Lemma mono_limit_reached_iff st :
  limit_reached st = true ↔
  ∃ N, maxListenersCount st = Some N ∧ N ≠ 0%Z
       ∧ (N < Z.of_nat (listenersCount st) + 1)%Z.
Proof.
  unfold limit_reached, truthy.
  destruct (maxListenersCount st) as [N|]; simpl.
  - rewrite andb_true_iff, negb_true_iff, Z.eqb_neq, Z.ltb_lt. split.
    + intros [? ?]. by exists N.
    + by intros (N' & [= <-] & ? & ?).
  - split; [done|]. by intros (N & ? & _).
Qed.

Lemma mono_addListener_throws_iff ls st :
  (addListener ls st).2 = inl LimitExceeded ↔ limit_reached st = true.
Proof. unfold addListener. by destruct (limit_reached st). Qed.

Lemma mono_addListener_cases ls st :
  addListener ls st = (st, inl LimitExceeded) ∨
  addListener ls st = (set_heap (push (listeners st) ls) st, inr ()).
Proof. unfold addListener. destruct (limit_reached st); auto. Qed.

Lemma mono_registered_push ls st :
  wf st →
  registered (set_heap (push (listeners st) ls) st) = registered st ++ ls.
Proof. intros Hwf. unfold registered; simpl. by apply array_push_same. Qed.

Lemma mono_registered_addListener ls st st' :
  wf st → addListener ls st = (st', inr ()) →
  registered st' = registered st ++ ls.
Proof.
  intros Hwf. destruct (mono_addListener_cases ls st) as [H|H]; rewrite H; [done|].
  intros [= <-]. by apply mono_registered_push.
Qed.

Lemma mono_registered_assign xs st : registered (assign_listeners xs st) = xs.
Proof. unfold registered, assign_listeners; simpl. apply array_alloc_new. Qed.

Lemma mono_registered_removeListener l st :
  registered (removeListener l st) = filter (λ x, x ≠ l) (registered st).
Proof. apply mono_registered_assign. Qed.

Lemma mono_registered_clear st : registered (clear st) = [].
Proof. apply mono_registered_assign. Qed.

Lemma mono_wf_assign xs st : wf (assign_listeners xs st).
Proof.
  unfold wf, assign_listeners; simpl. rewrite length_app; simpl. lia.
Qed.

Lemma mono_wf_removeListener l st : wf (removeListener l st).
Proof. apply mono_wf_assign. Qed.

Lemma mono_wf_clear st : wf (clear st).
Proof. apply mono_wf_assign. Qed.

Lemma mono_wf_addListener ls st : wf st → wf (addListener ls st).1.
Proof.
  unfold wf. destruct (mono_addListener_cases ls st) as [H|H]; rewrite H; simpl;
    [done|]. by rewrite length_push.
Qed.

End MonoEmitterRegistry.

(** ** Counting listeners over a sequence of calls *)

Section Ledger.
Implicit Types (l : listener) (ls : list listener) (ev : key).

Lemma step_Register_registered ev ev' ls st st' :
  EventEmitter.wf st →
  EventEmitter.step (EventEmitter.Register ev' ls) st = Some st' →
  EventEmitter.wf st' ∧
  EventEmitter.registered ev st' =
    if decide (ev' = ev) then ls ++ EventEmitter.registered ev st
    else EventEmitter.registered ev st.
Proof.
  intros Hwf. simpl.
  destruct (addListener_cases ev' ls st) as [H|H]; rewrite H; [done|].
  intros [= <-]. split; [by apply wf_stored|].
  rewrite registered_stored by done. by destruct (decide (ev' = ev)) as [->|].
Qed.

Lemma step_Unregister_registered ev ev' l st :
  EventEmitter.wf st →
  EventEmitter.wf (EventEmitter.removeListener ev' l st) ∧
  EventEmitter.registered ev (EventEmitter.removeListener ev' l st) =
    if decide (ev' = ev)
    then filter (λ x, x ≠ l) (EventEmitter.registered ev st)
    else EventEmitter.registered ev st.
Proof.
  intros Hwf. rewrite removeListener_eq. split; [by apply wf_stored|].
  rewrite registered_stored by done. by destruct (decide (ev' = ev)) as [->|].
Qed.

Lemma run_count ev ops : ∀ st st',
  EventEmitter.wf st → EventEmitter.run ops st = Some st' →
  EventEmitter.listenerCount ev st' + EventEmitter.removed ev ops st =
  EventEmitter.listenerCount ev st + EventEmitter.added ev ops.
Proof.
  induction ops as [|o ops IH]; intros st st' Hwf Hrun.
  - simpl in *. simplify_eq. lia.
  - cbn [EventEmitter.run EventEmitter.removed EventEmitter.added] in *.
    destruct (EventEmitter.step o st) as [st1|] eqn:Hstep; [|done].
    destruct o as [ev' ls|ev' l].
    + destruct (step_Register_registered ev _ _ _ _ Hwf Hstep) as [Hwf1 Hreg].
      specialize (IH _ _ Hwf1 Hrun).
      rewrite !listenerCount_registered in *. rewrite Hreg in IH.
      destruct (decide (ev' = ev)); [rewrite length_app in IH|]; lia.
    + simpl in Hstep. injection Hstep as <-.
      destruct (step_Unregister_registered ev ev' l st Hwf) as [Hwf1 Hreg].
      specialize (IH _ _ Hwf1 Hrun).
      rewrite !listenerCount_registered in *. rewrite Hreg in IH.
      destruct (decide (ev' = ev)); [|lia].
      pose proof (length_filter_neq l (EventEmitter.registered ev st)). lia.
Qed.

Lemma mono_run_count ops : ∀ st st',
  MonoEmitter.wf st → MonoEmitter.run ops st = Some st' →
  MonoEmitter.listenersCount st' + MonoEmitter.removed ops st =
  MonoEmitter.listenersCount st + MonoEmitter.added ops.
Proof.
  unfold MonoEmitter.listenersCount.
  induction ops as [|o ops IH]; intros st st' Hwf Hrun.
  - simpl in *. simplify_eq. lia.
  - cbn [MonoEmitter.run MonoEmitter.removed MonoEmitter.added] in *.
    destruct (MonoEmitter.step o st) as [st1|] eqn:Hstep; [|done].
    destruct o as [ls|l]; cbn [MonoEmitter.step] in Hstep.
    + destruct (MonoEmitter.addListener ls st) as [st2 [e|[]]] eqn:Hadd; [done|].
      injection Hstep as Heq. subst st1.
      pose proof (mono_wf_addListener ls st Hwf) as Hwf1.
      rewrite Hadd in Hwf1. simpl in Hwf1.
      specialize (IH _ _ Hwf1 Hrun).
      rewrite (mono_registered_addListener _ _ _ Hwf Hadd), length_app in IH. lia.
    + injection Hstep as <-.
      specialize (IH _ _ (mono_wf_removeListener l st) Hrun).
      rewrite mono_registered_removeListener in IH.
      pose proof (length_filter_neq l (MonoEmitter.registered st)). lia.
Qed.

End Ledger.

(** ** Dispatch on EventEmitter *)

Lemma settles_with_refl args s : settles_with args s s.
Proof. by left. Qed.

Lemma settles_with_trans args s1 s2 s3 :
  settles_with args s1 s2 → settles_with args s2 s3 → settles_with args s1 s3.
Proof.
  unfold settles_with. intros [->|[-> ->]] [->|[? ->]]; auto.
Qed.

Lemma settles_with_resolve args s : settles_with args s (resolve args s).
Proof. destruct s; [by right | by left | by left]. Qed.

Lemma settles_with_settled args s s' :
  settles_with args s s' → s ≠ Pending → s' = s.
Proof. by intros [->|[-> _]]. Qed.

Lemma resolve_settles_with args s s' :
  settles_with args s s' → resolve args s' = resolve args s.
Proof. by intros [->|[-> ->]]. Qed.

Lemma settles_with_resolved args s s' :
  settles_with args (resolve args s) s' → s' = resolve args s.
Proof. intros H. apply (settles_with_settled _ _ _ H). by destruct s. Qed.

Section EventEmitterDispatch.
Import EventEmitter.
Implicit Types (st : state) (ev : key) (ls : list listener) (l : listener).
Variable code : nat → body.

Lemma waits_advance_refl args ws : waits_advance args ws ws.
Proof. intros q w Hq. exists w. split; [done | apply settles_with_refl]. Qed.

Lemma waits_advance_trans args w1 w2 w3 :
  waits_advance args w1 w2 → waits_advance args w2 w3 →
  waits_advance args w1 w3.
Proof.
  intros H12 H23 q w Hq.
  destruct (H12 _ _ Hq) as (w' & Hq' & Hs).
  destruct (H23 _ _ Hq') as (w'' & Hq'' & Hs').
  exists w''. split; [done | eapply settles_with_trans; eassumption].
Qed.

Lemma dispatch_rel_refl args st : dispatch_rel args st st.
Proof.
  split_and!; [apply heap_grows_refl | apply waits_advance_refl | done..].
Qed.

Lemma dispatch_rel_trans args st1 st2 st3 :
  dispatch_rel args st1 st2 → dispatch_rel args st2 st3 →
  dispatch_rel args st1 st3.
Proof.
  intros (Hh & Hw & Hm & Ht & Hu) (Hh' & Hw' & Hm' & Ht' & Hu').
  split_and!; [eapply heap_grows_trans; eassumption
              | eapply waits_advance_trans; eassumption | congruence..].
Qed.

(** Storing a new array for an event changes nothing a dispatch looks at,
    and no array object. *)
Lemma dispatch_rel_stored args ev xs st :
  dispatch_rel args st
    (set_events <[ev := length (heap st)]> (set_heap (λ h, h ++ [xs]) st)).
Proof.
  split_and!; simpl; [apply (heap_grows_alloc _ xs)
                     | apply waits_advance_refl | done..].
Qed.

Lemma addListener_dispatch_rel args ev ls st :
  dispatch_rel args st (addListener ev ls st).1
  ∧ trace (addListener ev ls st).1 = trace st.
Proof.
  destruct (addListener_cases ev ls st) as [H|H]; rewrite H; simpl.
  - split; [apply dispatch_rel_refl | done].
  - split; [apply dispatch_rel_stored | done].
Qed.

Lemma removeListener_dispatch_rel args ev l st :
  dispatch_rel args st (removeListener ev l st)
  ∧ trace (removeListener ev l st) = trace st.
Proof.
  rewrite removeListener_eq. split; [apply dispatch_rel_stored | done].
Qed.

Lemma run_action_dispatch_rel args a st :
  dispatch_rel args st (run_action a st).1
  ∧ trace (run_action a st).1 = trace st.
Proof.
  destruct a as [ev ls|ev l|ev|]; simpl.
  - apply addListener_dispatch_rel.
  - apply removeListener_dispatch_rel.
  - split; [|done].
    split_and!; simpl; [apply heap_grows_refl | apply waits_advance_refl | done..].
  - split; [|done].
    split_and!; simpl; [apply heap_grows_refl | apply waits_advance_refl | done..].
Qed.

Lemma run_actions_dispatch_rel args (body : list action) : ∀ st,
  dispatch_rel args st (run_actions body st).1
  ∧ trace (run_actions body st).1 = trace st.
Proof.
  induction body as [|a body IH]; intros st; simpl.
  - split; [apply dispatch_rel_refl | done].
  - destruct (run_action_dispatch_rel args a st) as [Hd Ht].
    destruct (run_action a st) as [st1 [e|[]]]; simpl in *; [done|].
    destruct (IH st1) as [Hd' Ht']. split.
    + eapply dispatch_rel_trans; eassumption.
    + congruence.
Qed.

(** The callback of a [wait] resolves its own promise and no other. *)
Lemma callback_dispatch_rel p args st :
  dispatch_rel args st (callback p args st)
  ∧ trace (callback p args st) = trace st
  ∧ ∀ w, waits st !! p = Some w →
      ∃ w', waits (callback p args st) !! p = Some w'
            ∧ settlement w' = resolve args (settlement w).
Proof.
  unfold callback. destruct (waits st !! p) as [w|] eqn:Hp.
  - destruct (removeListener_dispatch_rel args (event w) (WaitCallback p) st)
      as [(Hh & Hw & Hm & Ht & Hu) Htr].
    rewrite removeListener_eq in *. simpl in *.
    split_and!; simpl; try done.
    + split_and!; simpl; try done.
      intros q w0 Hq. destruct (decide (q = p)) as [->|Hne].
      * rewrite list_lookup_insert_eq by by eapply lookup_lt_Some.
        eexists. split; [done|]. simpl. simplify_eq.
        apply settles_with_resolve.
      * rewrite list_lookup_insert_ne by done. exists w0.
        split; [done | apply settles_with_refl].
    + intros w0 [= <-].
      rewrite list_lookup_insert_eq by by eapply lookup_lt_Some.
      by eexists.
  - split_and!; [apply dispatch_rel_refl | done | done].
Qed.

(** One invocation: it is logged, and it moves the state as a dispatch
    may. *)
Lemma call_spec x args st :
  trace (call code x args st).1 = trace st ++ [(x, args)]
  ∧ dispatch_rel args st (call code x args st).1
  ∧ ∀ p w, x = WaitCallback p → waits st !! p = Some w →
      ∃ w', waits (call code x args st).1 !! p = Some w'
            ∧ settlement w' = resolve args (settlement w).
Proof.
  unfold call.
  set (st0 := set_trace (λ t, t ++ [(x, args)]) st).
  assert (H0 : dispatch_rel args st st0).
  { split_and!; simpl;
      [apply heap_grows_refl | apply waits_advance_refl | done..]. }
  destruct x as [f|p].
  - destruct (run_actions_dispatch_rel args (acts (code f)) st0) as [Hd Ht].
    destruct (run_actions (acts (code f)) st0) as [st1 [e|[]]]; simpl in *.
    + split_and!; [done | exact (dispatch_rel_trans _ _ _ _ H0 Hd)
                  | by intros ? ? [=]].
    + split_and!; [done | exact (dispatch_rel_trans _ _ _ _ H0 Hd)
                  | by intros ? ? [=]].
  - destruct (callback_dispatch_rel p args st0) as (Hd & Ht & Hp). simpl.
    split_and!; [done | exact (dispatch_rel_trans _ _ _ _ H0 Hd) |].
    intros p' w [= <-] Hw. by apply Hp.
Qed.

(** The loop of [map] over the indices [i .. i+n-1] of an array that still
    starts with the [snapshot] read when [map] was entered: it invokes the
    listeners of the snapshot from [i] on, in order, up to the first that
    throws. *)
Lemma map_loop_spec a args snapshot : ∀ n i st st' r,
  i + n = length snapshot →
  snapshot `prefix_of` array (heap st) a →
  map_loop code a args (seq i n) st = (st', r) →
  ∃ invoked,
    trace st' = trace st ++ invocations args invoked
    ∧ invoked `prefix_of` drop i snapshot
    ∧ (∀ rs, r = inr rs → invoked = drop i snapshot ∧ length rs = n)
    ∧ dispatch_rel args st st'
    ∧ (∀ p w, WaitCallback p ∈ invoked → waits st !! p = Some w →
         ∃ w', waits st' !! p = Some w'
               ∧ settlement w' = resolve args (settlement w)).
Proof.
  induction n as [|n IH]; intros i st st' r Hlen Hpre Hloop.
  - simpl in Hloop. injection Hloop as <- <-. exists [].
    split_and!.
    + unfold invocations. simpl. by rewrite app_nil_r.
    + apply prefix_nil.
    + intros rs [= <-]. split; [|done]. by rewrite drop_ge by lia.
    + apply dispatch_rel_refl.
    + intros p w Hin. by apply elem_of_nil in Hin.
  - destruct (lookup_lt_is_Some_2 snapshot i ltac:(lia)) as [x Hx].
    assert (Hax : array (heap st) a !! i = Some x).
    { destruct Hpre as [ys ->]. by apply lookup_app_l_Some. }
    rewrite (drop_S _ _ _ Hx).
    cbn [seq map_loop] in Hloop. rewrite Hax in Hloop.
    destruct (call_spec x args st) as (Htr & Hd & Hcb).
    destruct (call code x args st) as [st1 [e|v]]; simpl in Htr, Hd, Hcb.
    + injection Hloop as <- <-. exists [x]. split_and!.
      * done.
      * apply prefix_cons, prefix_nil.
      * intros rs [=].
      * done.
      * intros p w Hin Hw. apply list_elem_of_singleton in Hin. eauto.
    + assert (Hpre1 : snapshot `prefix_of` array (heap st1) a).
      { etrans; [exact Hpre|]. apply Hd. }
      destruct (map_loop code a args (seq (S i) n) st1) as [st2 r2] eqn:Hrest.
      destruct (IH (S i) st1 st2 r2 ltac:(lia) Hpre1 Hrest)
        as (inv & Htr2 & Hpre2 & Hall & Hd2 & Hcb2).
      exists (x :: inv).
      assert (st' = st2 ∧ r = match r2 with
                              | inl e => inl e
                              | inr rs => inr (v :: rs)
                              end) as [-> ->].
      { destruct r2; by injection Hloop as <- <-. }
      split_and!.
      * rewrite Htr2, Htr. unfold invocations. simpl.
        by rewrite <- app_assoc.
      * by apply prefix_cons.
      * intros rs Hrs. destruct r2 as [e|rs2]; [done|].
        injection Hrs as <-. destruct (Hall rs2 eq_refl) as [-> Hn].
        split; [done | simpl; lia].
      * exact (dispatch_rel_trans _ _ _ _ Hd Hd2).
      * intros p w Hin Hw. apply elem_of_cons in Hin as [<-|Hin].
        -- destruct (Hcb p w eq_refl Hw) as (w1 & Hw1 & Hs1).
           destruct Hd2 as (_ & Hwa & _).
           destruct (Hwa _ _ Hw1) as (w2 & Hw2 & Hs2).
           exists w2. split; [done|]. rewrite Hs1 in Hs2.
           by apply settles_with_resolved in Hs2.
        -- destruct Hd as (_ & Hwa & _).
           destruct (Hwa _ _ Hw) as (w1 & Hw1 & Hs1).
           destruct (Hcb2 p w1 Hin Hw1) as (w2 & Hw2 & Hs2).
           exists w2. split; [done|]. rewrite Hs2.
           by apply resolve_settles_with.
Qed.

Lemma call_result x args st st1 r :
  call code x args st = (st1, inr r) → result_of code x args = inr r.
Proof.
  unfold call, result_of. destruct x as [f|p].
  - destruct (run_actions _ _) as [st2 [e|[]]]; [done|]. by intros [= _ ->].
  - by intros [= _ <-].
Qed.

(** The results of [map] are those of the listeners of the snapshot, in the
    order of the snapshot. *)
Lemma map_loop_results a args snapshot : ∀ n i st st' rs,
  i + n = length snapshot →
  snapshot `prefix_of` array (heap st) a →
  map_loop code a args (seq i n) st = (st', inr rs) →
  Forall2 (λ x r, result_of code x args = inr r) (drop i snapshot) rs.
Proof.
  induction n as [|n IH]; intros i st st' rs Hlen Hpre Hloop.
  - simpl in Hloop. injection Hloop as <- <-.
    rewrite drop_ge by lia. constructor.
  - destruct (lookup_lt_is_Some_2 snapshot i ltac:(lia)) as [x Hx].
    assert (Hax : array (heap st) a !! i = Some x).
    { destruct Hpre as [ys ->]. by apply lookup_app_l_Some. }
    rewrite (drop_S _ _ _ Hx).
    cbn [seq map_loop] in Hloop. rewrite Hax in Hloop.
    destruct (call_spec x args st) as (_ & Hd & _).
    destruct (call code x args st) as [st1 [e|v]] eqn:Hcall; [done|].
    simpl in Hd.
    destruct (map_loop code a args (seq (S i) n) st1) as [st2 [e|rs2]] eqn:Hrest;
      [done|].
    injection Hloop as <- <-. constructor.
    + by eapply call_result.
    + eapply (IH (S i) st1 st2); [lia| |done].
      etrans; [exact Hpre|]. apply Hd.
Qed.

Lemma emitSync_results ev args st st' rs :
  emitSync code ev args st = (st', inr rs) →
  Forall2 (λ x r, result_of code x args = inr r) (registered ev st) rs.
Proof.
  unfold emitSync, registered, Array_map.
  destruct (events st !! ev) as [a|].
  - intros Hloop.
    by apply (map_loop_results a args (array (heap st) a)
                (length (array (heap st) a)) 0 st st' rs).
  - intros [= <- <-]. constructor.
Qed.

(** [emitSync] invokes the listeners registered when it was called, in
    their order, whatever the listeners do to the registry meanwhile. *)
Lemma emitSync_spec ev args st st' r :
  emitSync code ev args st = (st', r) →
  ∃ invoked,
    trace st' = trace st ++ invocations args invoked
    ∧ invoked `prefix_of` registered ev st
    ∧ (∀ rs, r = inr rs →
         invoked = registered ev st ∧ length rs = length (registered ev st))
    ∧ dispatch_rel args st st'
    ∧ (∀ p w, WaitCallback p ∈ invoked → waits st !! p = Some w →
         ∃ w', waits st' !! p = Some w'
               ∧ settlement w' = resolve args (settlement w)).
Proof.
  unfold emitSync, registered, Array_map.
  destruct (events st !! ev) as [a|].
  - intros Hloop.
    by apply (map_loop_spec a args (array (heap st) a) _ 0 st st' r).
  - intros [= <- <-]. exists []. split_and!.
    + unfold invocations. simpl. by rewrite app_nil_r.
    + done.
    + by intros rs [= <-].
    + apply dispatch_rel_refl.
    + intros p w Hin. by apply elem_of_nil in Hin.
Qed.

Lemma emit_emitSync ev args st :
  emit code ev args st =
    ((emitSync code ev args st).1,
     match (emitSync code ev args st).2 with
     | inl e => inl e
     | inr rs => inr (Promise_all rs)
     end).
Proof.
  unfold emit. by destruct (emitSync code ev args st) as [st1 [e|rs]].
Qed.

End EventEmitterDispatch.

(** ** Dispatch on MonoEmitter *)

Section MonoEmitterDispatch.
Import MonoEmitter.
Implicit Types (st : state) (ls : list listener) (l : listener).
Variable code : nat → body.

Lemma mono_waits_advance_refl args ws : waits_advance args ws ws.
Proof. intros q w Hq. exists w. split; [done | apply settles_with_refl]. Qed.

Lemma mono_waits_advance_trans args w1 w2 w3 :
  waits_advance args w1 w2 → waits_advance args w2 w3 →
  waits_advance args w1 w3.
Proof.
  intros H12 H23 q w Hq.
  destruct (H12 _ _ Hq) as (w' & Hq' & Hs).
  destruct (H23 _ _ Hq') as (w'' & Hq'' & Hs').
  exists w''. split; [done | eapply settles_with_trans; eassumption].
Qed.

Lemma mono_dispatch_rel_refl args st : dispatch_rel args st st.
Proof.
  split_and!; [apply heap_grows_refl | apply mono_waits_advance_refl | done..].
Qed.

Lemma mono_dispatch_rel_trans args st1 st2 st3 :
  dispatch_rel args st1 st2 → dispatch_rel args st2 st3 →
  dispatch_rel args st1 st3.
Proof.
  intros (Hh & Hw & Hm & Ht & Hu) (Hh' & Hw' & Hm' & Ht' & Hu').
  split_and!; [eapply heap_grows_trans; eassumption
              | eapply mono_waits_advance_trans; eassumption | congruence..].
Qed.

(** [this.#listeners = xs] leaves every array object as it is. *)
Lemma mono_dispatch_rel_assign args xs st :
  dispatch_rel args st (assign_listeners xs st)
  ∧ trace (assign_listeners xs st) = trace st.
Proof.
  split; [|done].
  split_and!; simpl; [apply (heap_grows_alloc _ xs)
                     | apply mono_waits_advance_refl | done..].
Qed.

(** [push] only adds at the end of the array it is applied to. *)
Lemma mono_addListener_dispatch_rel args ls st :
  dispatch_rel args st (addListener ls st).1
  ∧ trace (addListener ls st).1 = trace st.
Proof.
  destruct (mono_addListener_cases ls st) as [H|H]; rewrite H; simpl.
  - split; [apply mono_dispatch_rel_refl | done].
  - split; [|done].
    split_and!; simpl; [apply heap_grows_push
                       | apply mono_waits_advance_refl | done..].
Qed.

Lemma mono_run_action_dispatch_rel args a st :
  dispatch_rel args st (run_action a st).1
  ∧ trace (run_action a st).1 = trace st.
Proof.
  destruct a as [ls|l|]; simpl.
  - apply mono_addListener_dispatch_rel.
  - apply mono_dispatch_rel_assign.
  - apply mono_dispatch_rel_assign.
Qed.

Lemma mono_run_actions_dispatch_rel args (body : list action) : ∀ st,
  dispatch_rel args st (run_actions body st).1
  ∧ trace (run_actions body st).1 = trace st.
Proof.
  induction body as [|a body IH]; intros st; simpl.
  - split; [apply mono_dispatch_rel_refl | done].
  - destruct (mono_run_action_dispatch_rel args a st) as [Hd Ht].
    destruct (run_action a st) as [st1 [e|[]]]; simpl in *; [done|].
    destruct (IH st1) as [Hd' Ht']. split.
    + exact (mono_dispatch_rel_trans _ _ _ _ Hd Hd').
    + congruence.
Qed.

(** The callback of a [wait] resolves its own promise and no other. *)
Lemma mono_callback_dispatch_rel p args st :
  dispatch_rel args st (callback p args st)
  ∧ trace (callback p args st) = trace st
  ∧ ∀ w, waits st !! p = Some w →
      ∃ w', waits (callback p args st) !! p = Some w'
            ∧ settlement w' = resolve args (settlement w).
Proof.
  unfold callback. destruct (waits st !! p) as [w|] eqn:Hp.
  - split_and!; simpl; try done.
    + split_and!; simpl; try done.
      * apply (heap_grows_alloc _ (filter _ _)).
      * intros q w0 Hq. destruct (decide (q = p)) as [->|Hne].
        -- rewrite list_lookup_insert_eq by by eapply lookup_lt_Some.
           eexists. split; [done|]. simpl. simplify_eq.
           apply settles_with_resolve.
        -- rewrite list_lookup_insert_ne by done. exists w0.
           split; [done | apply settles_with_refl].
    + intros w0 [= <-].
      rewrite list_lookup_insert_eq by by eapply lookup_lt_Some.
      by eexists.
  - split_and!; [apply mono_dispatch_rel_refl | done | done].
Qed.

(** One invocation: it is logged, and it moves the state as a dispatch
    may. *)
Lemma mono_call_spec x args st :
  trace (call code x args st).1 = trace st ++ [(x, args)]
  ∧ dispatch_rel args st (call code x args st).1
  ∧ ∀ p w, x = WaitCallback p → waits st !! p = Some w →
      ∃ w', waits (call code x args st).1 !! p = Some w'
            ∧ settlement w' = resolve args (settlement w).
Proof.
  unfold call.
  set (st0 := set_trace (λ t, t ++ [(x, args)]) st).
  assert (H0 : dispatch_rel args st st0).
  { split_and!; simpl;
      [apply heap_grows_refl | apply mono_waits_advance_refl | done..]. }
  destruct x as [f|p].
  - destruct (mono_run_actions_dispatch_rel args (acts (code f)) st0) as [Hd Ht].
    destruct (run_actions (acts (code f)) st0) as [st1 [e|[]]]; simpl in *.
    + split_and!; [done | exact (mono_dispatch_rel_trans _ _ _ _ H0 Hd)
                  | by intros ? ? [=]].
    + split_and!; [done | exact (mono_dispatch_rel_trans _ _ _ _ H0 Hd)
                  | by intros ? ? [=]].
  - destruct (mono_callback_dispatch_rel p args st0) as (Hd & Ht & Hp). simpl.
    split_and!; [done | exact (mono_dispatch_rel_trans _ _ _ _ H0 Hd) |].
    intros p' w [= <-] Hw. by apply Hp.
Qed.

(** The loop of [map] over the array object [a], which may have been pushed
    onto since [map] was entered but still starts with the [snapshot] read
    then: the listeners of the snapshot from [i] on are invoked, in order,
    up to the first that throws, and none of those pushed meanwhile. *)
Lemma mono_map_loop_spec a args snapshot : ∀ n i st st' r,
  i + n = length snapshot →
  snapshot `prefix_of` array (heap st) a →
  map_loop code a args (seq i n) st = (st', r) →
  ∃ invoked,
    trace st' = trace st ++ invocations args invoked
    ∧ invoked `prefix_of` drop i snapshot
    ∧ (∀ rs, r = inr rs → invoked = drop i snapshot ∧ length rs = n)
    ∧ dispatch_rel args st st'
    ∧ (∀ p w, WaitCallback p ∈ invoked → waits st !! p = Some w →
         ∃ w', waits st' !! p = Some w'
               ∧ settlement w' = resolve args (settlement w)).
Proof.
  induction n as [|n IH]; intros i st st' r Hlen Hpre Hloop.
  - simpl in Hloop. injection Hloop as <- <-. exists [].
    split_and!.
    + unfold invocations. simpl. by rewrite app_nil_r.
    + apply prefix_nil.
    + intros rs [= <-]. split; [|done]. by rewrite drop_ge by lia.
    + apply mono_dispatch_rel_refl.
    + intros p w Hin. by apply elem_of_nil in Hin.
  - destruct (lookup_lt_is_Some_2 snapshot i ltac:(lia)) as [x Hx].
    assert (Hax : array (heap st) a !! i = Some x).
    { destruct Hpre as [ys ->]. by apply lookup_app_l_Some. }
    rewrite (drop_S _ _ _ Hx).
    cbn [seq map_loop] in Hloop. rewrite Hax in Hloop.
    destruct (mono_call_spec x args st) as (Htr & Hd & Hcb).
    destruct (call code x args st) as [st1 [e|v]]; simpl in Htr, Hd, Hcb.
    + injection Hloop as <- <-. exists [x]. split_and!.
      * done.
      * apply prefix_cons, prefix_nil.
      * intros rs [=].
      * done.
      * intros p w Hin Hw. apply list_elem_of_singleton in Hin. eauto.
    + assert (Hpre1 : snapshot `prefix_of` array (heap st1) a).
      { etrans; [exact Hpre|]. apply Hd. }
      destruct (map_loop code a args (seq (S i) n) st1) as [st2 r2] eqn:Hrest.
      destruct (IH (S i) st1 st2 r2 ltac:(lia) Hpre1 Hrest)
        as (inv & Htr2 & Hpre2 & Hall & Hd2 & Hcb2).
      exists (x :: inv).
      assert (st' = st2 ∧ r = match r2 with
                              | inl e => inl e
                              | inr rs => inr (v :: rs)
                              end) as [-> ->].
      { destruct r2; by injection Hloop as <- <-. }
      split_and!.
      * rewrite Htr2, Htr. unfold invocations. simpl.
        by rewrite <- app_assoc.
      * by apply prefix_cons.
      * intros rs Hrs. destruct r2 as [e|rs2]; [done|].
        injection Hrs as <-. destruct (Hall rs2 eq_refl) as [-> Hn].
        split; [done | simpl; lia].
      * exact (mono_dispatch_rel_trans _ _ _ _ Hd Hd2).
      * intros p w Hin Hw. apply elem_of_cons in Hin as [<-|Hin].
        -- destruct (Hcb p w eq_refl Hw) as (w1 & Hw1 & Hs1).
           destruct Hd2 as (_ & Hwa & _).
           destruct (Hwa _ _ Hw1) as (w2 & Hw2 & Hs2).
           exists w2. split; [done|]. rewrite Hs1 in Hs2.
           by apply settles_with_resolved in Hs2.
        -- destruct Hd as (_ & Hwa & _).
           destruct (Hwa _ _ Hw) as (w1 & Hw1 & Hs1).
           destruct (Hcb2 p w1 Hin Hw1) as (w2 & Hw2 & Hs2).
           exists w2. split; [done|]. rewrite Hs2.
           by apply resolve_settles_with.
Qed.

Lemma mono_call_result x args st st1 r :
  call code x args st = (st1, inr r) → result_of code x args = inr r.
Proof.
  unfold call, result_of. destruct x as [f|p].
  - destruct (run_actions _ _) as [st2 [e|[]]]; [done|]. by intros [= _ ->].
  - by intros [= _ <-].
Qed.

(** The results of [map] are those of the listeners of the snapshot, in the
    order of the snapshot. *)
Lemma mono_map_loop_results a args snapshot : ∀ n i st st' rs,
  i + n = length snapshot →
  snapshot `prefix_of` array (heap st) a →
  map_loop code a args (seq i n) st = (st', inr rs) →
  Forall2 (λ x r, result_of code x args = inr r) (drop i snapshot) rs.
Proof.
  induction n as [|n IH]; intros i st st' rs Hlen Hpre Hloop.
  - simpl in Hloop. injection Hloop as <- <-.
    rewrite drop_ge by lia. constructor.
  - destruct (lookup_lt_is_Some_2 snapshot i ltac:(lia)) as [x Hx].
    assert (Hax : array (heap st) a !! i = Some x).
    { destruct Hpre as [ys ->]. by apply lookup_app_l_Some. }
    rewrite (drop_S _ _ _ Hx).
    cbn [seq map_loop] in Hloop. rewrite Hax in Hloop.
    destruct (mono_call_spec x args st) as (_ & Hd & _).
    destruct (call code x args st) as [st1 [e|v]] eqn:Hcall; [done|].
    simpl in Hd.
    destruct (map_loop code a args (seq (S i) n) st1) as [st2 [e|rs2]] eqn:Hrest;
      [done|].
    injection Hloop as <- <-. constructor.
    + by eapply mono_call_result.
    + eapply (IH (S i) st1 st2); [lia| |done].
      etrans; [exact Hpre|]. apply Hd.
Qed.

Lemma mono_emitSync_results args st st' rs :
  emitSync code args st = (st', inr rs) →
  Forall2 (λ x r, result_of code x args = inr r) (registered st) rs.
Proof.
  unfold emitSync, registered, Array_map. intros Hloop.
  by apply (mono_map_loop_results (listeners st) args
              (array (heap st) (listeners st))
              (length (array (heap st) (listeners st))) 0 st st' rs).
Qed.

(** [emitSync] invokes the listeners registered when it was called, in
    their order, whatever the listeners do to the registry meanwhile. *)
Lemma mono_emitSync_spec args st st' r :
  emitSync code args st = (st', r) →
  ∃ invoked,
    trace st' = trace st ++ invocations args invoked
    ∧ invoked `prefix_of` registered st
    ∧ (∀ rs, r = inr rs →
         invoked = registered st ∧ length rs = length (registered st))
    ∧ dispatch_rel args st st'
    ∧ (∀ p w, WaitCallback p ∈ invoked → waits st !! p = Some w →
         ∃ w', waits st' !! p = Some w'
               ∧ settlement w' = resolve args (settlement w)).
Proof.
  unfold emitSync, registered, Array_map. intros Hloop.
  by apply (mono_map_loop_spec (listeners st) args
              (array (heap st) (listeners st)) _ 0 st st' r).
Qed.

Lemma mono_emit_emitSync args st :
  emit code args st =
    ((emitSync code args st).1,
     match (emitSync code args st).2 with
     | inl e => inl e
     | inr rs => inr (Promise_all rs)
     end).
Proof.
  unfold emit. by destruct (emitSync code args st) as [st1 [e|rs]].
Qed.

End MonoEmitterDispatch.

(** ** Awaited results keep the order *)

Lemma awaited_in_order {X : Type} (P : X → ret → Prop) (xs : list X)
    (rs : list ret) :
  Forall2 P xs rs →
  Forall2 (λ x v, ∃ r, P x r ∧ awaited r = v) xs (map awaited rs).
Proof.
  induction 1 as [|x r xs rs Hxr _ IH]; simpl; constructor; eauto.
Qed.

(** ** wait and its timer *)

Section EventEmitterWait.
Import EventEmitter.
Implicit Types (st : state) (ev : key) (p : nat).

(** A [wait] that [addListener] lets through: a new pending promise, its
    callback in front of the listeners of the event, and a timer when the
    timeout is a number other than zero. *)
Lemma wait_returns ev timeout st :
  limit_reached ev st = false →
  let p := length (waits st) in
  let st1 := (wait ev timeout st).1 in
  (wait ev timeout st).2 = p
  ∧ waits st1 = waits st ++ [Closure ev Pending false]
  ∧ registered ev st1 = WaitCallback p :: registered ev st
  ∧ timers st1 = timers st ++
      match timeout with
      | Some t => if truthy t then [(p, t)] else []
      | None => []
      end
  ∧ uncaught st1 = uncaught st.
Proof.
  intros Hl p st1. unfold st1, wait. fold p.
  rewrite (addListener_returns ev [WaitCallback p]
             (set_waits (λ w, w ++ [Closure ev Pending false]) st) Hl).
  destruct timeout as [t|]; [destruct (truthy t)|]; cbn beta iota;
    (split_and!;
       [done | done
       | apply (registered_stored_same ev _
                  (set_waits (λ w, w ++ [Closure ev Pending false]) st))
       | simpl; by rewrite ?app_nil_r | done]).
Qed.

Lemma promise_of_wait ev timeout st :
  limit_reached ev st = false →
  promise_of (wait ev timeout st).2 (wait ev timeout st).1 = Some Pending.
Proof.
  intros Hl. destruct (wait_returns ev timeout st Hl) as (-> & Hw & _).
  unfold promise_of. rewrite Hw.
  by rewrite lookup_app_r, Nat.sub_diag by lia.
Qed.

(** The timer of a [wait] that saw no emission: the exception goes to
    nobody, and nothing else changes. *)
Lemma run_timer_unfulfilled p st w :
  p ∈ (timers st).*1 → waits st !! p = Some w → fullfilled w = false →
  run_timer p st =
    set_uncaught (λ u, u ++ [Timeout]) (set_timers (filter (λ t, t.1 ≠ p)) st).
Proof.
  intros Hin Hw Hf. unfold run_timer, timeout_callback.
  rewrite bool_decide_eq_true_2 by done. simpl. by rewrite Hw, Hf.
Qed.

Lemma run_timer_waits p st : waits (run_timer p st) = waits st.
Proof.
  unfold run_timer, timeout_callback. destruct (bool_decide _); [|done].
  simpl. destruct (waits st !! p) as [w|]; [destruct (fullfilled w)|]; done.
Qed.

Lemma promise_of_advance args p st st' s :
  dispatch_rel args st st' → promise_of p st = Some s →
  ∃ s', promise_of p st' = Some s' ∧ settles_with args s s'.
Proof.
  intros (_ & Hw & _). unfold promise_of.
  destruct (waits st !! p) as [w|] eqn:Hp; [|done]. intros [= <-].
  destruct (Hw _ _ Hp) as (w' & -> & Hs). by exists (settlement w').
Qed.

(** A settled promise stays as it is through any dispatch. *)
Lemma promise_of_settled code ev args p st s :
  promise_of p st = Some s → s ≠ Pending →
  promise_of p (emitSync code ev args st).1 = Some s.
Proof.
  intros Hp Hs.
  destruct (emitSync code ev args st) as [st' r] eqn:Hsync.
  destruct (emitSync_spec _ _ _ _ _ _ Hsync) as (_ & _ & _ & _ & Hd & _).
  destruct (promise_of_advance _ _ _ _ _ Hd Hp) as (s' & Hp' & Hss).
  simpl. by rewrite Hp', (settles_with_settled _ _ _ Hss Hs).
Qed.

(** A dispatch that returns and had the callback of a pending [wait] among
    its listeners has fulfilled the promise with its arguments. *)
Lemma emitSync_resolves code ev args p st st' rs :
  promise_of p st = Some Pending →
  WaitCallback p ∈ registered ev st →
  emitSync code ev args st = (st', inr rs) →
  promise_of p st' = Some (Fulfilled args).
Proof.
  intros Hp Hin Hsync.
  destruct (emitSync_spec _ _ _ _ _ _ Hsync) as (inv & _ & _ & Hall & _ & Hcb).
  destruct (Hall rs eq_refl) as [-> _].
  unfold promise_of in *.
  destruct (waits st !! p) as [w|] eqn:Hw; [|done].
  destruct (Hcb p w Hin Hw) as (w' & -> & Hs).
  simpl in *. injection Hp as Hp. by rewrite Hs, Hp.
Qed.

End EventEmitterWait.

Section MonoEmitterWait.
Import MonoEmitter.
Implicit Types (st : state) (p : nat).

(** [wait]: a new pending promise, its callback behind the listeners, and
    a timer when the timeout is a number other than zero. *)
Lemma mono_wait_returns timeout st :
  wf st →
  let p := length (waits st) in
  let st1 := (wait timeout st).1 in
  (wait timeout st).2 = p
  ∧ waits st1 = waits st ++ [Closure Pending false]
  ∧ registered st1 = registered st ++ [WaitCallback p]
  ∧ timers st1 = timers st ++
      match timeout with
      | Some t => if truthy t then [(p, t)] else []
      | None => []
      end
  ∧ uncaught st1 = uncaught st.
Proof.
  intros Hwf p st1. unfold st1, wait. fold p.
  destruct timeout as [t|]; [destruct (truthy t)|]; simpl;
    (split_and!;
       [done | done | unfold registered; simpl; by apply array_push_same
       | by rewrite ?app_nil_r | done]).
Qed.

Lemma mono_promise_of_wait timeout st :
  promise_of (wait timeout st).2 (wait timeout st).1 = Some Pending.
Proof.
  unfold promise_of, wait.
  destruct timeout as [t|]; [destruct (truthy t)|]; simpl;
    by rewrite lookup_app_r, Nat.sub_diag by lia.
Qed.

Lemma mono_run_timer_unfulfilled p st w :
  p ∈ (timers st).*1 → waits st !! p = Some w → fullfilled w = false →
  run_timer p st =
    set_uncaught (λ u, u ++ [Timeout]) (set_timers (filter (λ t, t.1 ≠ p)) st).
Proof.
  intros Hin Hw Hf. unfold run_timer, timeout_callback.
  rewrite bool_decide_eq_true_2 by done. simpl. by rewrite Hw, Hf.
Qed.

Lemma mono_run_timer_waits p st : waits (run_timer p st) = waits st.
Proof.
  unfold run_timer, timeout_callback. destruct (bool_decide _); [|done].
  simpl. destruct (waits st !! p) as [w|]; [destruct (fullfilled w)|]; done.
Qed.



Lemma mono_emitSync_resolves code args p st st' rs :
  promise_of p st = Some Pending →
  WaitCallback p ∈ registered st →
  emitSync code args st = (st', inr rs) →
  promise_of p st' = Some (Fulfilled args).
Proof.
  intros Hp Hin Hsync.
  destruct (mono_emitSync_spec _ _ _ _ _ Hsync) as (inv & _ & _ & Hall & _ & Hcb).
  destruct (Hall rs eq_refl) as [-> _].
  unfold promise_of in *.
  destruct (waits st !! p) as [w|] eqn:Hw; [|done].
  destruct (Hcb p w Hin Hw) as (w' & -> & Hs).
  simpl in *. injection Hp as Hp. by rewrite Hs, Hp.
Qed.

End MonoEmitterWait.

(** ** The references of a reachable state are never dangling *)

Section EventEmitterInvariant.
Import EventEmitter.
Implicit Types (st : state) (ev : key).
Variable code : nat → body.

Lemma wf_removeListeners ev st : wf st → wf (removeListeners ev st).
Proof.
  intros Hwf ev' a; simpl. rewrite lookup_delete.
  destruct (decide (ev = ev')); [done | apply Hwf].
Qed.

Lemma wf_clear st : wf (clear st).
Proof. intros ev a; simpl. by rewrite lookup_empty. Qed.

Lemma wf_run_action a st : wf st → wf (run_action a st).1.
Proof.
  intros Hwf. destruct a as [ev ls|ev l|ev|]; simpl.
  - by apply wf_addListener.
  - by apply wf_removeListener.
  - by apply wf_removeListeners.
  - apply wf_clear.
Qed.

Lemma wf_run_actions (calls : list action) : ∀ st,
  wf st → wf (run_actions calls st).1.
Proof.
  induction calls as [|a calls IH]; intros st Hwf; simpl; [done|].
  pose proof (wf_run_action a st Hwf) as H1.
  destruct (run_action a st) as [st1 [e|[]]]; simpl in *; [done|].
  by apply IH.
Qed.

Lemma wf_callback p args st : wf st → wf (callback p args st).
Proof.
  intros Hwf. unfold callback. destruct (waits st !! p) as [w|]; [|done].
  exact (wf_removeListener (event w) (WaitCallback p) st Hwf).
Qed.

Lemma wf_call x args st : wf st → wf (call code x args st).1.
Proof.
  intros Hwf. unfold call. destruct x as [f|p].
  - pose proof (wf_run_actions (acts (code f))
                  (set_trace (λ t, t ++ [(Fn f, args)]) st) Hwf) as H1.
    by destruct (run_actions _ _) as [st1 [e|[]]].
  - simpl. apply wf_callback. exact Hwf.
Qed.

Lemma wf_map_loop a args ks : ∀ st,
  wf st → wf (map_loop code a args ks st).1.
Proof.
  induction ks as [|k ks IH]; intros st Hwf; simpl; [done|].
  destruct (array (heap st) a !! k) as [x|].
  - pose proof (wf_call x args st Hwf) as H1.
    destruct (call code x args st) as [st1 [e|r]]; simpl in *; [done|].
    pose proof (IH st1 H1) as H2.
    by destruct (map_loop code a args ks st1) as [st2 [e|rs]].
  - pose proof (IH st Hwf) as H2.
    by destruct (map_loop code a args ks st) as [st2 [e|rs]].
Qed.

Lemma wf_emitSync ev args st : wf st → wf (emitSync code ev args st).1.
Proof.
  intros Hwf. unfold emitSync, Array_map.
  destruct (events st !! ev) as [a|]; [by apply wf_map_loop | done].
Qed.

Lemma wf_emit ev args st : wf st → wf (emit code ev args st).1.
Proof. intros Hwf. rewrite emit_emitSync. by apply wf_emitSync. Qed.

Lemma wf_wait ev timeout st : wf st → wf (wait ev timeout st).1.
Proof.
  intros Hwf. unfold wait.
  pose proof (wf_addListener ev [WaitCallback (length (waits st))]
                (set_waits (λ w, w ++ [Closure ev Pending false]) st) Hwf) as H1.
  destruct (addListener _ _ _) as [st1 [e|[]]]; simpl in *; [done|].
  destruct timeout as [t|]; [destruct (truthy t)|]; done.
Qed.

Lemma wf_run_timer p st : wf st → wf (run_timer p st).
Proof.
  intros Hwf. unfold run_timer, timeout_callback.
  destruct (bool_decide _); [|done]. simpl.
  destruct (waits st !! p) as [w|]; [destruct (fullfilled w)|]; done.
Qed.

(** Pushing onto an array from outside keeps the references in range. *)
Lemma wf_push a ls st : wf st → wf (set_heap (push a ls) st).
Proof. intros Hwf ev b; simpl. rewrite length_push. apply Hwf. Qed.

End EventEmitterInvariant.

Section MonoEmitterInvariant.
Import MonoEmitter.
Implicit Types (st : state).
Variable code : nat → body.

Lemma mono_wf_run_action a st : wf st → wf (run_action a st).1.
Proof.
  intros Hwf. destruct a as [ls|l|]; simpl.
  - by apply mono_wf_addListener.
  - apply mono_wf_removeListener.
  - apply mono_wf_clear.
Qed.

Lemma mono_wf_run_actions (calls : list action) : ∀ st,
  wf st → wf (run_actions calls st).1.
Proof.
  induction calls as [|a calls IH]; intros st Hwf; simpl; [done|].
  pose proof (mono_wf_run_action a st Hwf) as H1.
  destruct (run_action a st) as [st1 [e|[]]]; simpl in *; [done|].
  by apply IH.
Qed.

Lemma mono_wf_callback p args st : wf st → wf (callback p args st).
Proof.
  intros Hwf. unfold callback. destruct (waits st !! p) as [w|]; [|done].
  exact (mono_wf_assign _ st).
Qed.

Lemma mono_wf_call x args st : wf st → wf (call code x args st).1.
Proof.
  intros Hwf. unfold call. destruct x as [f|p].
  - pose proof (mono_wf_run_actions (acts (code f))
                  (set_trace (λ t, t ++ [(Fn f, args)]) st) Hwf) as H1.
    by destruct (run_actions _ _) as [st1 [e|[]]].
  - simpl. apply mono_wf_callback. exact Hwf.
Qed.

Lemma mono_wf_map_loop a args ks : ∀ st,
  wf st → wf (map_loop code a args ks st).1.
Proof.
  induction ks as [|k ks IH]; intros st Hwf; simpl; [done|].
  destruct (array (heap st) a !! k) as [x|].
  - pose proof (mono_wf_call x args st Hwf) as H1.
    destruct (call code x args st) as [st1 [e|r]]; simpl in *; [done|].
    pose proof (IH st1 H1) as H2.
    by destruct (map_loop code a args ks st1) as [st2 [e|rs]].
  - pose proof (IH st Hwf) as H2.
    by destruct (map_loop code a args ks st) as [st2 [e|rs]].
Qed.

Lemma mono_wf_emitSync args st : wf st → wf (emitSync code args st).1.
Proof. intros Hwf. unfold emitSync, Array_map. by apply mono_wf_map_loop. Qed.

Lemma mono_wf_emit args st : wf st → wf (emit code args st).1.
Proof. intros Hwf. rewrite mono_emit_emitSync. by apply mono_wf_emitSync. Qed.

Lemma mono_wf_wait timeout st : wf st → wf (wait timeout st).1.
Proof.
  unfold wf, wait. intros Hwf.
  destruct timeout as [t|]; [destruct (truthy t)|]; simpl;
    by rewrite length_push.
Qed.

Lemma mono_wf_run_timer p st : wf st → wf (run_timer p st).
Proof.
  intros Hwf. unfold run_timer, timeout_callback.
  destruct (bool_decide _); [|done]. simpl.
  destruct (waits st !! p) as [w|]; [destruct (fullfilled w)|]; done.
Qed.

Lemma mono_wf_push a ls st : wf st → wf (set_heap (push a ls) st).
Proof. unfold wf. intros Hwf; simpl. by rewrite length_push. Qed.

End MonoEmitterInvariant.


(** ** Sequences of registry calls *)

Section EventEmitterSequences.
Import EventEmitter EventEmitterExt.
Implicit Types (st : state) (ev : key) (l : listener) (ls : list listener).

Lemma addListener_returned ev ls st st' :
  addListener ev ls st = (st', inr ()) → limit_reached ev st = false.
Proof.
  intros H. destruct (limit_reached ev st) eqn:Hl; [|done].
  by rewrite (addListener_throws _ _ _ Hl) in H.
Qed.

Lemma step_maxListeners o st st' :
  step o st = Some st' → maxListeners st' = maxListeners st.
Proof.
  destruct o as [ev ls|ev l]; simpl.
  - destruct (addListener_cases ev ls st) as [H|H]; rewrite H; [done|].
    by intros [= <-].
  - rewrite removeListener_eq. by intros [= <-].
Qed.

Lemma run_maxListeners ops : ∀ st st',
  run ops st = Some st' → maxListeners st' = maxListeners st.
Proof.
  induction ops as [|o ops IH]; intros st st'; simpl; [by intros [= <-]|].
  destruct (step o st) as [st1|] eqn:Hs; [|done].
  intros H%IH. rewrite H. by eapply step_maxListeners.
Qed.


(** With the limit [N] no sequence of calls that register one listener at
    a time brings the count above [N + 1]. *)
Lemma run_count_bound ev N ops : ∀ st st',
  one_at_a_time ops → wf st →
  maxListeners st !! ev = Some N → (0 ≤ N)%Z →
  run ops st = Some st' →
  (Z.of_nat (listenerCount ev st) ≤ N + 1)%Z →
  (Z.of_nat (listenerCount ev st') ≤ N + 1)%Z.
Proof.
  induction ops as [|o ops IH]; intros st st' Hone Hwf HN H0 Hrun Hb.
  - simpl in Hrun. by injection Hrun as <-.
  - inversion Hone as [|o' ops' Ho Hops]; subst.
    cbn [run] in Hrun.
    destruct (step o st) as [st1|] eqn:Hstep; [|done].
    pose proof (step_maxListeners _ _ _ Hstep) as Hmax.
    destruct o as [ev' ls|ev' l].
    + destruct (step_Register_registered ev _ _ _ _ Hwf Hstep) as [Hwf1 Hreg].
      apply (IH st1 st' Hops Hwf1); [by rewrite Hmax|done|done|].
      rewrite listenerCount_registered, Hreg.
      destruct (decide (ev' = ev)) as [->|Hne];
        [|by rewrite <- listenerCount_registered].
      simpl in Hstep.
      destruct (addListener ev ls st) as [st2 [e|[]]] eqn:Hadd; [done|].
      pose proof (addListener_returned _ _ _ _ Hadd) as Hl.
      assert (¬ (N < Z.of_nat (listenerCount ev st))%Z) as Hle.
      { intros Hlt. assert (limit_reached ev st = true) as Ht; [|congruence].
        apply limit_reached_iff. exists N. split_and!; [done|lia|done]. }
      rewrite length_app, <- listenerCount_registered. lia.
    + simpl in Hstep. injection Hstep as <-.
      destruct (step_Unregister_registered ev ev' l st Hwf) as [Hwf1 Hreg].
      apply (IH _ st' Hops Hwf1); [by rewrite Hmax|done|done|].
      rewrite listenerCount_registered, Hreg.
      destruct (decide (ev' = ev));
        [|by rewrite <- listenerCount_registered].
      pose proof (length_filter_neq l (registered ev st)).
      rewrite listenerCount_registered in Hb. lia.
Qed.

End EventEmitterSequences.

Section MonoEmitterSequences.
Import MonoEmitter MonoEmitterExt.
Implicit Types (st : state) (l : listener) (ls : list listener).

Lemma mono_addListener_returned ls st st' :
  addListener ls st = (st', inr ()) → limit_reached st = false.
Proof.
  unfold addListener. by destruct (limit_reached st).
Qed.

Lemma mono_step_frame o st st' :
  step o st = Some st' →
  maxListenersCount st' = maxListenersCount st ∧ (wf st → wf st').
Proof.
  destruct o as [ls|l]; simpl.
  - destruct (mono_addListener_cases ls st) as [H|H]; rewrite H; [done|].
    intros [= <-]. split; [done|]. unfold wf; simpl. by rewrite length_push.
  - intros [= <-]. split; [done|]. intros _. apply mono_wf_removeListener.
Qed.

Lemma mono_run_maxListenersCount ops : ∀ st st',
  run ops st = Some st' → maxListenersCount st' = maxListenersCount st.
Proof.
  induction ops as [|o ops IH]; intros st st'; simpl; [by intros [= <-]|].
  destruct (step o st) as [st1|] eqn:Hs; [|done].
  intros H%IH. rewrite H. by apply (mono_step_frame o).
Qed.


(** With the limit [N], other than zero, no sequence of calls that register
    one listener at a time brings the count above [N]. *)
Lemma mono_run_count_bound N ops : ∀ st st',
  one_at_a_time ops → wf st →
  maxListenersCount st = Some N → N ≠ 0%Z →
  run ops st = Some st' →
  (Z.of_nat (listenersCount st) ≤ N)%Z →
  (Z.of_nat (listenersCount st') ≤ N)%Z.
Proof.
  induction ops as [|o ops IH]; intros st st' Hone Hwf HN H0 Hrun Hb.
  - simpl in Hrun. by injection Hrun as <-.
  - inversion Hone as [|o' ops' Ho Hops]; subst.
    cbn [run] in Hrun.
    destruct (step o st) as [st1|] eqn:Hstep; [|done].
    destruct (mono_step_frame _ _ _ Hstep) as [Hmax Hwf1].
    apply (IH st1 st' Hops (Hwf1 Hwf)); [by rewrite Hmax|done|done|].
    destruct o as [ls|l]; cbn [step] in Hstep.
    + destruct (addListener ls st) as [st2 [e|[]]] eqn:Hadd; [done|].
      injection Hstep as <-.
      pose proof (mono_addListener_returned _ _ _ Hadd) as Hl.
      assert (¬ (N < Z.of_nat (listenersCount st) + 1)%Z) as Hle.
      { intros Hlt. assert (limit_reached st = true) as Ht; [|congruence].
        apply mono_limit_reached_iff. by exists N. }
      unfold listenersCount in *.
      rewrite (mono_registered_addListener _ _ _ Hwf Hadd), length_app. lia.
    + injection Hstep as <-. unfold listenersCount in *.
      rewrite mono_registered_removeListener.
      pose proof (length_filter_neq l (registered st)). lia.
Qed.

End MonoEmitterSequences.

(** ** removeListeners, removeListener *)

Lemma filter_neq_replicate (l : listener) (n : nat) :
  filter (λ x, x ≠ l) (replicate n l) = [].
Proof.
  induction n as [|n IH]; [done|]. simpl.
  rewrite filter_cons. by destruct (decide (l ≠ l)).
Qed.

Lemma filter_neq_idemp (l : listener) (xs : list listener) :
  filter (λ x, x ≠ l) (filter (λ x, x ≠ l) xs) = filter (λ x, x ≠ l) xs.
Proof. by apply list_filter_filter_l. Qed.

Lemma filter_neq_comm (l1 l2 : listener) (xs : list listener) :
  filter (λ x, x ≠ l1) (filter (λ x, x ≠ l2) xs)
  = filter (λ x, x ≠ l2) (filter (λ x, x ≠ l1) xs).
Proof. rewrite !list_filter_filter. apply list_filter_iff. intros x. tauto. Qed.

Lemma set_events_id (f : gmap key nat → gmap key nat)
    (st : EventEmitter.state) :
  f (EventEmitter.events st) = EventEmitter.events st →
  EventEmitter.set_events f st = st.
Proof. destruct st. unfold EventEmitter.set_events; simpl. by intros ->. Qed.

(** ** What every invocation keeps, a dispatch keeps *)

Section EventEmitterLoop.
Import EventEmitter EventEmitterExt.
Implicit Types (st : state) (ev : key) (x : listener).
Variable code : nat → body.
Variable args : list value.
Variable R : state → state → Prop.
Hypothesis R_refl : ∀ st, R st st.
Hypothesis R_trans : ∀ s1 s2 s3, R s1 s2 → R s2 s3 → R s1 s3.
Hypothesis R_call : ∀ x st, R st (call code x args st).1.




End EventEmitterLoop.

Section EventEmitterFlags.
Import EventEmitter EventEmitterExt.
Implicit Types (st : state) (ev : key) (x : listener).
Variable code : nat → body.



Lemma run_action_waits a st : waits (run_action a st).1 = waits st.
Proof.
  destruct a as [ev ls|ev l|ev|]; simpl; try done.
  by destruct (addListener_cases ev ls st) as [H|H]; rewrite H.
Qed.

Lemma run_actions_waits (calls : list action) : ∀ st,
  waits (run_actions calls st).1 = waits st.
Proof.
  induction calls as [|a calls IH]; intros st; simpl; [done|].
  pose proof (run_action_waits a st) as H1.
  destruct (run_action a st) as [st1 [e|[]]]; simpl in *; [done|].
  by rewrite IH.
Qed.





End EventEmitterFlags.

(** ** Listeners that leave the registry alone *)

Lemma filter_iff_in {A : Type} (P Q : A → Prop)
    `{!∀ x, Decision (P x), !∀ x, Decision (Q x)} (l : list A) :
  (∀ x, x ∈ l → (P x ↔ Q x)) → filter P l = filter Q l.
Proof.
  induction l as [|a l IH]; intros Hiff; [done|].
  rewrite !filter_cons.
  assert (filter P l = filter Q l) as ->.
  { apply IH. intros x Hx. apply Hiff. by right. }
  destruct (Hiff a ltac:(by left)) as [H1 H2].
  destruct (decide (P a)), (decide (Q a)); try done; tauto.
Qed.

Lemma filter_all_in {A : Type} (P : A → Prop) `{!∀ x, Decision (P x)}
    (l : list A) :
  (∀ x, x ∈ l → P x) → filter P l = l.
Proof.
  induction l as [|a l IH]; intros Hall; [done|].
  rewrite filter_cons_True by (apply Hall; by left).
  f_equal. apply IH. intros x Hx. apply Hall. by right.
Qed.

Section EventEmitterPure.
Import EventEmitter EventEmitterExt.
Implicit Types (st : state) (ev : key) (x : listener).
Variable code : nat → body.
Variable args : list value.
Hypothesis Hpure : pure_code code.

Lemma call_pure_Fn f st :
  call code (Fn f) args st =
    (set_trace (λ t, t ++ [(Fn f, args)]) st, returns (code f) args).
Proof.
  unfold call. rewrite (Hpure f). simpl.
  by destruct (returns (code f) args).
Qed.

(** The outcome of the loop of [map]: the results of the listeners in
    order when none throws; otherwise what the first one that throws has
    thrown, with the listeners up to that one invoked. *)
Lemma pure_map_loop_outcome a snapshot : ∀ n i st st' r,
  i + n = length snapshot →
  snapshot `prefix_of` array (heap st) a →
  map_loop code a args (seq i n) st = (st', r) →
  match r with
  | inr rs =>
      Forall2 (λ x v, result_of code x args = inr v) (drop i snapshot) rs
      ∧ trace st' = trace st ++ invocations args (drop i snapshot)
  | inl e =>
      ∃ pre x post,
        drop i snapshot = pre ++ x :: post
        ∧ Forall (λ y, ∃ v, result_of code y args = inr v) pre
        ∧ result_of code x args = inl e
        ∧ trace st' = trace st ++ invocations args (pre ++ [x])
  end.
Proof.
  induction n as [|n IH]; intros i st st' r Hlen Hpre Hloop.
  - simpl in Hloop. injection Hloop as <- <-.
    rewrite drop_ge by lia. split; [constructor|].
    unfold invocations. simpl. by rewrite app_nil_r.
  - destruct (lookup_lt_is_Some_2 snapshot i ltac:(lia)) as [y Hy].
    assert (Hay : array (heap st) a !! i = Some y).
    { destruct Hpre as [ys ->]. by apply lookup_app_l_Some. }
    rewrite (drop_S _ _ _ Hy).
    cbn [seq map_loop] in Hloop. rewrite Hay in Hloop.
    destruct (call_spec code y args st) as (Htr & Hd & _).
    destruct (call code y args st) as [st1 [e|v]] eqn:Hcall;
      simpl in Htr, Hd.
    + injection Hloop as <- <-.
      exists [], y, (drop (S i) snapshot). split_and!; [done|constructor| |done].
      destruct y as [f|p].
      * rewrite call_pure_Fn in Hcall. simpl. by injection Hcall as _ ->.
      * unfold call in Hcall. by injection Hcall.
    + assert (Hpre1 : snapshot `prefix_of` array (heap st1) a).
      { etrans; [exact Hpre|]. apply Hd. }
      pose proof (call_result code y args st st1 v Hcall) as Hres.
      destruct (map_loop code a args (seq (S i) n) st1) as [st2 r2] eqn:Hrest.
      pose proof (IH (S i) st1 st2 r2 ltac:(lia) Hpre1 Hrest) as HIH.
      destruct r2 as [e|rs2]; injection Hloop as <- <-.
      * destruct HIH as (pre & x & post & Hdrop & Hok & Hx & Htr2).
        exists (y :: pre), x, post. split_and!.
        -- by rewrite Hdrop.
        -- constructor; eauto.
        -- done.
        -- rewrite Htr2, Htr. unfold invocations. simpl.
           by rewrite <- app_assoc.
      * destruct HIH as [Hall Htr2]. split; [by constructor|].
        rewrite Htr2, Htr. unfold invocations. simpl.
        by rewrite <- app_assoc.
Qed.

Lemma pure_emitSync_outcome ev st st' r :
  emitSync code ev args st = (st', r) →
  match r with
  | inr rs =>
      Forall2 (λ x v, result_of code x args = inr v) (registered ev st) rs
      ∧ trace st' = trace st ++ invocations args (registered ev st)
  | inl e =>
      ∃ pre x post,
        registered ev st = pre ++ x :: post
        ∧ Forall (λ y, ∃ v, result_of code y args = inr v) pre
        ∧ result_of code x args = inl e
        ∧ trace st' = trace st ++ invocations args (pre ++ [x])
  end.
Proof.
  unfold emitSync, registered, Array_map.
  destruct (events st !! ev) as [a|].
  - intros Hloop.
    by apply (pure_map_loop_outcome a (array (heap st) a)
                (length (array (heap st) a)) 0 st st' r).
  - intros [= <- <-]. split; [constructor|].
    unfold invocations. simpl. by rewrite app_nil_r.
Qed.

(** The first listener that throws is the same however the list is cut. *)
Lemma first_thrower_unique (pre pre' post post' : list listener)
    x x' e e' :
  pre ++ x :: post = pre' ++ x' :: post' →
  Forall (λ y, ∃ v, result_of code y args = inr v) pre →
  Forall (λ y, ∃ v, result_of code y args = inr v) pre' →
  result_of code x args = inl e →
  result_of code x' args = inl e' →
  pre = pre' ∧ x = x' ∧ e = e'.
Proof.
  revert pre'. induction pre as [|y pre IH]; intros pre' Heq Hok Hok' Hx Hx'.
  - destruct pre' as [|y' pre']; simpl in Heq.
    + injection Heq as -> _. split_and!; [done|done|congruence].
    + injection Heq as -> _. inversion Hok' as [|? ? [v Hv] _]; subst.
      congruence.
  - destruct pre' as [|y' pre']; simpl in Heq.
    + injection Heq as <- _. inversion Hok as [|? ? [v Hv] _]; subst.
      congruence.
    + injection Heq as -> Heq. inversion Hok; inversion Hok'; subst.
      destruct (IH pre' Heq) as (-> & -> & ->); done.
Qed.

Lemma call_pure_callback q w st :
  wf st → waits st !! q = Some w →
  let st1 := (call code (WaitCallback q) args st).1 in
  wf st1
  ∧ waits st1 = <[q := Closure (event w) (resolve args (settlement w)) true]>
                  (waits st)
  ∧ registered (event w) st1
    = filter (λ y, y ≠ WaitCallback q) (registered (event w) st)
  ∧ ∀ ev', ev' ≠ event w → registered ev' st1 = registered ev' st.
Proof.
  intros Hwf Hw st1. unfold st1, call; simpl. unfold callback; simpl.
  rewrite Hw.
  set (st0 := set_trace (λ t, t ++ [(WaitCallback q, args)]) st).
  destruct (step_Unregister_registered (event w) (event w)
              (WaitCallback q) st0 Hwf) as [Hwf1 Hreg].
  rewrite decide_True in Hreg by done.
  split_and!; [exact Hwf1 | by rewrite removeListener_eq | exact Hreg |].
  intros ev' Hne.
  destruct (step_Unregister_registered ev' (event w)
              (WaitCallback q) st0 Hwf) as [_ Hreg'].
  rewrite decide_False in Hreg' by done. exact Hreg'.
Qed.

(** A dispatch that returns has taken the callbacks it invoked out of the
    list of the event, and has left the user listeners and the lists of
    the other events alone. *)
Lemma pure_map_loop_registry ev a snapshot : ∀ n i st st' rs,
  i + n = length snapshot →
  snapshot `prefix_of` array (heap st) a →
  wf st →
  (∀ q, WaitCallback q ∈ drop i snapshot →
        ∃ w, waits st !! q = Some w ∧ event w = ev) →
  map_loop code a args (seq i n) st = (st', inr rs) →
  registered ev st'
    = filter (λ y, is_user y ∨ y ∉ drop i snapshot) (registered ev st)
  ∧ ∀ ev', ev' ≠ ev → registered ev' st' = registered ev' st.
Proof.
  induction n as [|n IH]; intros i st st' rs Hlen Hpre Hwf Hcl Hloop.
  - simpl in Hloop. injection Hloop as <- <-. split; [|done].
    rewrite drop_ge by lia. symmetry. apply filter_all_in.
    intros y _. right. apply not_elem_of_nil.
  - destruct (lookup_lt_is_Some_2 snapshot i ltac:(lia)) as [y Hy].
    assert (Hay : array (heap st) a !! i = Some y).
    { destruct Hpre as [ys ->]. by apply lookup_app_l_Some. }
    rewrite (drop_S _ _ _ Hy) in Hcl |- *.
    cbn [seq map_loop] in Hloop. rewrite Hay in Hloop.
    destruct (call_spec code y args st) as (_ & Hd & _).
    destruct y as [f|q].
    + rewrite call_pure_Fn in Hloop, Hd. simpl in Hd.
      destruct (returns (code f) args) as [e|v]; [done|].
      set (st1 := set_trace (λ t, t ++ [(Fn f, args)]) st) in *.
      destruct (map_loop code a args (seq (S i) n) st1) as [st2 [e|rs2]] eqn:Hrest;
        [done|].
      injection Hloop as <- <-.
      destruct (IH (S i) st1 st2 rs2 ltac:(lia)) as [Hr Ho];
        [etrans; [exact Hpre|apply Hd] | exact Hwf
        | intros q Hq; apply Hcl; by right | exact Hrest |].
      split; [|exact Ho]. rewrite Hr. apply list_filter_iff. intros x.
      rewrite not_elem_of_cons. split.
      * intros [Hu|Hn]; [by left|].
        destruct (decide (x = Fn f)) as [->|Hne]; [by left | by right].
      * intros [Hu|[_ Hn]]; [by left | by right].
    + destruct (Hcl q ltac:(by left)) as (w & Hw & Hev).
      destruct (call_pure_callback q w st Hwf Hw) as (Hwf1 & Hws & Hreg & Hoth).
      destruct (call code (WaitCallback q) args st) as [st1 [e|v]] eqn:Hcall;
        [done|]. simpl in Hd, Hwf1, Hws, Hreg, Hoth. rewrite Hev in *.
      destruct (map_loop code a args (seq (S i) n) st1) as [st2 [e|rs2]] eqn:Hrest;
        [done|].
      injection Hloop as <- <-.
      assert (Hcl1 : ∀ q', WaitCallback q' ∈ drop (S i) snapshot →
                ∃ w', waits st1 !! q' = Some w' ∧ event w' = ev).
      { intros q' Hq'. destruct (Hcl q' ltac:(by right)) as (w' & Hw' & Hev').
        rewrite Hws. destruct (decide (q' = q)) as [->|Hne].
        - rewrite list_lookup_insert_eq by by eapply lookup_lt_Some.
          eexists. split; [done|]. simpl. congruence.
        - rewrite list_lookup_insert_ne by done. eauto. }
      destruct (IH (S i) st1 st2 rs2 ltac:(lia)) as [Hr Ho];
        [etrans; [exact Hpre|apply Hd] | exact Hwf1 | exact Hcl1
        | exact Hrest |].
      split.
      * rewrite Hr, Hreg, list_filter_filter. apply list_filter_iff.
        intros x. rewrite not_elem_of_cons. split.
        -- intros [[Hu|Hn] Hne]; [by left | by right].
        -- intros [Hu|[Hne Hn]].
           ++ split; [by left|]. intros ->. exact Hu.
           ++ split; [by right | done].
      * intros ev' Hne. rewrite (Ho ev' Hne). by apply Hoth.
Qed.

Lemma pure_emitSync_registry ev st st' rs :
  wf st →
  (∀ q, WaitCallback q ∈ registered ev st →
        ∃ w, waits st !! q = Some w ∧ event w = ev) →
  emitSync code ev args st = (st', inr rs) →
  registered ev st' = filter is_user (registered ev st)
  ∧ ∀ ev', ev' ≠ ev → registered ev' st' = registered ev' st.
Proof.
  intros Hwf Hcl Hsync.
  destruct (events st !! ev) as [a|] eqn:Ha.
  - assert (Hreg : registered ev st = array (heap st) a).
    { unfold registered. by rewrite Ha. }
    unfold emitSync, Array_map in Hsync. rewrite Ha in Hsync.
    destruct (pure_map_loop_registry ev a (array (heap st) a)
                (length (array (heap st) a)) 0 st st' rs) as [Hr Ho];
      try done.
    { simpl. by rewrite <- Hreg. }
    split; [|exact Ho]. rewrite Hr. simpl. rewrite <- Hreg.
    apply filter_iff_in. intros x Hx. tauto.
  - unfold emitSync in Hsync. rewrite Ha in Hsync.
    injection Hsync as <- <-. split; [|done].
    unfold registered. by rewrite Ha.
Qed.

End EventEmitterPure.

(** ** wait at the limit, once, iterator: EventEmitter *)

Section EventEmitterAsyncFacts.
Import EventEmitter EventEmitterExt.
Implicit Types (st : state) (ev : key) (x : listener).

(** A [wait] that [addListener] refuses: the promise is rejected at once,
    and nothing else has changed. *)
Lemma wait_refused ev timeout st :
  limit_reached ev st = true →
  wait ev timeout st =
    (set_waits (λ w, w ++ [Closure ev (Rejected LimitExceeded) false]) st,
     length (waits st)).
Proof.
  intros Hl. unfold wait.
  rewrite (addListener_throws ev [WaitCallback (length (waits st))]
             (set_waits (λ w, w ++ [Closure ev Pending false]) st) Hl).
  unfold set_waits; simpl. do 2 f_equal.
  rewrite <- (Nat.add_0_r (length (waits st))) at 1.
  by rewrite alter_app_r.
Qed.

Lemma wait_number ev timeout st : (wait ev timeout st).2 = length (waits st).
Proof.
  destruct (limit_reached ev st) eqn:Hl.
  - by rewrite wait_refused.
  - by destruct (wait_returns ev timeout st Hl) as (-> & _).
Qed.

Variable code : nat → body.

Lemma invoke_all_spec args ls : ∀ st st' r,
  invoke_all code ls args st = (st', r) →
  ∃ invoked,
    trace st' = trace st ++ invocations args invoked
    ∧ invoked `prefix_of` ls
    ∧ (∀ rs, r = inr rs →
         invoked = ls
         ∧ Forall2 (λ x v, result_of code x args = inr v) ls rs)
    ∧ dispatch_rel args st st'.
Proof.
  induction ls as [|x ls IH]; intros st st' r Hrun; simpl in Hrun.
  - injection Hrun as <- <-. exists []. split_and!.
    + unfold invocations. simpl. by rewrite app_nil_r.
    + done.
    + intros rs [= <-]. by split; [|constructor].
    + apply dispatch_rel_refl.
  - destruct (call_spec code x args st) as (Htr & Hd & _).
    destruct (call code x args st) as [st1 [e|v]] eqn:Hcall; simpl in Htr, Hd.
    + injection Hrun as <- <-. exists [x]. split_and!.
      * done.
      * apply prefix_cons, prefix_nil.
      * intros rs [=].
      * done.
    + destruct (invoke_all code ls args st1) as [st2 r2] eqn:Hrest.
      destruct (IH st1 st2 r2 Hrest) as (inv & Htr2 & Hpre & Hall & Hd2).
      exists (x :: inv).
      assert (st' = st2 ∧ r = match r2 with
                              | inl e => inl e
                              | inr rs => inr (v :: rs)
                              end) as [-> ->].
      { destruct r2; by injection Hrun as <- <-. }
      split_and!.
      * rewrite Htr2, Htr. unfold invocations. simpl. by rewrite <- app_assoc.
      * by apply prefix_cons.
      * intros rs Hrs. destruct r2 as [e|rs2]; [done|].
        injection Hrs as <-. destruct (Hall rs2 eq_refl) as [-> HF].
        split; [done|]. constructor; [|done].
        by eapply call_result.
      * exact (dispatch_rel_trans _ _ _ _ Hd Hd2).
Qed.


Lemma once_resume_rejected fr st e :
  promise_of (awaited_wait fr) st = Some (Rejected e) →
  once_resume code fr st = (st, Some (Rejected e)).
Proof. intros H. unfold once_resume. by rewrite H. Qed.

Lemma iterator_resume_pending g p st :
  iter_phase g = Awaiting p → promise_of p st = Some Pending →
  iterator_resume g st = (st, g, []).
Proof. intros Hg H. unfold iterator_resume. by rewrite Hg, H. Qed.

Lemma iterator_resume_fulfilled g p st args :
  iter_phase g = Awaiting p → promise_of p st = Some (Fulfilled args) →
  iterator_resume g st =
    match queued g with
    | 0 => (st, Generator (iter_event g) Suspended 0, [Yielded args])
    | S n =>
        ((wait (iter_event g) None st).1,
         Generator (iter_event g) (Awaiting (length (waits st))) n,
         [Yielded args])
    end.
Proof.
  intros Hg H. unfold iterator_resume. rewrite Hg, H.
  destruct (queued g); [done|]. by rewrite wait_number.
Qed.

Lemma iterator_resume_rejected g p st e :
  iter_phase g = Awaiting p → promise_of p st = Some (Rejected e) →
  iterator_resume g st =
    (st, Generator (iter_event g) Completed 0,
     Thrown_out e :: replicate (queued g) Done).
Proof. intros Hg H. unfold iterator_resume. by rewrite Hg, H. Qed.

End EventEmitterAsyncFacts.

(** ** The same for MonoEmitter *)

Section MonoEmitterLoop.
Import MonoEmitter MonoEmitterExt.
Implicit Types (st : state) (x : listener).
Variable code : nat → body.
Variable args : list value.
Variable R : state → state → Prop.
Hypothesis R_refl : ∀ st, R st st.
Hypothesis R_trans : ∀ s1 s2 s3, R s1 s2 → R s2 s3 → R s1 s3.
Hypothesis R_call : ∀ x st, R st (call code x args st).1.




End MonoEmitterLoop.

Section MonoEmitterFlags.
Import MonoEmitter MonoEmitterExt.
Implicit Types (st : state) (x : listener).
Variable code : nat → body.



Lemma mono_run_action_waits a st : waits (run_action a st).1 = waits st.
Proof.
  destruct a as [ls|l|]; simpl; try done.
  by destruct (mono_addListener_cases ls st) as [H|H]; rewrite H.
Qed.

Lemma mono_run_actions_waits (calls : list action) : ∀ st,
  waits (run_actions calls st).1 = waits st.
Proof.
  induction calls as [|a calls IH]; intros st; simpl; [done|].
  pose proof (mono_run_action_waits a st) as H1.
  destruct (run_action a st) as [st1 [e|[]]]; simpl in *; [done|].
  by rewrite IH.
Qed.





End MonoEmitterFlags.

Section MonoEmitterPure.
Import MonoEmitter MonoEmitterExt.
Implicit Types (st : state) (x : listener).
Variable code : nat → body.
Variable args : list value.
Hypothesis Hpure : pure_code code.

Lemma mono_call_pure_Fn f st :
  call code (Fn f) args st =
    (set_trace (λ t, t ++ [(Fn f, args)]) st, returns (code f) args).
Proof.
  unfold call. rewrite (Hpure f). simpl.
  by destruct (returns (code f) args).
Qed.

Lemma mono_pure_map_loop_outcome a snapshot : ∀ n i st st' r,
  i + n = length snapshot →
  snapshot `prefix_of` array (heap st) a →
  map_loop code a args (seq i n) st = (st', r) →
  match r with
  | inr rs =>
      Forall2 (λ x v, result_of code x args = inr v) (drop i snapshot) rs
      ∧ trace st' = trace st ++ invocations args (drop i snapshot)
  | inl e =>
      ∃ pre x post,
        drop i snapshot = pre ++ x :: post
        ∧ Forall (λ y, ∃ v, result_of code y args = inr v) pre
        ∧ result_of code x args = inl e
        ∧ trace st' = trace st ++ invocations args (pre ++ [x])
  end.
Proof.
  induction n as [|n IH]; intros i st st' r Hlen Hpre Hloop.
  - simpl in Hloop. injection Hloop as <- <-.
    rewrite drop_ge by lia. split; [constructor|].
    unfold invocations. simpl. by rewrite app_nil_r.
  - destruct (lookup_lt_is_Some_2 snapshot i ltac:(lia)) as [y Hy].
    assert (Hay : array (heap st) a !! i = Some y).
    { destruct Hpre as [ys ->]. by apply lookup_app_l_Some. }
    rewrite (drop_S _ _ _ Hy).
    cbn [seq map_loop] in Hloop. rewrite Hay in Hloop.
    destruct (mono_call_spec code y args st) as (Htr & Hd & _).
    destruct (call code y args st) as [st1 [e|v]] eqn:Hcall;
      simpl in Htr, Hd.
    + injection Hloop as <- <-.
      exists [], y, (drop (S i) snapshot). split_and!; [done|constructor| |done].
      destruct y as [f|p].
      * rewrite mono_call_pure_Fn in Hcall. simpl. by injection Hcall as _ ->.
      * unfold call in Hcall. by injection Hcall.
    + assert (Hpre1 : snapshot `prefix_of` array (heap st1) a).
      { etrans; [exact Hpre|]. apply Hd. }
      pose proof (mono_call_result code y args st st1 v Hcall) as Hres.
      destruct (map_loop code a args (seq (S i) n) st1) as [st2 r2] eqn:Hrest.
      pose proof (IH (S i) st1 st2 r2 ltac:(lia) Hpre1 Hrest) as HIH.
      destruct r2 as [e|rs2]; injection Hloop as <- <-.
      * destruct HIH as (pre & x & post & Hdrop & Hok & Hx & Htr2).
        exists (y :: pre), x, post. split_and!.
        -- by rewrite Hdrop.
        -- constructor; eauto.
        -- done.
        -- rewrite Htr2, Htr. unfold invocations. simpl.
           by rewrite <- app_assoc.
      * destruct HIH as [Hall Htr2]. split; [by constructor|].
        rewrite Htr2, Htr. unfold invocations. simpl.
        by rewrite <- app_assoc.
Qed.

Lemma mono_pure_emitSync_outcome st st' r :
  emitSync code args st = (st', r) →
  match r with
  | inr rs =>
      Forall2 (λ x v, result_of code x args = inr v) (registered st) rs
      ∧ trace st' = trace st ++ invocations args (registered st)
  | inl e =>
      ∃ pre x post,
        registered st = pre ++ x :: post
        ∧ Forall (λ y, ∃ v, result_of code y args = inr v) pre
        ∧ result_of code x args = inl e
        ∧ trace st' = trace st ++ invocations args (pre ++ [x])
  end.
Proof.
  unfold emitSync, registered, Array_map. intros Hloop.
  by apply (mono_pure_map_loop_outcome (listeners st)
              (array (heap st) (listeners st))
              (length (array (heap st) (listeners st))) 0 st st' r).
Qed.

Lemma mono_first_thrower_unique (pre pre' post post' : list listener)
    x x' e e' :
  pre ++ x :: post = pre' ++ x' :: post' →
  Forall (λ y, ∃ v, result_of code y args = inr v) pre →
  Forall (λ y, ∃ v, result_of code y args = inr v) pre' →
  result_of code x args = inl e →
  result_of code x' args = inl e' →
  pre = pre' ∧ x = x' ∧ e = e'.
Proof.
  revert pre'. induction pre as [|y pre IH]; intros pre' Heq Hok Hok' Hx Hx'.
  - destruct pre' as [|y' pre']; simpl in Heq.
    + injection Heq as -> _. split_and!; [done|done|congruence].
    + injection Heq as -> _. inversion Hok' as [|? ? [v Hv] _]; subst.
      congruence.
  - destruct pre' as [|y' pre']; simpl in Heq.
    + injection Heq as <- _. inversion Hok as [|? ? [v Hv] _]; subst.
      congruence.
    + injection Heq as -> Heq. inversion Hok; inversion Hok'; subst.
      destruct (IH pre' Heq) as (-> & -> & ->); done.
Qed.

Lemma mono_call_pure_callback q w st :
  waits st !! q = Some w →
  let st1 := (call code (WaitCallback q) args st).1 in
  waits st1 = <[q := Closure (resolve args (settlement w)) true]> (waits st)
  ∧ registered st1 = filter (λ y, y ≠ WaitCallback q) (registered st).
Proof.
  intros Hw st1. unfold st1, call; simpl. unfold callback; simpl.
  rewrite Hw. split; [done|].
  exact (mono_registered_assign _ _).
Qed.

Lemma mono_pure_map_loop_registry a snapshot : ∀ n i st st' rs,
  i + n = length snapshot →
  snapshot `prefix_of` array (heap st) a →
  (∀ q, WaitCallback q ∈ drop i snapshot → is_Some (waits st !! q)) →
  map_loop code a args (seq i n) st = (st', inr rs) →
  registered st'
    = filter (λ y, is_user y ∨ y ∉ drop i snapshot) (registered st).
Proof.
  induction n as [|n IH]; intros i st st' rs Hlen Hpre Hcl Hloop.
  - simpl in Hloop. injection Hloop as <- <-.
    rewrite drop_ge by lia. symmetry. apply filter_all_in.
    intros y _. right. apply not_elem_of_nil.
  - destruct (lookup_lt_is_Some_2 snapshot i ltac:(lia)) as [y Hy].
    assert (Hay : array (heap st) a !! i = Some y).
    { destruct Hpre as [ys ->]. by apply lookup_app_l_Some. }
    rewrite (drop_S _ _ _ Hy) in Hcl |- *.
    cbn [seq map_loop] in Hloop. rewrite Hay in Hloop.
    destruct (mono_call_spec code y args st) as (_ & Hd & _).
    destruct y as [f|q].
    + rewrite mono_call_pure_Fn in Hloop, Hd. simpl in Hd.
      destruct (returns (code f) args) as [e|v]; [done|].
      set (st1 := set_trace (λ t, t ++ [(Fn f, args)]) st) in *.
      destruct (map_loop code a args (seq (S i) n) st1) as [st2 [e|rs2]] eqn:Hrest;
        [done|].
      injection Hloop as <- <-.
      rewrite (IH (S i) st1 st2 rs2 ltac:(lia));
        [|etrans; [exact Hpre|apply Hd]
         |intros q Hq; apply Hcl; by right | exact Hrest].
      apply list_filter_iff. intros x.
      rewrite not_elem_of_cons. split.
      * intros [Hu|Hn]; [by left|].
        destruct (decide (x = Fn f)) as [->|Hne]; [by left | by right].
      * intros [Hu|[_ Hn]]; [by left | by right].
    + destruct (Hcl q ltac:(by left)) as [w Hw].
      destruct (mono_call_pure_callback q w st Hw) as (Hws & Hreg).
      destruct (call code (WaitCallback q) args st) as [st1 [e|v]] eqn:Hcall;
        [done|]. simpl in Hd, Hws, Hreg.
      destruct (map_loop code a args (seq (S i) n) st1) as [st2 [e|rs2]] eqn:Hrest;
        [done|].
      injection Hloop as <- <-.
      assert (Hcl1 : ∀ q', WaitCallback q' ∈ drop (S i) snapshot →
                is_Some (waits st1 !! q')).
      { intros q' Hq'. destruct (Hcl q' ltac:(by right)) as [w' Hw'].
        rewrite Hws. destruct (decide (q' = q)) as [->|Hne].
        - rewrite list_lookup_insert_eq by by eapply lookup_lt_Some. eauto.
        - rewrite list_lookup_insert_ne by done. eauto. }
      rewrite (IH (S i) st1 st2 rs2 ltac:(lia));
        [|etrans; [exact Hpre|apply Hd] | exact Hcl1 | exact Hrest].
      rewrite Hreg, list_filter_filter. apply list_filter_iff.
      intros x. rewrite not_elem_of_cons. split.
      * intros [[Hu|Hn] Hne]; [by left | by right].
      * intros [Hu|[Hne Hn]].
        -- split; [by left|]. intros ->. exact Hu.
        -- split; [by right | done].
Qed.

Lemma mono_pure_emitSync_registry st st' rs :
  (∀ q, WaitCallback q ∈ registered st → is_Some (waits st !! q)) →
  emitSync code args st = (st', inr rs) →
  registered st' = filter is_user (registered st).
Proof.
  intros Hcl Hsync. unfold emitSync, Array_map in Hsync.
  rewrite (mono_pure_map_loop_registry (listeners st)
             (array (heap st) (listeners st))
             (length (array (heap st) (listeners st))) 0 st st' rs);
    [|done|done|exact Hcl|exact Hsync].
  simpl. apply filter_iff_in. intros x Hx. unfold registered in Hx. tauto.
Qed.

End MonoEmitterPure.

Section MonoEmitterAsyncFacts.
Import MonoEmitter MonoEmitterExt.
Implicit Types (st : state) (x : listener).

Lemma mono_wait_number timeout st : (wait timeout st).2 = length (waits st).
Proof.
  unfold wait. by destruct timeout as [t|]; [destruct (truthy t)|].
Qed.

Variable code : nat → body.

Lemma mono_invoke_all_spec args ls : ∀ st st' r,
  invoke_all code ls args st = (st', r) →
  ∃ invoked,
    trace st' = trace st ++ invocations args invoked
    ∧ invoked `prefix_of` ls
    ∧ (∀ rs, r = inr rs →
         invoked = ls
         ∧ Forall2 (λ x v, result_of code x args = inr v) ls rs)
    ∧ dispatch_rel args st st'.
Proof.
  induction ls as [|x ls IH]; intros st st' r Hrun; simpl in Hrun.
  - injection Hrun as <- <-. exists []. split_and!.
    + unfold invocations. simpl. by rewrite app_nil_r.
    + done.
    + intros rs [= <-]. by split; [|constructor].
    + apply mono_dispatch_rel_refl.
  - destruct (mono_call_spec code x args st) as (Htr & Hd & _).
    destruct (call code x args st) as [st1 [e|v]] eqn:Hcall; simpl in Htr, Hd.
    + injection Hrun as <- <-. exists [x]. split_and!.
      * done.
      * apply prefix_cons, prefix_nil.
      * intros rs [=].
      * done.
    + destruct (invoke_all code ls args st1) as [st2 r2] eqn:Hrest.
      destruct (IH st1 st2 r2 Hrest) as (inv & Htr2 & Hpre & Hall & Hd2).
      exists (x :: inv).
      assert (st' = st2 ∧ r = match r2 with
                              | inl e => inl e
                              | inr rs => inr (v :: rs)
                              end) as [-> ->].
      { destruct r2; by injection Hrun as <- <-. }
      split_and!.
      * rewrite Htr2, Htr. unfold invocations. simpl. by rewrite <- app_assoc.
      * by apply prefix_cons.
      * intros rs Hrs. destruct r2 as [e|rs2]; [done|].
        injection Hrs as <-. destruct (Hall rs2 eq_refl) as [-> HF].
        split; [done|]. constructor; [|done].
        by eapply mono_call_result.
      * exact (mono_dispatch_rel_trans _ _ _ _ Hd Hd2).
Qed.




End MonoEmitterAsyncFacts.

(** ** What settles the promise of a wait *)

Section EventEmitterUntouched.
Import EventEmitter EventEmitterExt.
Implicit Types (st : state) (ev : key) (x : listener).
Variable code : nat → body.
Variable args : list value.
Variable p : nat.

Lemma call_other_waits x st :
  x ≠ WaitCallback p → waits (call code x args st).1 !! p = waits st !! p.
Proof.
  intros Hne. unfold call. destruct x as [f|q].
  - pose proof (run_actions_waits (acts (code f))
                  (set_trace (λ t, t ++ [(Fn f, args)]) st)) as H.
    by destruct (run_actions _ _) as [st1 [e|[]]]; simpl in *; rewrite H.
  - simpl. unfold callback. simpl. destruct (waits st !! q) as [w|]; [|done].
    rewrite removeListener_eq. simpl.
    rewrite list_lookup_insert_ne; [done|congruence].
Qed.

Lemma map_loop_other_waits a snapshot : ∀ n i st st' r,
  i + n = length snapshot →
  snapshot `prefix_of` array (heap st) a →
  WaitCallback p ∉ drop i snapshot →
  map_loop code a args (seq i n) st = (st', r) →
  waits st' !! p = waits st !! p.
Proof.
  induction n as [|n IH]; intros i st st' r Hlen Hpre Hnot Hloop.
  - simpl in Hloop. by injection Hloop as <- <-.
  - destruct (lookup_lt_is_Some_2 snapshot i ltac:(lia)) as [y Hy].
    assert (Hay : array (heap st) a !! i = Some y).
    { destruct Hpre as [ys ->]. by apply lookup_app_l_Some. }
    rewrite (drop_S _ _ _ Hy) in Hnot. apply not_elem_of_cons in Hnot as [Hy' Hnot].
    cbn [seq map_loop] in Hloop. rewrite Hay in Hloop.
    destruct (call_spec code y args st) as (_ & Hd & _).
    pose proof (call_other_waits y st ltac:(congruence)) as Hw.
    destruct (call code y args st) as [st1 [e|v]] eqn:Hcall; simpl in Hd, Hw.
    + by injection Hloop as <- <-.
    + destruct (map_loop code a args (seq (S i) n) st1) as [st2 r2] eqn:Hrest.
      assert (st' = st2) as ->.
      { destruct r2; by injection Hloop as <- _. }
      rewrite <- Hw. apply (IH (S i) st1 st2 r2); [lia| |done|done].
      etrans; [exact Hpre|apply Hd].
Qed.

Lemma emitSync_other_waits ev st :
  WaitCallback p ∉ registered ev st →
  waits (emitSync code ev args st).1 !! p = waits st !! p.
Proof.
  unfold emitSync, registered, Array_map.
  destruct (events st !! ev) as [a|]; [|done].
  intros Hnot.
  destruct (map_loop code a args _ st) as [st' r] eqn:Hloop. simpl.
  by rewrite (map_loop_other_waits a (array (heap st) a)
                (length (array (heap st) a)) 0 st st' r).
Qed.

End EventEmitterUntouched.

Section MonoEmitterUntouched.
Import MonoEmitter MonoEmitterExt.
Implicit Types (st : state) (x : listener).
Variable code : nat → body.
Variable args : list value.
Variable p : nat.

Lemma mono_call_other_waits x st :
  x ≠ WaitCallback p → waits (call code x args st).1 !! p = waits st !! p.
Proof.
  intros Hne. unfold call. destruct x as [f|q].
  - pose proof (mono_run_actions_waits (acts (code f))
                  (set_trace (λ t, t ++ [(Fn f, args)]) st)) as H.
    by destruct (run_actions _ _) as [st1 [e|[]]]; simpl in *; rewrite H.
  - simpl. unfold callback. simpl. destruct (waits st !! q) as [w|]; [|done].
    simpl. rewrite list_lookup_insert_ne; [done|congruence].
Qed.

Lemma mono_map_loop_other_waits a snapshot : ∀ n i st st' r,
  i + n = length snapshot →
  snapshot `prefix_of` array (heap st) a →
  WaitCallback p ∉ drop i snapshot →
  map_loop code a args (seq i n) st = (st', r) →
  waits st' !! p = waits st !! p.
Proof.
  induction n as [|n IH]; intros i st st' r Hlen Hpre Hnot Hloop.
  - simpl in Hloop. by injection Hloop as <- <-.
  - destruct (lookup_lt_is_Some_2 snapshot i ltac:(lia)) as [y Hy].
    assert (Hay : array (heap st) a !! i = Some y).
    { destruct Hpre as [ys ->]. by apply lookup_app_l_Some. }
    rewrite (drop_S _ _ _ Hy) in Hnot. apply not_elem_of_cons in Hnot as [Hy' Hnot].
    cbn [seq map_loop] in Hloop. rewrite Hay in Hloop.
    destruct (mono_call_spec code y args st) as (_ & Hd & _).
    pose proof (mono_call_other_waits y st ltac:(congruence)) as Hw.
    destruct (call code y args st) as [st1 [e|v]] eqn:Hcall; simpl in Hd, Hw.
    + by injection Hloop as <- <-.
    + destruct (map_loop code a args (seq (S i) n) st1) as [st2 r2] eqn:Hrest.
      assert (st' = st2) as ->.
      { destruct r2; by injection Hloop as <- _. }
      rewrite <- Hw. apply (IH (S i) st1 st2 r2); [lia| |done|done].
      etrans; [exact Hpre|apply Hd].
Qed.

Lemma mono_emitSync_other_waits st :
  WaitCallback p ∉ registered st →
  waits (emitSync code args st).1 !! p = waits st !! p.
Proof.
  unfold emitSync, registered, Array_map.
  intros Hnot.
  destruct (map_loop code (listeners st) args _ st) as [st' r] eqn:Hloop. simpl.
  by rewrite (mono_map_loop_other_waits (listeners st)
                (array (heap st) (listeners st))
                (length (array (heap st) (listeners st))) 0 st st' r).
Qed.

End MonoEmitterUntouched.

(** ** The limits *)

Section EventEmitterLimits.
Import EventEmitter EventEmitterExt.
Implicit Types (st : state) (ev : key).

Lemma wait_maxListeners ev timeout st :
  maxListeners (wait ev timeout st).1 = maxListeners st.
Proof.
  unfold wait.
  destruct (addListener_cases ev [WaitCallback (length (waits st))]
              (set_waits (λ w, w ++ [Closure ev Pending false]) st)) as [H|H];
    rewrite H; [done|].
  by destruct timeout as [t|]; [destruct (truthy t)|].
Qed.

Lemma run_timer_maxListeners q st :
  maxListeners (run_timer q st) = maxListeners st.
Proof.
  unfold run_timer, timeout_callback. destruct (bool_decide _); [|done].
  simpl. by destruct (waits st !! q) as [w|]; [destruct (fullfilled w)|].
Qed.

Lemma emitSync_maxListeners code ev args st :
  maxListeners (emitSync code ev args st).1 = maxListeners st.
Proof.
  destruct (emitSync code ev args st) as [st' r] eqn:Hsync.
  by destruct (emitSync_spec _ _ _ _ _ _ Hsync)
    as (_ & _ & _ & _ & (_ & _ & H & _) & _).
Qed.

Lemma once_resume_maxListeners code fr st :
  maxListeners (once_resume code fr st).1 = maxListeners st.
Proof.
  unfold once_resume.
  destruct (promise_of (awaited_wait fr) st) as [[|args|e]|]; try done.
  destruct (invoke_all code (once_listeners fr) args st) as [st1 r] eqn:Hinv.
  destruct (invoke_all_spec code args _ _ _ _ Hinv)
    as (_ & _ & _ & _ & (_ & _ & H & _)).
  by destruct r.
Qed.

Lemma iterator_maxListeners g st :
  maxListeners (next g st).1.1 = maxListeners st
  ∧ maxListeners (iterator_resume g st).1.1 = maxListeners st.
Proof.
  unfold next, iterator_resume. split.
  - destruct (iter_phase g); simpl; [apply wait_maxListeners|done|done].
  - destruct (iter_phase g) as [|p|]; try done.
    destruct (promise_of p st) as [[|args|e]|]; try done.
    destruct (queued g); simpl; [done|apply wait_maxListeners].
Qed.

End EventEmitterLimits.

Section MonoEmitterLimits.
Import MonoEmitter MonoEmitterExt.
Implicit Types (st : state).

Lemma mono_wait_maxListenersCount timeout st :
  maxListenersCount (wait timeout st).1 = maxListenersCount st.
Proof. unfold wait. by destruct timeout as [t|]; [destruct (truthy t)|]. Qed.

Lemma mono_run_timer_maxListenersCount q st :
  maxListenersCount (run_timer q st) = maxListenersCount st.
Proof.
  unfold run_timer, timeout_callback. destruct (bool_decide _); [|done].
  simpl. by destruct (waits st !! q) as [w|]; [destruct (fullfilled w)|].
Qed.

Lemma mono_emitSync_maxListenersCount code args st :
  maxListenersCount (emitSync code args st).1 = maxListenersCount st.
Proof.
  destruct (emitSync code args st) as [st' r] eqn:Hsync.
  by destruct (mono_emitSync_spec _ _ _ _ _ Hsync)
    as (_ & _ & _ & _ & (_ & _ & H & _) & _).
Qed.

Lemma mono_once_resume_maxListenersCount code fr st :
  maxListenersCount (once_resume code fr st).1 = maxListenersCount st.
Proof.
  unfold once_resume.
  destruct (promise_of (awaited_wait fr) st) as [[|args|e]|]; try done.
  destruct (invoke_all code (once_listeners fr) args st) as [st1 r] eqn:Hinv.
  destruct (mono_invoke_all_spec code args _ _ _ _ Hinv)
    as (_ & _ & _ & _ & (_ & _ & H & _)).
  by destruct r.
Qed.

Lemma mono_iterator_maxListenersCount g st :
  maxListenersCount (next g st).1.1 = maxListenersCount st
  ∧ maxListenersCount (iterator_resume g st).1.1 = maxListenersCount st.
Proof.
  unfold next, iterator_resume. split.
  - destruct (iter_phase g); [|done|done].
    apply (mono_wait_maxListenersCount None st).
  - destruct (iter_phase g) as [|p|]; try done.
    destruct (promise_of p st) as [[|args|e]|]; try done.
    destruct (queued g); [done|].
    apply (mono_wait_maxListenersCount None st).
Qed.

End MonoEmitterLimits.


(** ** A dispatch is the listeners of the list it found, called in order *)

Section EventEmitterInOrder.
Import EventEmitter EventEmitterExt.
Implicit Types (st : state) (ev : key) (x : listener).

Lemma map_loop_with code a args ks : ∀ st,
  map_loop code a args ks st
  = EventEmitterProg.map_loop (call code) a args ks st.
Proof.
  induction ks as [|k ks IH]; intros st; simpl; [done|].
  destruct (array (heap st) a !! k) as [x|].
  - destruct (call code x args st) as [st1 [e|r]]; [done|]. by rewrite IH.
  - by rewrite IH.
Qed.

Lemma invoke_all_with code ls args : ∀ st,
  invoke_all code ls args st
  = EventEmitterProg.invoke_all_with (call code) ls args st.
Proof.
  induction ls as [|x ls IH]; intros st; simpl; [done|].
  destruct (call code x args st) as [st1 [e|r]]; [done|]. by rewrite IH.
Qed.

(** As long as calling a listener only lets the arrays grow, the loop of
    [map] over the array is the listeners found in it at the start, called
    in order. *)
Lemma map_loop_snapshot (inv : listener → list value → M ret) a args snapshot :
  (∀ x st, heap_grows (heap st) (heap (inv x args st).1)) →
  ∀ n i st,
    i + n = length snapshot →
    snapshot `prefix_of` array (heap st) a →
    EventEmitterProg.map_loop inv a args (seq i n) st
    = EventEmitterProg.invoke_all_with inv (drop i snapshot) args st.
Proof.
  intros Hinv. induction n as [|n IH]; intros i st Hlen Hpre.
  - by rewrite drop_ge by lia.
  - destruct (lookup_lt_is_Some_2 snapshot i ltac:(lia)) as [y Hy].
    assert (Hay : array (heap st) a !! i = Some y).
    { destruct Hpre as [ys ->]. by apply lookup_app_l_Some. }
    rewrite (drop_S _ _ _ Hy).
    cbn [seq EventEmitterProg.map_loop EventEmitterProg.invoke_all_with].
    rewrite Hay. pose proof (Hinv y st) as Hg.
    destruct (inv y args st) as [st1 [e|r]]; [done|]. simpl in Hg.
    rewrite (IH (S i) st1); [done|lia|].
    etrans; [exact Hpre|apply Hg].
Qed.

Lemma emitSync_with_snapshot (inv : listener → list value → M ret) ev args st :
  (∀ x st, heap_grows (heap st) (heap (inv x args st).1)) →
  EventEmitterProg.emitSync_with inv ev args st
  = EventEmitterProg.invoke_all_with inv (registered ev st) args st.
Proof.
  intros Hinv. unfold EventEmitterProg.emitSync_with, registered,
    EventEmitterProg.Array_map.
  destruct (events st !! ev) as [a|]; [|done].
  by rewrite (map_loop_snapshot inv a args (array (heap st) a) Hinv
                (length (array (heap st) a)) 0 st).
Qed.

Lemma emitSync_invoke_all code ev args st :
  emitSync code ev args st = invoke_all code (registered ev st) args st.
Proof.
  rewrite invoke_all_with.
  rewrite <- (emitSync_with_snapshot (call code) ev args st).
  - unfold emitSync, EventEmitterProg.emitSync_with, Array_map,
      EventEmitterProg.Array_map.
    destruct (events st !! ev) as [a|]; [|done]. apply map_loop_with.
  - intros x s. by destruct (call_spec code x args s) as (_ & (Hg & _) & _).
Qed.


Lemma invoke_all_runs_in_order code args ls : ∀ st,
  runs_in_order code args ls st (invoke_all code ls args st).
Proof.
  unfold runs_in_order.
  induction ls as [|x ls IH]; intros st; simpl.
  - split; [|constructor]. unfold invocations. simpl. by rewrite app_nil_r.
  - destruct (call_spec code x args st) as (Htr & _).
    destruct (call code x args st) as [st1 [e|r]] eqn:Hcall; simpl in Htr.
    + simpl. exists [], x, ls, st. split_and!; [done| |done|done].
      unfold invocations. simpl. by rewrite app_nil_r.
    + pose proof (call_result code x args st st1 r Hcall) as Hres.
      specialize (IH st1).
      destruct (invoke_all code ls args st1) as [st2 [e|rs]]; simpl in *.
      * destruct IH as (pre & y & post & sa & -> & Hsa & Hy & Htr2).
        exists (x :: pre), y, post, sa. split_and!; [done| |done|].
        -- rewrite Hsa, Htr. unfold invocations. simpl. by rewrite <- app_assoc.
        -- rewrite Htr2, Htr. unfold invocations. simpl. by rewrite <- app_assoc.
      * destruct IH as [Htr2 Hall]. split; [|by constructor].
        rewrite Htr2, Htr. unfold invocations. simpl. by rewrite <- app_assoc.
Qed.

Lemma emitSync_runs_in_order code ev args st :
  runs_in_order code args (registered ev st) st (emitSync code ev args st).
Proof. rewrite emitSync_invoke_all. apply invoke_all_runs_in_order. Qed.


End EventEmitterInOrder.

Section MonoEmitterInOrder.
Import MonoEmitter MonoEmitterExt.
Implicit Types (st : state) (x : listener).

Lemma mono_map_loop_with code a args ks : ∀ st,
  map_loop code a args ks st
  = MonoEmitterProg.map_loop (call code) a args ks st.
Proof.
  induction ks as [|k ks IH]; intros st; simpl; [done|].
  destruct (array (heap st) a !! k) as [x|].
  - destruct (call code x args st) as [st1 [e|r]]; [done|]. by rewrite IH.
  - by rewrite IH.
Qed.

Lemma mono_invoke_all_with code ls args : ∀ st,
  invoke_all code ls args st
  = MonoEmitterProg.invoke_all_with (call code) ls args st.
Proof.
  induction ls as [|x ls IH]; intros st; simpl; [done|].
  destruct (call code x args st) as [st1 [e|r]]; [done|]. by rewrite IH.
Qed.

Lemma mono_map_loop_snapshot (inv : listener → list value → M ret)
    a args snapshot :
  (∀ x st, heap_grows (heap st) (heap (inv x args st).1)) →
  ∀ n i st,
    i + n = length snapshot →
    snapshot `prefix_of` array (heap st) a →
    MonoEmitterProg.map_loop inv a args (seq i n) st
    = MonoEmitterProg.invoke_all_with inv (drop i snapshot) args st.
Proof.
  intros Hinv. induction n as [|n IH]; intros i st Hlen Hpre.
  - by rewrite drop_ge by lia.
  - destruct (lookup_lt_is_Some_2 snapshot i ltac:(lia)) as [y Hy].
    assert (Hay : array (heap st) a !! i = Some y).
    { destruct Hpre as [ys ->]. by apply lookup_app_l_Some. }
    rewrite (drop_S _ _ _ Hy).
    cbn [seq MonoEmitterProg.map_loop MonoEmitterProg.invoke_all_with].
    rewrite Hay. pose proof (Hinv y st) as Hg.
    destruct (inv y args st) as [st1 [e|r]]; [done|]. simpl in Hg.
    rewrite (IH (S i) st1); [done|lia|].
    etrans; [exact Hpre|apply Hg].
Qed.

Lemma mono_emitSync_with_snapshot (inv : listener → list value → M ret)
    args st :
  (∀ x st, heap_grows (heap st) (heap (inv x args st).1)) →
  MonoEmitterProg.emitSync_with inv args st
  = MonoEmitterProg.invoke_all_with inv (registered st) args st.
Proof.
  intros Hinv. unfold MonoEmitterProg.emitSync_with, registered,
    MonoEmitterProg.Array_map.
  by rewrite (mono_map_loop_snapshot inv (listeners st) args
                (array (heap st) (listeners st)) Hinv
                (length (array (heap st) (listeners st))) 0 st).
Qed.

Lemma mono_emitSync_invoke_all code args st :
  emitSync code args st = invoke_all code (registered st) args st.
Proof.
  rewrite mono_invoke_all_with.
  rewrite <- (mono_emitSync_with_snapshot (call code) args st).
  - unfold emitSync, MonoEmitterProg.emitSync_with, Array_map,
      MonoEmitterProg.Array_map.
    apply mono_map_loop_with.
  - intros x s. by destruct (mono_call_spec code x args s) as (_ & (Hg & _) & _).
Qed.


Lemma mono_invoke_all_runs_in_order code args ls : ∀ st,
  runs_in_order code args ls st (invoke_all code ls args st).
Proof.
  unfold runs_in_order.
  induction ls as [|x ls IH]; intros st; simpl.
  - split; [|constructor]. unfold invocations. simpl. by rewrite app_nil_r.
  - destruct (mono_call_spec code x args st) as (Htr & _).
    destruct (call code x args st) as [st1 [e|r]] eqn:Hcall; simpl in Htr.
    + simpl. exists [], x, ls, st. split_and!; [done| |done|done].
      unfold invocations. simpl. by rewrite app_nil_r.
    + pose proof (mono_call_result code x args st st1 r Hcall) as Hres.
      specialize (IH st1).
      destruct (invoke_all code ls args st1) as [st2 [e|rs]]; simpl in *.
      * destruct IH as (pre & y & post & sa & -> & Hsa & Hy & Htr2).
        exists (x :: pre), y, post, sa. split_and!; [done| |done|].
        -- rewrite Hsa, Htr. unfold invocations. simpl. by rewrite <- app_assoc.
        -- rewrite Htr2, Htr. unfold invocations. simpl. by rewrite <- app_assoc.
      * destruct IH as [Htr2 Hall]. split; [|by constructor].
        rewrite Htr2, Htr. unfold invocations. simpl. by rewrite <- app_assoc.
Qed.

Lemma mono_emitSync_runs_in_order code args st :
  runs_in_order code args (registered st) st (emitSync code args st).
Proof. rewrite mono_emitSync_invoke_all. apply mono_invoke_all_runs_in_order. Qed.


End MonoEmitterInOrder.

(** ** What a dispatch keeps, whatever the listeners do *)

Lemma first_args_app (x : listener) (t1 t2 : list (listener * list value)) :
  first_args x (t1 ++ t2)
  = match first_args x t1 with
    | Some a => Some a
    | None => first_args x t2
    end.
Proof.
  induction t1 as [|[y a] t1 IH]; simpl; [done|].
  by destruct (decide (y = x)).
Qed.

Lemma resolve_resolve {A : Type} (a b : A) (s : promise A) :
  resolve b (resolve a s) = resolve a s.
Proof. by destruct s. Qed.

Lemma resolved_by_app (p : nat) (t1 t2 : list (listener * list value))
    (s : promise (list value)) :
  resolved_by p (t1 ++ t2) s = resolved_by p t2 (resolved_by p t1 s).
Proof.
  unfold resolved_by. rewrite first_args_app.
  destruct (first_args (WaitCallback p) t1) as [a|]; [|done].
  destruct (first_args (WaitCallback p) t2) as [b|]; [|done].
  by rewrite resolve_resolve.
Qed.


Lemma first_args_None (x : listener) (tr : list (listener * list value)) :
  first_args x tr = None ↔ ∀ a, (x, a) ∉ tr.
Proof.
  induction tr as [|[y b] tr IH]; simpl.
  - split; [|done]. intros _ a. apply not_elem_of_nil.
  - destruct (decide (y = x)) as [->|Hne].
    + split; [done|]. intros H. destruct (H b). by left.
    + rewrite IH. split.
      * intros H a. rewrite not_elem_of_cons. split; [congruence|apply H].
      * intros H a. specialize (H a). rewrite not_elem_of_cons in H. tauto.
Qed.

Lemma first_args_Some (x : listener) (tr : list (listener * list value)) a :
  first_args x tr = Some a → (x, a) ∈ tr.
Proof.
  induction tr as [|[y b] tr IH]; simpl; [done|].
  destruct (decide (y = x)) as [->|Hne].
  - intros [= ->]. by left.
  - intros H. right. by apply IH.
Qed.

Section EventEmitterProgKeeps.
Import EventEmitter EventEmitterProg.
Implicit Types (st : state) (ev : key) (x : listener) (q : request).
Variable R : state → state → Prop.
Variable allowed : request → Prop.
Hypothesis R_refl : ∀ st, R st st.
Hypothesis R_trans : ∀ s1 s2 s3, R s1 s2 → R s2 s3 → R s1 s3.
Hypothesis R_enter : ∀ f args st,
  R st (set_trace (λ t, t ++ [(Fn f, args)]) st).
Hypothesis R_callback : ∀ p args st,
  R st (callback p args (set_trace (λ t, t ++ [(WaitCallback p, args)]) st)).
Hypothesis R_request : ∀ inv q st,
  allowed q → reentrant q = false → R st (perform inv q st).1.

Lemma prog_map_loop_keeps (inv : listener → list value → M ret) a args ks :
  (∀ x args' st, R st (inv x args' st).1) →
  ∀ st, R st (map_loop inv a args ks st).1.
Proof.
  intros Hinv. induction ks as [|k ks IH]; intros st; simpl; [done|].
  destruct (array (heap st) a !! k) as [x|].
  - pose proof (Hinv x args st) as H1.
    destruct (inv x args st) as [st1 [e|r]]; simpl in *; [done|].
    pose proof (IH st1) as H2.
    destruct (map_loop inv a args ks st1) as [st2 [e|rs]]; simpl in *;
      exact (R_trans _ _ _ H1 H2).
  - pose proof (IH st) as H2.
    by destruct (map_loop inv a args ks st) as [st2 [e|rs]].
Qed.

Lemma prog_emitSync_with_keeps (inv : listener → list value → M ret) ev args st :
  (∀ x args' st, R st (inv x args' st).1) →
  R st (emitSync_with inv ev args st).1.
Proof.
  intros Hinv. unfold emitSync_with, Array_map.
  destruct (events st !! ev) as [a|]; [|done].
  by apply prog_map_loop_keeps.
Qed.

Lemma prog_invoke_all_with_keeps (inv : listener → list value → M ret) ls args :
  (∀ x args' st, R st (inv x args' st).1) →
  ∀ st, R st (invoke_all_with inv ls args st).1.
Proof.
  intros Hinv. induction ls as [|x ls IH]; intros st; simpl; [done|].
  pose proof (Hinv x args st) as H1.
  destruct (inv x args st) as [st1 [e|r]]; simpl in *; [done|].
  pose proof (IH st1) as H2.
  destruct (invoke_all_with inv ls args st1) as [st2 [e|rs]]; simpl in *;
    exact (R_trans _ _ _ H1 H2).
Qed.

Lemma prog_perform_keeps (inv : listener → list value → M ret) q st :
  (∀ x args' st, R st (inv x args' st).1) →
  allowed q → R st (perform inv q st).1.
Proof.
  intros Hinv Hq. destruct (reentrant q) eqn:Hre; [|by apply R_request].
  destruct q; try done; simpl.
  - by apply prog_emitSync_with_keeps.
  - unfold emit_with.
    pose proof (prog_emitSync_with_keeps inv ev args st Hinv) as H.
    by destruct (emitSync_with inv ev args st) as [st1 [e|rs]].
  - apply Hinv.
Qed.

Lemma prog_exec_keeps (inv : listener → list value → M ret) (p : prog) :
  (∀ x args' st, R st (inv x args' st).1) →
  only allowed p → ∀ st, R st (exec inv p st).1.
Proof.
  intros Hinv. induction p as [r|q k IH]; intros Hp st; simpl; [done|].
  destruct Hp as [Hq Hk].
  eapply R_trans; [apply (prog_perform_keeps inv q st Hinv Hq)|].
  by apply IH.
Qed.

Lemma prog_call_keeps (code : nat → list value → prog) :
  (∀ f args, only allowed (code f args)) →
  ∀ d x args st, R st (call d code x args st).1.
Proof.
  intros Hcode. induction d as [|d IH]; intros x args st; simpl; [done|].
  unfold call_with. destruct x as [f|p]; simpl.
  - eapply R_trans; [apply (R_enter f args st)|].
    by apply prog_exec_keeps.
  - apply R_callback.
Qed.

Lemma prog_emitSync_keeps (code : nat → list value → prog) d ev args st :
  (∀ f args, only allowed (code f args)) →
  R st (emitSync d code ev args st).1.
Proof.
  intros Hcode. apply prog_emitSync_with_keeps. by apply prog_call_keeps.
Qed.

Lemma prog_emit_keeps (code : nat → list value → prog) d ev args st :
  (∀ f args, only allowed (code f args)) →
  R st (emit d code ev args st).1.
Proof.
  intros Hcode. unfold emit, emit_with.
  pose proof (prog_emitSync_keeps code d ev args st Hcode) as H.
  unfold emitSync in H.
  by destruct (emitSync_with (call d code) ev args st) as [st1 [e|rs]].
Qed.

End EventEmitterProgKeeps.

Section EventEmitterProgFacts.
Import EventEmitter EventEmitterProg.
Implicit Types (st : state) (ev : key) (x : listener) (q : request).

Lemma wait_heap_grows ev timeout st :
  heap_grows (heap st) (heap (wait ev timeout st).1).
Proof.
  unfold wait.
  destruct (addListener_dispatch_rel [] ev [WaitCallback (length (waits st))]
              (set_waits (λ w, w ++ [Closure ev Pending false]) st))
    as [(Hg & _) _].
  destruct (addListener _ _ _) as [st1 [e|[]]]; simpl in *; [done|].
  by destruct timeout as [t|]; [destruct (truthy t)|].
Qed.

Lemma wait_trace ev timeout st : trace (wait ev timeout st).1 = trace st.
Proof.
  unfold wait.
  destruct (addListener_dispatch_rel [] ev [WaitCallback (length (waits st))]
              (set_waits (λ w, w ++ [Closure ev Pending false]) st))
    as [_ Ht].
  destruct (addListener _ _ _) as [st1 [e|[]]]; simpl in *; [done|].
  by destruct timeout as [t|]; [destruct (truthy t)|].
Qed.

Lemma wait_keeps_closure ev timeout st p w :
  waits st !! p = Some w → waits (wait ev timeout st).1 !! p = Some w.
Proof.
  intros Hw. pose proof (lookup_lt_Some _ _ _ Hw) as Hlt. unfold wait.
  destruct (addListener_cases ev [WaitCallback (length (waits st))]
              (set_waits (λ w, w ++ [Closure ev Pending false]) st)) as [H|H];
    rewrite H; simpl.
  - rewrite list_lookup_alter_ne by lia. by apply lookup_app_l_Some.
  - destruct timeout as [t|]; [destruct (truthy t)|]; simpl;
      by apply lookup_app_l_Some.
Qed.

Lemma only_True (p : prog) : only (λ _, True) p.
Proof. induction p as [r|q k IH]; simpl; [done|]. by split. Qed.

(** Calling a listener only lets the arrays grow, unless a listener writes
    to one. *)
Lemma prog_call_heap_grows (code : nat → list value → prog) :
  no_array_written code →
  ∀ d x args st, heap_grows (heap st) (heap (call d code x args st).1).
Proof.
  intros Hcode.
  apply (prog_call_keeps (λ s s', heap_grows (heap s) (heap s'))
           (λ q, ¬ writes_array q)); try done.
  - intros st. apply heap_grows_refl.
  - intros s1 s2 s3. apply heap_grows_trans.
  - intros f args st. apply heap_grows_refl.
  - intros p args st.
    by destruct (callback_dispatch_rel p args
                   (set_trace (λ t, t ++ [(WaitCallback p, args)]) st))
      as ((Hg & _) & _).
  - intros inv q st Hq Hre.
    destruct q; try done; simpl; try apply heap_grows_refl.
    + by destruct (addListener_dispatch_rel [] ev ls st) as [(Hg & _) _].
    + apply (heap_grows_alloc (heap st)).
    + unfold getListeners. destruct (events st !! ev); simpl;
        [apply heap_grows_refl | apply (heap_grows_alloc _ [])].
    + apply wait_heap_grows.
Qed.

(** Calling a listener changes no limit, unless a listener writes one. *)
Lemma prog_call_maxListeners (code : nat → list value → prog) :
  no_limit_written code →
  ∀ d x args st, maxListeners (call d code x args st).1 = maxListeners st.
Proof.
  intros Hcode.
  apply (prog_call_keeps (λ s s', maxListeners s' = maxListeners s)
           (λ q, ¬ writes_limit q)); try done.
  - intros s1 s2 s3 H1 H2. congruence.
  - intros p args st.
    by destruct (callback_dispatch_rel p args
                   (set_trace (λ t, t ++ [(WaitCallback p, args)]) st))
      as ((_ & _ & Hm & _) & _).
  - intros inv q st Hq Hre. destruct q; try done; simpl; try done.
    + by destruct (addListener_dispatch_rel [] ev ls st) as [(_ & _ & Hm & _) _].
    + unfold getListeners. by destruct (events st !! ev).
    + apply wait_maxListeners.
Qed.

Lemma promise_step_refl p st : promise_step p st st.
Proof. exists []. split; [by rewrite app_nil_r|]. eauto. Qed.

Lemma promise_step_trans p s1 s2 s3 :
  promise_step p s1 s2 → promise_step p s2 s3 → promise_step p s1 s3.
Proof.
  intros (n1 & Ht1 & H1) (n2 & Ht2 & H2). exists (n1 ++ n2).
  split; [by rewrite Ht2, Ht1, app_assoc|].
  intros w Hw. destruct (H1 w Hw) as (w1 & Hw1 & Hs1).
  destruct (H2 w1 Hw1) as (w2 & Hw2 & Hs2).
  exists w2. split; [done|]. by rewrite resolved_by_app, <- Hs1.
Qed.

Lemma promise_step_promise_of p st st' s :
  promise_step p st st' → promise_of p st = Some s →
  ∃ new, trace st' = trace st ++ new
    ∧ promise_of p st' = Some (resolved_by p new s).
Proof.
  intros (new & Ht & H) Hp. exists new. split; [done|].
  unfold promise_of in *. destruct (waits st !! p) as [w|]; [|done].
  injection Hp as <-. destruct (H w eq_refl) as (w' & -> & Hs).
  simpl. by rewrite Hs.
Qed.

(** Whatever a listener does, the promise of a [wait] is touched by the
    invocation of its callback only. *)
Lemma prog_call_promise (code : nat → list value → prog) p :
  ∀ d x args st, promise_step p st (call d code x args st).1.
Proof.
  apply (prog_call_keeps (promise_step p) (λ _, True)).
  - apply promise_step_refl.
  - apply promise_step_trans.
  - intros f args st. exists [(Fn f, args)]. split; [done|]. eauto.
  - intros p' args st. exists [(WaitCallback p', args)].
    destruct (callback_dispatch_rel p' args
                (set_trace (λ t, t ++ [(WaitCallback p', args)]) st))
      as (_ & Ht & Hcb).
    split; [by rewrite Ht|]. intros w Hw.
    unfold resolved_by. simpl. destruct (decide (p' = p)) as [->|Hne].
    + rewrite decide_True by done. by apply Hcb.
    + rewrite decide_False by congruence.
      exists w. split; [|done]. unfold callback. simpl.
      destruct (waits st !! p') as [w0|]; [|done].
      rewrite removeListener_eq. simpl. by rewrite list_lookup_insert_ne.
  - intros inv q st _ Hre.
    assert (Hsame : trace (perform inv q st).1 = trace st
              ∧ ∀ w, waits st !! p = Some w →
                     waits (perform inv q st).1 !! p = Some w).
    { destruct q; try done; simpl; try done.
      - destruct (addListener_cases ev ls st) as [H|H]; by rewrite H.
      - unfold getListeners. by destruct (events st !! ev).
      - split; [apply wait_trace|]. intros w. apply wait_keeps_closure. }
    destruct Hsame as [Ht Hw]. exists []. split; [by rewrite Ht, app_nil_r|].
    intros w Hp. exists w. split; [by apply Hw|done].
  - intros f args. apply only_True.
Qed.

Lemma prog_emitSync_promise (code : nat → list value → prog) p d ev args st :
  promise_step p st (emitSync d code ev args st).1.
Proof.
  apply (prog_emitSync_with_keeps (promise_step p)).
  - apply promise_step_refl.
  - apply promise_step_trans.
  - intros x a s. apply prog_call_promise.
Qed.

Lemma prog_emit_promise (code : nat → list value → prog) p d ev args st :
  promise_step p st (emit d code ev args st).1.
Proof.
  unfold emit, emit_with.
  pose proof (prog_emitSync_promise code p d ev args st) as H.
  unfold emitSync in H.
  by destruct (emitSync_with (call d code) ev args st) as [st1 [e|rs]].
Qed.

Lemma prog_emitSync_maxListeners (code : nat → list value → prog) d ev args st :
  no_limit_written code →
  maxListeners (emitSync d code ev args st).1 = maxListeners st.
Proof.
  intros Hcode.
  apply (prog_emitSync_with_keeps (λ s s', maxListeners s' = maxListeners s)).
  - done.
  - intros s1 s2 s3 H1 H2. congruence.
  - intros x a s. by apply prog_call_maxListeners.
Qed.

Lemma prog_emit_maxListeners (code : nat → list value → prog) d ev args st :
  no_limit_written code →
  maxListeners (emit d code ev args st).1 = maxListeners st.
Proof.
  intros Hcode. unfold emit, emit_with.
  pose proof (prog_emitSync_maxListeners code d ev args st Hcode) as H.
  unfold emitSync in H.
  by destruct (emitSync_with (call d code) ev args st) as [st1 [e|rs]].
Qed.

(** A [body] as a program does what the body does. *)
Lemma of_acts_exec (inv : listener → list value → M ret) l r : ∀ st,
  exec inv (of_acts l r) st
  = match run_actions l st with
    | (st1, inl e) => (st1, inl e)
    | (st1, inr _) => (st1, r)
    end.
Proof.
  induction l as [|a l IH]; intros st; simpl; [done|].
  assert (Hp : perform inv (request_of a) st
               = ((run_action a st).1,
                  match (run_action a st).2 with
                  | inl e => Threw e
                  | inr _ => Returned
                  end)).
  { by destruct a. }
  rewrite Hp. simpl.
  destruct (run_action a st) as [st1 [e|[]]]; simpl; [done|]. apply IH.
Qed.

Lemma of_body_call (code : nat → body) d x args st :
  call (S d) (of_body code) x args st = EventEmitter.call code x args st.
Proof.
  simpl. unfold call_with, EventEmitter.call, of_body.
  destruct x as [f|p]; [|done]. apply of_acts_exec.
Qed.

Lemma of_body_emitSync (code : nat → body) d ev args st :
  emitSync (S d) (of_body code) ev args st = EventEmitter.emitSync code ev args st.
Proof.
  unfold emitSync, emitSync_with, EventEmitter.emitSync, Array_map,
    EventEmitter.Array_map.
  destruct (events st !! ev) as [a|]; [|done].
  rewrite map_loop_with.
  generalize (seq 0 (length (array (heap st) a))). intros ks. revert st.
  induction ks as [|k ks IH]; intros st; [done|].
  cbn [map_loop]. destruct (array (heap st) a !! k) as [x|].
  - rewrite of_body_call.
    destruct (EventEmitter.call code x args st) as [st1 [e|r]]; [done|].
    by rewrite IH.
  - by rewrite IH.
Qed.

(** The dispatch is the listeners of the list it found, called in order,
    unless a listener writes to an array. *)
Lemma prog_emitSync_invoke_all (code : nat → list value → prog) d ev args st :
  no_array_written code →
  emitSync d code ev args st
  = invoke_all d code (registered ev st) args st.
Proof.
  intros Hcode. unfold emitSync, invoke_all.
  apply emitSync_with_snapshot. intros x s.
  by apply prog_call_heap_grows.
Qed.

End EventEmitterProgFacts.

Section MonoEmitterProgKeeps.
Import MonoEmitter MonoEmitterProg.
Implicit Types (st : state) (x : listener) (q : request).
Variable R : state → state → Prop.
Variable allowed : request → Prop.
Hypothesis R_refl : ∀ st, R st st.
Hypothesis R_trans : ∀ s1 s2 s3, R s1 s2 → R s2 s3 → R s1 s3.
Hypothesis R_enter : ∀ f args st,
  R st (set_trace (λ t, t ++ [(Fn f, args)]) st).
Hypothesis R_callback : ∀ p args st,
  R st (callback p args (set_trace (λ t, t ++ [(WaitCallback p, args)]) st)).
Hypothesis R_request : ∀ inv q st,
  allowed q → reentrant q = false → R st (perform inv q st).1.

Lemma mono_prog_map_loop_keeps (inv : listener → list value → M ret) a args ks :
  (∀ x args' st, R st (inv x args' st).1) →
  ∀ st, R st (map_loop inv a args ks st).1.
Proof.
  intros Hinv. induction ks as [|k ks IH]; intros st; simpl; [done|].
  destruct (array (heap st) a !! k) as [x|].
  - pose proof (Hinv x args st) as H1.
    destruct (inv x args st) as [st1 [e|r]]; simpl in *; [done|].
    pose proof (IH st1) as H2.
    destruct (map_loop inv a args ks st1) as [st2 [e|rs]]; simpl in *;
      exact (R_trans _ _ _ H1 H2).
  - pose proof (IH st) as H2.
    by destruct (map_loop inv a args ks st) as [st2 [e|rs]].
Qed.

Lemma mono_prog_emitSync_with_keeps (inv : listener → list value → M ret)
    args st :
  (∀ x args' st, R st (inv x args' st).1) →
  R st (emitSync_with inv args st).1.
Proof.
  intros Hinv. unfold emitSync_with, Array_map.
  by apply mono_prog_map_loop_keeps.
Qed.

Lemma mono_prog_perform_keeps (inv : listener → list value → M ret) q st :
  (∀ x args' st, R st (inv x args' st).1) →
  allowed q → R st (perform inv q st).1.
Proof.
  intros Hinv Hq. destruct (reentrant q) eqn:Hre; [|by apply R_request].
  destruct q; try done; simpl.
  - by apply mono_prog_emitSync_with_keeps.
  - unfold emit_with.
    pose proof (mono_prog_emitSync_with_keeps inv args st Hinv) as H.
    by destruct (emitSync_with inv args st) as [st1 [e|rs]].
  - apply Hinv.
Qed.

Lemma mono_prog_exec_keeps (inv : listener → list value → M ret) (p : prog) :
  (∀ x args' st, R st (inv x args' st).1) →
  only allowed p → ∀ st, R st (exec inv p st).1.
Proof.
  intros Hinv. induction p as [r|q k IH]; intros Hp st; simpl; [done|].
  destruct Hp as [Hq Hk].
  eapply R_trans; [apply (mono_prog_perform_keeps inv q st Hinv Hq)|].
  by apply IH.
Qed.

Lemma mono_prog_call_keeps (code : nat → list value → prog) :
  (∀ f args, only allowed (code f args)) →
  ∀ d x args st, R st (call d code x args st).1.
Proof.
  intros Hcode. induction d as [|d IH]; intros x args st; simpl; [done|].
  unfold call_with. destruct x as [f|p]; simpl.
  - eapply R_trans; [apply (R_enter f args st)|].
    by apply mono_prog_exec_keeps.
  - apply R_callback.
Qed.

Lemma mono_prog_emitSync_keeps (code : nat → list value → prog) d args st :
  (∀ f args, only allowed (code f args)) →
  R st (emitSync d code args st).1.
Proof.
  intros Hcode. apply mono_prog_emitSync_with_keeps.
  by apply mono_prog_call_keeps.
Qed.

Lemma mono_prog_emit_keeps (code : nat → list value → prog) d args st :
  (∀ f args, only allowed (code f args)) →
  R st (emit d code args st).1.
Proof.
  intros Hcode. unfold emit, emit_with.
  pose proof (mono_prog_emitSync_keeps code d args st Hcode) as H.
  unfold emitSync in H.
  by destruct (emitSync_with (call d code) args st) as [st1 [e|rs]].
Qed.

End MonoEmitterProgKeeps.

Section MonoEmitterProgFacts.
Import MonoEmitter MonoEmitterProg.
Implicit Types (st : state) (x : listener) (q : request).

Lemma mono_wait_heap_grows timeout st :
  heap_grows (heap st) (heap (wait timeout st).1).
Proof.
  unfold wait.
  destruct timeout as [t|]; [destruct (truthy t)|]; simpl;
    apply heap_grows_push.
Qed.

Lemma mono_wait_trace timeout st : trace (wait timeout st).1 = trace st.
Proof. unfold wait. by destruct timeout as [t|]; [destruct (truthy t)|]. Qed.

Lemma mono_wait_keeps_closure timeout st p w :
  waits st !! p = Some w → waits (wait timeout st).1 !! p = Some w.
Proof.
  intros Hw. unfold wait.
  destruct timeout as [t|]; [destruct (truthy t)|]; simpl;
    by apply lookup_app_l_Some.
Qed.

Lemma mono_only_True (p : prog) : only (λ _, True) p.
Proof. induction p as [r|q k IH]; simpl; [done|]. by split. Qed.

(** Calling a listener only lets the arrays grow, unless a listener writes
    to one. *)
Lemma mono_prog_call_heap_grows (code : nat → list value → prog) :
  no_array_written code →
  ∀ d x args st, heap_grows (heap st) (heap (call d code x args st).1).
Proof.
  intros Hcode.
  apply (mono_prog_call_keeps (λ s s', heap_grows (heap s) (heap s'))
           (λ q, ¬ writes_array q)); try done.
  - intros st. apply heap_grows_refl.
  - intros s1 s2 s3. apply heap_grows_trans.
  - intros f args st. apply heap_grows_refl.
  - intros p args st.
    by destruct (mono_callback_dispatch_rel p args
                   (set_trace (λ t, t ++ [(WaitCallback p, args)]) st))
      as ((Hg & _) & _).
  - intros inv q st Hq Hre.
    destruct q; try done; simpl; try apply heap_grows_refl.
    + by destruct (mono_addListener_dispatch_rel [] ls st) as [(Hg & _) _].
    + apply (heap_grows_alloc (heap st)).
    + apply (heap_grows_alloc (heap st)).
    + apply mono_wait_heap_grows.
Qed.

(** Calling a listener does not change the limit, unless a listener writes
    it. *)
Lemma mono_prog_call_maxListenersCount (code : nat → list value → prog) :
  no_limit_written code →
  ∀ d x args st,
    maxListenersCount (call d code x args st).1 = maxListenersCount st.
Proof.
  intros Hcode.
  apply (mono_prog_call_keeps
           (λ s s', maxListenersCount s' = maxListenersCount s)
           (λ q, ¬ writes_limit q)); try done.
  - intros s1 s2 s3 H1 H2. congruence.
  - intros p args st.
    by destruct (mono_callback_dispatch_rel p args
                   (set_trace (λ t, t ++ [(WaitCallback p, args)]) st))
      as ((_ & _ & Hm & _) & _).
  - intros inv q st Hq Hre. destruct q; try done; simpl; try done.
    + by destruct (mono_addListener_dispatch_rel [] ls st)
        as [(_ & _ & Hm & _) _].
    + apply mono_wait_maxListenersCount.
Qed.

Lemma mono_promise_step_refl p st : promise_step p st st.
Proof. exists []. split; [by rewrite app_nil_r|]. eauto. Qed.

Lemma mono_promise_step_trans p s1 s2 s3 :
  promise_step p s1 s2 → promise_step p s2 s3 → promise_step p s1 s3.
Proof.
  intros (n1 & Ht1 & H1) (n2 & Ht2 & H2). exists (n1 ++ n2).
  split; [by rewrite Ht2, Ht1, app_assoc|].
  intros w Hw. destruct (H1 w Hw) as (w1 & Hw1 & Hs1).
  destruct (H2 w1 Hw1) as (w2 & Hw2 & Hs2).
  exists w2. split; [done|]. by rewrite resolved_by_app, <- Hs1.
Qed.

Lemma mono_promise_step_promise_of p st st' s :
  promise_step p st st' → promise_of p st = Some s →
  ∃ new, trace st' = trace st ++ new
    ∧ promise_of p st' = Some (resolved_by p new s).
Proof.
  intros (new & Ht & H) Hp. exists new. split; [done|].
  unfold promise_of in *. destruct (waits st !! p) as [w|]; [|done].
  injection Hp as <-. destruct (H w eq_refl) as (w' & -> & Hs).
  simpl. by rewrite Hs.
Qed.

(** Whatever a listener does, the promise of a [wait] is touched by the
    invocation of its callback only. *)
Lemma mono_prog_call_promise (code : nat → list value → prog) p :
  ∀ d x args st, promise_step p st (call d code x args st).1.
Proof.
  apply (mono_prog_call_keeps (promise_step p) (λ _, True)).
  - apply mono_promise_step_refl.
  - apply mono_promise_step_trans.
  - intros f args st. exists [(Fn f, args)]. split; [done|]. eauto.
  - intros p' args st. exists [(WaitCallback p', args)].
    destruct (mono_callback_dispatch_rel p' args
                (set_trace (λ t, t ++ [(WaitCallback p', args)]) st))
      as (_ & Ht & Hcb).
    split; [by rewrite Ht|]. intros w Hw.
    unfold resolved_by. simpl. destruct (decide (p' = p)) as [->|Hne].
    + rewrite decide_True by done. by apply Hcb.
    + rewrite decide_False by congruence.
      exists w. split; [|done]. unfold callback. simpl.
      destruct (waits st !! p') as [w0|]; [|done].
      simpl. by rewrite list_lookup_insert_ne.
  - intros inv q st _ Hre.
    assert (Hsame : trace (perform inv q st).1 = trace st
              ∧ ∀ w, waits st !! p = Some w →
                     waits (perform inv q st).1 !! p = Some w).
    { destruct q; try done; simpl; try done.
      - destruct (mono_addListener_cases ls st) as [H|H]; by rewrite H.
      - split; [apply mono_wait_trace|]. intros w.
        apply mono_wait_keeps_closure. }
    destruct Hsame as [Ht Hw]. exists []. split; [by rewrite Ht, app_nil_r|].
    intros w Hp. exists w. split; [by apply Hw|done].
  - intros f args. apply mono_only_True.
Qed.

Lemma mono_prog_emitSync_promise (code : nat → list value → prog) p d args st :
  promise_step p st (emitSync d code args st).1.
Proof.
  apply (mono_prog_emitSync_with_keeps (promise_step p)).
  - apply mono_promise_step_refl.
  - apply mono_promise_step_trans.
  - intros x a s. apply mono_prog_call_promise.
Qed.

Lemma mono_prog_emit_promise (code : nat → list value → prog) p d args st :
  promise_step p st (emit d code args st).1.
Proof.
  unfold emit, emit_with.
  pose proof (mono_prog_emitSync_promise code p d args st) as H.
  unfold emitSync in H.
  by destruct (emitSync_with (call d code) args st) as [st1 [e|rs]].
Qed.

Lemma mono_prog_emitSync_maxListenersCount
    (code : nat → list value → prog) d args st :
  no_limit_written code →
  maxListenersCount (emitSync d code args st).1 = maxListenersCount st.
Proof.
  intros Hcode.
  apply (mono_prog_emitSync_with_keeps
           (λ s s', maxListenersCount s' = maxListenersCount s)).
  - done.
  - intros s1 s2 s3 H1 H2. congruence.
  - intros x a s. by apply mono_prog_call_maxListenersCount.
Qed.

Lemma mono_prog_emit_maxListenersCount
    (code : nat → list value → prog) d args st :
  no_limit_written code →
  maxListenersCount (emit d code args st).1 = maxListenersCount st.
Proof.
  intros Hcode. unfold emit, emit_with.
  pose proof (mono_prog_emitSync_maxListenersCount code d args st Hcode) as H.
  unfold emitSync in H.
  by destruct (emitSync_with (call d code) args st) as [st1 [e|rs]].
Qed.

(** A [body] as a program does what the body does. *)
Lemma mono_of_acts_exec (inv : listener → list value → M ret) l r : ∀ st,
  exec inv (of_acts l r) st
  = match run_actions l st with
    | (st1, inl e) => (st1, inl e)
    | (st1, inr _) => (st1, r)
    end.
Proof.
  induction l as [|a l IH]; intros st; simpl; [done|].
  assert (Hp : perform inv (request_of a) st
               = ((run_action a st).1,
                  match (run_action a st).2 with
                  | inl e => Threw e
                  | inr _ => Returned
                  end)).
  { by destruct a. }
  rewrite Hp. simpl.
  destruct (run_action a st) as [st1 [e|[]]]; simpl; [done|]. apply IH.
Qed.

Lemma mono_of_body_call (code : nat → body) d x args st :
  call (S d) (of_body code) x args st = MonoEmitter.call code x args st.
Proof.
  simpl. unfold call_with, MonoEmitter.call, of_body.
  destruct x as [f|p]; [|done]. apply mono_of_acts_exec.
Qed.

Lemma mono_of_body_emitSync (code : nat → body) d args st :
  emitSync (S d) (of_body code) args st = MonoEmitter.emitSync code args st.
Proof.
  unfold emitSync, emitSync_with, MonoEmitter.emitSync, Array_map,
    MonoEmitter.Array_map.
  rewrite mono_map_loop_with.
  generalize (seq 0 (length (array (heap st) (listeners st)))).
  generalize (listeners st). intros a ks. revert st.
  induction ks as [|k ks IH]; intros st; [done|].
  cbn [map_loop]. destruct (array (heap st) a !! k) as [x|].
  - rewrite mono_of_body_call.
    destruct (MonoEmitter.call code x args st) as [st1 [e|r]]; [done|].
    by rewrite IH.
  - by rewrite IH.
Qed.

(** The dispatch is the listeners of the list it found, called in order,
    unless a listener writes to an array. *)
Lemma mono_prog_emitSync_invoke_all (code : nat → list value → prog) d args st :
  no_array_written code →
  emitSync d code args st = invoke_all d code (registered st) args st.
Proof.
  intros Hcode. unfold emitSync, invoke_all.
  apply mono_emitSync_with_snapshot. intros x s.
  by apply mono_prog_call_heap_grows.
Qed.

End MonoEmitterProgFacts.

(** ** The dispatch that reaches the callback of a wait *)

Section EventEmitterReach.
Import EventEmitter EventEmitterExt.
Implicit Types (st : state) (ev : key) (x : listener).



End EventEmitterReach.

Section MonoEmitterReach.
Import MonoEmitter MonoEmitterExt.
Implicit Types (st : state) (x : listener).



End MonoEmitterReach.

(** ** The rest of once *)

Section EventEmitterOnce.
Import EventEmitter EventEmitterExt.
Implicit Types (st : state) (ev : key) (x : listener).


End EventEmitterOnce.

Section MonoEmitterOnce.
Import MonoEmitter MonoEmitterExt.
Implicit Types (st : state) (x : listener).


End MonoEmitterOnce.

(** ** The same, whatever the listeners do *)

Section EventEmitterProgReach.
Import EventEmitter EventEmitterProg.
Implicit Types (st : state) (ev : key) (x : listener).





End EventEmitterProgReach.

Section MonoEmitterProgReach.
Import MonoEmitter MonoEmitterProg.
Implicit Types (st : state) (x : listener).





End MonoEmitterProgReach.

(** * The claims *)

(** ** C1: the limit test of register *)

(** C1 (the code at the failing inputs). The limit test of register reads
    the current count and never the number of listeners supplied, and the
    keyed emitter tests against the limit plus one. With a positive limit
    [N]: the keyed register fails exactly when the current count is above
    [N], so that with [N] listeners registered it lets any number more in;
    the single-channel register fails exactly when the current count has
    reached [N], so that below [N] it lets any number of listeners in with
    one call. A call that is let through registers every listener it was
    given. *)
Theorem C1_limit_test_ignores_supplied_count
    (N : Z) (ls : list listener) (sm : MonoEmitter.state)
    (ev : key) (se : EventEmitter.state) :
  (0 < N)%Z →
  MonoEmitter.wf sm →
  MonoEmitter.maxListenersCount sm = Some N →
  EventEmitter.maxListeners se !! ev = Some N →
  ((EventEmitter.addListener ev ls se).2 = inl LimitExceeded ↔
     (N < Z.of_nat (EventEmitter.listenerCount ev se))%Z)
  ∧ ((Z.of_nat (EventEmitter.listenerCount ev se) ≤ N)%Z →
     (EventEmitter.addListener ev ls se).2 = inr ()
     ∧ EventEmitter.listenerCount ev (EventEmitter.addListener ev ls se).1
       = EventEmitter.listenerCount ev se + length ls)
  ∧ ((MonoEmitter.addListener ls sm).2 = inl LimitExceeded ↔
     (N ≤ Z.of_nat (MonoEmitter.listenersCount sm))%Z)
  ∧ ((Z.of_nat (MonoEmitter.listenersCount sm) < N)%Z →
     (MonoEmitter.addListener ls sm).2 = inr ()
     ∧ MonoEmitter.listenersCount (MonoEmitter.addListener ls sm).1
       = MonoEmitter.listenersCount sm + length ls).
Proof.
  intros HN Hwm Hm He.
  assert (Hke : (EventEmitter.addListener ev ls se).2 = inl LimitExceeded ↔
                (N < Z.of_nat (EventEmitter.listenerCount ev se))%Z).
  { rewrite addListener_throws_iff, limit_reached_iff. split.
    - intros (N' & HN' & _ & Hlt). congruence.
    - intros Hlt. exists N. split_and!; [done|lia|done]. }
  assert (Hkm : (MonoEmitter.addListener ls sm).2 = inl LimitExceeded ↔
                (N ≤ Z.of_nat (MonoEmitter.listenersCount sm))%Z).
  { rewrite mono_addListener_throws_iff, mono_limit_reached_iff. split.
    - intros (N' & HN' & _ & Hlt). assert (N' = N) by congruence. lia.
    - intros Hlt. exists N. split_and!; [done|lia|lia]. }
  split_and!; [exact Hke| |exact Hkm|].
  - intros Hle.
    destruct (EventEmitter.addListener ev ls se) as [se' [e|[]]] eqn:Hadd.
    + destruct (addListener_cases ev ls se) as [H|H]; rewrite H in Hadd;
        [|done]. injection Hadd as <- <-.
      assert (N < Z.of_nat (EventEmitter.listenerCount ev se))%Z
        by (by apply Hke). lia.
    + split; [done|]. simpl.
      rewrite !listenerCount_registered,
        (registered_addListener _ _ _ _ Hadd), length_app. lia.
  - intros Hlt.
    destruct (MonoEmitter.addListener ls sm) as [sm' [e|[]]] eqn:Hadd.
    + destruct (mono_addListener_cases ls sm) as [H|H]; rewrite H in Hadd;
        [|done]. injection Hadd as <- <-.
      assert (N ≤ Z.of_nat (MonoEmitter.listenersCount sm))%Z
        by (by apply Hkm). lia.
    + split; [done|]. simpl. unfold MonoEmitter.listenersCount.
      by rewrite (mono_registered_addListener _ _ _ Hwm Hadd), length_app.
Qed.

(** Limit 1 on the keyed emitter and one listener registered: the second
    registration is let in. Limit 2 on a new single-channel emitter: three
    listeners are let in with one call. The claim does not hold of the
    code. *)
Lemma C1_limit_test_ignores_supplied_count_witness :
  ¬ Stated.limit_on_prospective_count_keyed 1 (KStr "x") [Fn 2]
      (EventEmitter.addListener (KStr "x") [Fn 1]
         (EventEmitter.set_maxListeners <[KStr "x" := 1%Z]> EventEmitter.new)).1
  ∧ ¬ Stated.limit_on_prospective_count 2 [Fn 1; Fn 2; Fn 3]
        (MonoEmitter.set_maxListenersCount (Some 2%Z) MonoEmitter.new).
Proof.
  split.
  - intros H.
    pose proof (C1_limit_test_ignores_supplied_count 1 [Fn 2]
      (MonoEmitter.set_maxListenersCount (Some 1%Z) MonoEmitter.new)
      (KStr "x")
      (EventEmitter.addListener (KStr "x") [Fn 1]
         (EventEmitter.set_maxListeners <[KStr "x" := 1%Z]> EventEmitter.new)).1
      ltac:(lia) mono_wf_new eq_refl eq_refl) as (Hk & _).
    destruct (H eq_refl) as [_ H2].
    assert (Hthrows : (EventEmitter.addListener (KStr "x") [Fn 2]
              (EventEmitter.addListener (KStr "x") [Fn 1]
                 (EventEmitter.set_maxListeners <[KStr "x" := 1%Z]>
                    EventEmitter.new)).1).2 = inl LimitExceeded).
    { apply H2. vm_compute. reflexivity. }
    apply Hk in Hthrows. vm_compute in Hthrows. discriminate Hthrows.
  - intros H.
    pose proof (C1_limit_test_ignores_supplied_count 2 [Fn 1; Fn 2; Fn 3]
      (MonoEmitter.set_maxListenersCount (Some 2%Z) MonoEmitter.new)
      (KStr "x")
      (EventEmitter.set_maxListeners <[KStr "x" := 2%Z]> EventEmitter.new)
      ltac:(lia) mono_wf_new eq_refl eq_refl) as (_ & _ & Hm & _).
    destruct (H eq_refl) as [_ H2].
    assert (Hthrows : (MonoEmitter.addListener [Fn 1; Fn 2; Fn 3]
              (MonoEmitter.set_maxListenersCount (Some 2%Z)
                 MonoEmitter.new)).2 = inl LimitExceeded).
    { apply H2. vm_compute. reflexivity. }
    apply Hm in Hthrows. vm_compute in Hthrows. by destruct Hthrows.
Defined.

(** ** C2: the timeout of wait *)

(** C2 (the code at the failing input). A [wait] with a timeout other than
    zero, then its timer with no emission in between: the promise returned
    is still pending (it is not rejected), the [Timeout] error was thrown to
    nobody, and the one-shot listener is still registered, so the count is
    one more than before the [wait]. Both emitters. *)
Theorem C2_timeout_thrown_detached_listener_kept
    (ev : key) (t : Z) (se : EventEmitter.state) (sm : MonoEmitter.state) :
  t ≠ 0%Z →
  EventEmitter.limit_reached ev se = false →
  MonoEmitter.wf sm →
  let p := (EventEmitter.wait ev (Some t) se).2 in
  let se2 := EventEmitter.run_timer p (EventEmitter.wait ev (Some t) se).1 in
  let q := (MonoEmitter.wait (Some t) sm).2 in
  let sm2 := MonoEmitter.run_timer q (MonoEmitter.wait (Some t) sm).1 in
  (EventEmitter.promise_of p se2 = Some Pending
   ∧ EventEmitter.uncaught se2 = EventEmitter.uncaught se ++ [Timeout]
   ∧ EventEmitter.registered ev se2
     = WaitCallback p :: EventEmitter.registered ev se
   ∧ EventEmitter.listenerCount ev se2 = S (EventEmitter.listenerCount ev se))
  ∧ (MonoEmitter.promise_of q sm2 = Some Pending
   ∧ MonoEmitter.uncaught sm2 = MonoEmitter.uncaught sm ++ [Timeout]
   ∧ MonoEmitter.registered sm2 = MonoEmitter.registered sm ++ [WaitCallback q]
   ∧ MonoEmitter.listenersCount sm2 = S (MonoEmitter.listenersCount sm)).
Proof.
  intros Ht Hl Hwf p se2 q sm2.
  assert (Htr : truthy t = true).
  { unfold truthy. by rewrite negb_true_iff, Z.eqb_neq. }
  split.
  - pose proof (promise_of_wait ev (Some t) se Hl) as Hp. fold p in Hp.
    destruct (wait_returns ev (Some t) se Hl) as (Hp2 & Hw & Hr & Hti & Hu).
    fold p in Hp2. rewrite Htr in Hti.
    set (se1 := (EventEmitter.wait ev (Some t) se).1) in *.
    assert (Hlook : EventEmitter.waits se1 !! p
                    = Some (EventEmitter.Closure ev Pending false)).
    { rewrite Hw, Hp2. by rewrite lookup_app_r, Nat.sub_diag by lia. }
    assert (Hse2 : se2 = EventEmitter.set_uncaught (λ u, u ++ [Timeout])
                (EventEmitter.set_timers (filter (λ x, x.1 ≠ p)) se1)).
    { apply (run_timer_unfulfilled p se1
               (EventEmitter.Closure ev Pending false)); [|exact Hlook|done].
      rewrite Hti, fmap_app, Hp2. simpl. apply elem_of_app. right. by left. }
    rewrite Hse2. split_and!.
    + exact Hp.
    + simpl. by rewrite Hu.
    + rewrite <- Hp2 in Hr. exact Hr.
    + rewrite !listenerCount_registered.
      change (length (EventEmitter.registered ev se1)
              = S (length (EventEmitter.registered ev se))).
      by rewrite Hr.
  - pose proof (mono_promise_of_wait (Some t) sm) as Hp. fold q in Hp.
    destruct (mono_wait_returns (Some t) sm Hwf) as (Hp2 & Hw & Hr & Hti & Hu).
    fold q in Hp2. rewrite Htr in Hti.
    set (sm1 := (MonoEmitter.wait (Some t) sm).1) in *.
    assert (Hlook : MonoEmitter.waits sm1 !! q
                    = Some (MonoEmitter.Closure Pending false)).
    { rewrite Hw, Hp2. by rewrite lookup_app_r, Nat.sub_diag by lia. }
    assert (Hsm2 : sm2 = MonoEmitter.set_uncaught (λ u, u ++ [Timeout])
                (MonoEmitter.set_timers (filter (λ x, x.1 ≠ q)) sm1)).
    { apply (mono_run_timer_unfulfilled q sm1
               (MonoEmitter.Closure Pending false)); [|exact Hlook|done].
      rewrite Hti, fmap_app, Hp2. simpl. apply elem_of_app. right. by left. }
    rewrite Hsm2. split_and!.
    + exact Hp.
    + simpl. by rewrite Hu.
    + rewrite <- Hp2 in Hr. exact Hr.
    + unfold MonoEmitter.listenersCount.
      change (length (MonoEmitter.registered sm1)
              = S (length (MonoEmitter.registered sm))).
      rewrite Hr, length_app. simpl. lia.
Qed.

(** [new EventEmitter().wait("x", 50)] and no emission: the claim does not
    hold of the code. *)
Lemma C2_timeout_thrown_detached_listener_kept_witness :
  ¬ Stated.timeout_rejects_and_deregisters (KStr "x") 50 EventEmitter.new.
Proof.
  pose proof (C2_timeout_thrown_detached_listener_kept (KStr "x") 50
    EventEmitter.new MonoEmitter.new ltac:(lia) eq_refl mono_wf_new)
    as [(Hp & _) _].
  unfold Stated.timeout_rejects_and_deregisters.
  destruct (EventEmitter.wait (KStr "x") (Some 50%Z) EventEmitter.new)
    as [st1 p] eqn:Hwait.
  simpl in Hp. intros [Hrej _]. congruence.
Defined.

(** ** C3: where register puts the listeners *)

(** C3 (as amended). A register call that succeeds adds the listeners it
    was given as one group in their order: the keyed registry puts the group
    before the listeners already there for that event and leaves the other
    events alone, the single-channel registry puts it after them. *)
Theorem C3_register_group
    (ls : list listener) (ev : key) (se se' : EventEmitter.state)
    (sm sm' : MonoEmitter.state) :
  EventEmitter.wf se →
  EventEmitter.addListener ev ls se = (se', inr ()) →
  MonoEmitter.wf sm →
  MonoEmitter.addListener ls sm = (sm', inr ()) →
  EventEmitter.registered ev se' = ls ++ EventEmitter.registered ev se
  ∧ (∀ ev', ev' ≠ ev →
       EventEmitter.registered ev' se' = EventEmitter.registered ev' se)
  ∧ MonoEmitter.registered sm' = MonoEmitter.registered sm ++ ls.
Proof.
  intros Hwe He Hwm Hm. split_and!.
  - by apply registered_addListener.
  - intros ev' Hne.
    destruct (addListener_cases ev ls se) as [H|H]; rewrite H in He; [done|].
    injection He as <-. rewrite registered_stored by done.
    by destruct (decide (ev = ev')) as [->|].
  - by apply mono_registered_addListener.
Qed.

Lemma C3_register_group_witness :
  MonoEmitter.registered
    (MonoEmitter.addListener [Fn 2; Fn 3]
       (MonoEmitter.addListener [Fn 1] MonoEmitter.new).1).1
  = [Fn 1] ++ [Fn 2; Fn 3].
Proof.
  refine (proj2 (proj2 (C3_register_group [Fn 2; Fn 3] (KStr "x")
    (EventEmitter.addListener (KStr "x") [Fn 1] EventEmitter.new).1 _
    (MonoEmitter.addListener [Fn 1] MonoEmitter.new).1 _ _ _ _ _))).
  - apply wf_addListener, wf_new.
  - reflexivity.
  - apply mono_wf_addListener, mono_wf_new.
  - reflexivity.
Defined.

(** The claim as worded fails on the single-channel emitter, which appends:
    registering 2, 3 after 1 gives 1, 2, 3. *)
Lemma C3_counterexample :
  ¬ Stated.register_prepends [Fn 2; Fn 3]
      (MonoEmitter.addListener [Fn 1] MonoEmitter.new).1.
Proof.
  intros H. specialize (H _ eq_refl). vm_compute in H. discriminate H.
Qed.

(** ** C4: a limit of zero *)

(** C4 (the code at the failing input). On the keyed emitter a limit of
    zero is not "no limit": as soon as one listener is registered for the
    event, every further register call fails with [LimitExceeded]. *)
Theorem C4_zero_limit_keyed
    (ev : key) (ls : list listener) (st : EventEmitter.state) :
  EventEmitter.maxListeners st !! ev = Some 0%Z →
  0 < EventEmitter.listenerCount ev st →
  EventEmitter.addListener ev ls st = (st, inl LimitExceeded).
Proof.
  intros Hz Hc. apply addListener_throws, limit_reached_iff.
  exists 0%Z. split_and!; [done|lia|lia].
Qed.

Lemma C4_zero_limit_keyed_witness :
  ¬ Stated.zero_limit_is_unlimited (KStr "x") [Fn 2]
      (EventEmitter.addListener (KStr "x") [Fn 1]
         (EventEmitter.set_maxListeners <[KStr "x" := 0%Z]> EventEmitter.new)).1.
Proof.
  intros H. apply H; [by left|].
  rewrite (C4_zero_limit_keyed (KStr "x") [Fn 2]); [done| |].
  - vm_compute. reflexivity.
  - vm_compute. lia.
Defined.

(** What does hold of C4: with no limit set neither emitter ever refuses,
    and the single-channel emitter does not refuse with the limit zero. *)
Lemma unset_limit_is_unlimited
    (ev : key) (ls : list listener) (se : EventEmitter.state)
    (sm : MonoEmitter.state) :
  (EventEmitter.maxListeners se !! ev = None →
   (EventEmitter.addListener ev ls se).2 = inr ())
  ∧ (MonoEmitter.maxListenersCount sm = None
     ∨ MonoEmitter.maxListenersCount sm = Some 0%Z →
     (MonoEmitter.addListener ls sm).2 = inr ()).
Proof.
  split.
  - intros Hn. destruct (EventEmitter.limit_reached ev se) eqn:Hl.
    + apply limit_reached_iff in Hl as (N & HN & _). congruence.
    + by rewrite (addListener_returns _ _ _ Hl).
  - intros Hn. destruct (MonoEmitter.limit_reached sm) eqn:Hl.
    + apply mono_limit_reached_iff in Hl as (N & HN & Hnz & _).
      destruct Hn; congruence.
    + unfold MonoEmitter.addListener. by rewrite Hl.
Qed.

(** ** C5: count is added minus removed *)

(** C5. Over any sequence of register and unregister calls that all succeed,
    started on an empty registry, the count for a key is the number of
    listeners added minus the number removed; unregister takes out every
    occurrence of its listener, never throws, and changes no list that does
    not hold the listener. Both emitters. *)
Theorem C5_count_added_minus_removed
    (ev : key) (l : listener)
    (ops : list EventEmitter.op) (se0 se : EventEmitter.state)
    (mops : list MonoEmitter.op) (sm0 sm : MonoEmitter.state) :
  EventEmitter.events se0 = ∅ →
  EventEmitter.run ops se0 = Some se →
  MonoEmitter.wf sm0 →
  MonoEmitter.registered sm0 = [] →
  MonoEmitter.run mops sm0 = Some sm →
  (Z.of_nat (EventEmitter.listenerCount ev se) =
     Z.of_nat (EventEmitter.added ev ops)
     - Z.of_nat (EventEmitter.removed ev ops se0))%Z
  ∧ (Z.of_nat (MonoEmitter.listenersCount sm) =
     Z.of_nat (MonoEmitter.added mops)
     - Z.of_nat (MonoEmitter.removed mops sm0))%Z
  ∧ (l ∉ EventEmitter.registered ev (EventEmitter.removeListener ev l se))
  ∧ (l ∉ MonoEmitter.registered (MonoEmitter.removeListener l sm))
  ∧ (l ∉ EventEmitter.registered ev se →
     EventEmitter.registered ev (EventEmitter.removeListener ev l se)
     = EventEmitter.registered ev se)
  ∧ (l ∉ MonoEmitter.registered sm →
     MonoEmitter.registered (MonoEmitter.removeListener l sm)
     = MonoEmitter.registered sm)
  ∧ (EventEmitter.run_action (EventEmitter.CallRemoveListener ev l) se).2
    = inr ()
  ∧ (MonoEmitter.run_action (MonoEmitter.CallRemoveListener l) sm).2 = inr ().
Proof.
  intros He0 Hrun Hwm Hm0 Hmrun.
  assert (Hwe : EventEmitter.wf se0).
  { intros k a. rewrite He0. by rewrite lookup_empty. }
  pose proof (run_count ev ops _ _ Hwe Hrun) as Hk.
  pose proof (mono_run_count mops _ _ Hwm Hmrun) as Hmo.
  assert (EventEmitter.listenerCount ev se0 = 0) as Hz.
  { unfold EventEmitter.listenerCount. by rewrite He0, lookup_empty. }
  assert (MonoEmitter.listenersCount sm0 = 0) as Hmz.
  { unfold MonoEmitter.listenersCount. by rewrite Hm0. }
  split_and!.
  - lia.
  - lia.
  - rewrite registered_removeListener. apply filter_neq_gone.
  - rewrite mono_registered_removeListener. apply filter_neq_gone.
  - intros Hl. rewrite registered_removeListener. by apply filter_neq_absent.
  - intros Hl. rewrite mono_registered_removeListener.
    by apply filter_neq_absent.
  - done.
  - done.
Qed.

Lemma C5_count_added_minus_removed_witness :
  (Z.of_nat (EventEmitter.listenerCount (KStr "x")
     (EventEmitter.removeListener (KStr "x") (Fn 1)
        (EventEmitter.addListener (KStr "x") [Fn 1; Fn 2; Fn 1]
           EventEmitter.new).1)) = 3 - 2)%Z.
Proof.
  refine (proj1 (C5_count_added_minus_removed (KStr "x") (Fn 1)
    [EventEmitter.Register (KStr "x") [Fn 1; Fn 2; Fn 1];
     EventEmitter.Unregister (KStr "x") (Fn 1)]
    EventEmitter.new _
    [MonoEmitter.Register [Fn 1; Fn 2; Fn 1]; MonoEmitter.Unregister (Fn 1)]
    MonoEmitter.new
    (MonoEmitter.removeListener (Fn 1)
       (MonoEmitter.addListener [Fn 1; Fn 2; Fn 1] MonoEmitter.new).1)
    _ _ _ _ _)).
  - reflexivity.
  - vm_compute. reflexivity.
  - apply mono_wf_new.
  - reflexivity.
  - vm_compute. reflexivity.
Defined.

(** ** C6: what resolves a wait *)




(** ** C7: emit and emitSync agree *)

(** C7. On a fixed listener list and with the same arguments, [emitSync]
    invokes the listeners of the list one after the other in the order of
    the list, up to the first that throws, and returns what they returned
    in that order; [emit] does the very same invocations, leaves the same
    state, throws what [emitSync] throws, and otherwise returns
    [Promise.all] of the array that [emitSync] returns, which, when it
    fulfils, holds the awaited results in the order of the list. When no
    listener of the list throws, every one of them is invoked and both
    return. The listeners of these statements make registry calls only;
    for listeners that do anything else but write to an array, to any
    depth, both are still the listeners of the list called one after the
    other in its order. Both emitters. *)
Theorem C7_sync_async_same_order
    (ecode : nat → EventEmitter.body) (ev : key) (args : list value)
    (se : EventEmitter.state)
    (mcode : nat → MonoEmitter.body) (sm : MonoEmitter.state) :
  (EventEmitter.runs_in_order ecode args (EventEmitter.registered ev se) se
     (EventEmitter.emitSync ecode ev args se)
   ∧ (EventEmitter.emit ecode ev args se).1
     = (EventEmitter.emitSync ecode ev args se).1
   ∧ (EventEmitter.emit ecode ev args se).2
     = match (EventEmitter.emitSync ecode ev args se).2 with
       | inl e => inl e
       | inr rs => inr (Promise_all rs)
       end
   ∧ ((∀ x s, x ∈ EventEmitter.registered ev se →
         ∃ r, (EventEmitter.call ecode x args s).2 = inr r) →
      ∃ rs, (EventEmitter.emitSync ecode ev args se).2 = inr rs
        ∧ (EventEmitter.emit ecode ev args se).2 = inr (Promise_all rs)
        ∧ EventEmitter.trace (EventEmitter.emitSync ecode ev args se).1
          = EventEmitter.trace se
            ++ EventEmitter.invocations args (EventEmitter.registered ev se)
        ∧ Forall2 (λ x r, EventEmitter.result_of ecode x args = inr r)
                  (EventEmitter.registered ev se) rs)
   ∧ (∀ rs vs, (EventEmitter.emitSync ecode ev args se).2 = inr rs →
        Promise_all rs = Fulfilled vs →
        vs = map awaited rs
        ∧ Forall2 (λ x v, ∃ r, EventEmitter.result_of ecode x args = inr r
                               ∧ awaited r = v)
                  (EventEmitter.registered ev se) vs)
   ∧ (∀ d pcode, EventEmitterProg.no_array_written pcode →
        EventEmitterProg.emitSync d pcode ev args se
        = EventEmitterProg.invoke_all d pcode
            (EventEmitter.registered ev se) args se
        ∧ EventEmitterProg.emit d pcode ev args se
          = match EventEmitterProg.invoke_all d pcode
                    (EventEmitter.registered ev se) args se with
            | (se', inl e) => (se', inl e)
            | (se', inr rs) => (se', inr (Promise_all rs))
            end))
  ∧ (MonoEmitter.runs_in_order mcode args (MonoEmitter.registered sm) sm
       (MonoEmitter.emitSync mcode args sm)
   ∧ (MonoEmitter.emit mcode args sm).1 = (MonoEmitter.emitSync mcode args sm).1
   ∧ (MonoEmitter.emit mcode args sm).2
     = match (MonoEmitter.emitSync mcode args sm).2 with
       | inl e => inl e
       | inr rs => inr (Promise_all rs)
       end
   ∧ ((∀ x s, x ∈ MonoEmitter.registered sm →
         ∃ r, (MonoEmitter.call mcode x args s).2 = inr r) →
      ∃ rs, (MonoEmitter.emitSync mcode args sm).2 = inr rs
        ∧ (MonoEmitter.emit mcode args sm).2 = inr (Promise_all rs)
        ∧ MonoEmitter.trace (MonoEmitter.emitSync mcode args sm).1
          = MonoEmitter.trace sm
            ++ MonoEmitter.invocations args (MonoEmitter.registered sm)
        ∧ Forall2 (λ x r, MonoEmitter.result_of mcode x args = inr r)
                  (MonoEmitter.registered sm) rs)
   ∧ (∀ rs vs, (MonoEmitter.emitSync mcode args sm).2 = inr rs →
        Promise_all rs = Fulfilled vs →
        vs = map awaited rs
        ∧ Forall2 (λ x v, ∃ r, MonoEmitter.result_of mcode x args = inr r
                               ∧ awaited r = v)
                  (MonoEmitter.registered sm) vs)
   ∧ (∀ d pcode, MonoEmitterProg.no_array_written pcode →
        MonoEmitterProg.emitSync d pcode args sm
        = MonoEmitterProg.invoke_all d pcode (MonoEmitter.registered sm) args sm
        ∧ MonoEmitterProg.emit d pcode args sm
          = match MonoEmitterProg.invoke_all d pcode
                    (MonoEmitter.registered sm) args sm with
            | (sm', inl e) => (sm', inl e)
            | (sm', inr rs) => (sm', inr (Promise_all rs))
            end)).
Proof.
  split.
  - pose proof (emitSync_runs_in_order ecode ev args se) as Hrun.
    rewrite emit_emitSync. simpl.
    destruct (EventEmitter.emitSync ecode ev args se) as [se' r] eqn:Hsync.
    split_and!; [exact Hrun|done|done| | |].
    3:{ intros d pcode Hcode.
        pose proof (prog_emitSync_invoke_all pcode d ev args se Hcode) as Hs.
        split; [exact Hs|].
        unfold EventEmitterProg.emit, EventEmitterProg.emit_with.
        unfold EventEmitterProg.emitSync in Hs. by rewrite Hs. }
    + intros Hret. unfold EventEmitter.runs_in_order in Hrun. simpl in *.
      destruct r as [e|rs].
      * destruct Hrun as (pre & x & post & sa & Hl & _ & Hx & _).
        destruct (Hret x sa) as [r Hr].
        { rewrite Hl. apply elem_of_app. right. by left. }
        rewrite Hx in Hr. done.
      * exists rs. by destruct Hrun.
    + intros rs vs Hr [_ ->]%Promise_all_Fulfilled. simpl in Hr. subst r.
      split; [done|]. apply awaited_in_order. by destruct Hrun.
  - pose proof (mono_emitSync_runs_in_order mcode args sm) as Hrun.
    rewrite mono_emit_emitSync. simpl.
    destruct (MonoEmitter.emitSync mcode args sm) as [sm' r] eqn:Hsync.
    split_and!; [exact Hrun|done|done| | |].
    3:{ intros d pcode Hcode.
        pose proof (mono_prog_emitSync_invoke_all pcode d args sm Hcode) as Hs.
        split; [exact Hs|].
        unfold MonoEmitterProg.emit, MonoEmitterProg.emit_with.
        unfold MonoEmitterProg.emitSync in Hs. by rewrite Hs. }
    + intros Hret. unfold MonoEmitter.runs_in_order in Hrun. simpl in *.
      destruct r as [e|rs].
      * destruct Hrun as (pre & x & post & sa & Hl & _ & Hx & _).
        destruct (Hret x sa) as [r Hr].
        { rewrite Hl. apply elem_of_app. right. by left. }
        rewrite Hx in Hr. done.
      * exists rs. by destruct Hrun.
    + intros rs vs Hr [_ ->]%Promise_all_Fulfilled. simpl in Hr. subst r.
      split; [done|]. apply awaited_in_order. by destruct Hrun.
Qed.

(** Two listeners that return promises, the second settling first: both
    emitters invoke them in the order of the list, and [emit] returns
    [Promise.all] of their results in that order. *)
Lemma C7_sync_async_same_order_witness :
  let ecode := λ f,
    EventEmitter.Body []
      (λ _, inr (Awaitable (10 - f) (inr (Num (Z.of_nat f))))) in
  let mcode := λ f,
    MonoEmitter.Body []
      (λ _, inr (Awaitable (10 - f) (inr (Num (Z.of_nat f))))) in
  let se := (EventEmitter.addListener (KStr "x") [Fn 1; Fn 2]
               EventEmitter.new).1 in
  let sm := (MonoEmitter.addListener [Fn 1; Fn 2] MonoEmitter.new).1 in
  (∃ rs, (EventEmitter.emitSync ecode (KStr "x") [] se).2 = inr rs
     ∧ (EventEmitter.emit ecode (KStr "x") [] se).2 = inr (Promise_all rs)
     ∧ EventEmitter.trace (EventEmitter.emitSync ecode (KStr "x") [] se).1
       = [(Fn 1, []); (Fn 2, [])])
  ∧ (∃ rs, (MonoEmitter.emitSync mcode [] sm).2 = inr rs
     ∧ (MonoEmitter.emit mcode [] sm).2 = inr (Promise_all rs)
     ∧ MonoEmitter.trace (MonoEmitter.emitSync mcode [] sm).1
       = [(Fn 1, []); (Fn 2, [])]).
Proof.
  intros ecode mcode se sm.
  destruct (C7_sync_async_same_order ecode (KStr "x") [] se mcode sm)
    as [(_ & _ & _ & He & _ & _) (_ & _ & _ & Hm & _ & _)].
  split.
  - destruct He as (rs & H1 & H2 & H3 & _).
    + intros x s Hx. unfold EventEmitter.call.
      destruct x as [f|p]; simpl; eauto.
    + exists rs. by split_and!.
  - destruct Hm as (rs & H1 & H2 & H3 & _).
    + intros x s Hx. unfold MonoEmitter.call.
      destruct x as [f|p]; simpl; eauto.
    + exists rs. by split_and!.
Defined.

(** ** C8: a dispatch works on the list it found *)

(** C8 (as amended). As long as no listener writes to an array that the
    accessors hand out, a dispatch, sync or async, is the listeners that
    were registered for the key when it was called, called one after the
    other in the order of that list, up to the first that throws: whatever
    the listeners do meanwhile (registering, removing, clearing, waiting,
    setting limits, dispatching or calling listeners themselves, to any
    depth) changes neither which listeners the dispatch calls nor their
    order. For listeners that make registry calls only, the log of the
    dispatch is exactly that list, in order, with the results in the same
    order. Both emitters. *)
Theorem C8_dispatch_uses_snapshot
    (depth : nat) (args : list value)
    (ecode : nat → list value → EventEmitterProg.prog)
    (ebody : nat → EventEmitter.body) (ev : key) (se : EventEmitter.state)
    (mcode : nat → list value → MonoEmitterProg.prog)
    (mbody : nat → MonoEmitter.body) (sm : MonoEmitter.state) :
  EventEmitterProg.no_array_written ecode →
  MonoEmitterProg.no_array_written mcode →
  (EventEmitterProg.emitSync depth ecode ev args se
   = EventEmitterProg.invoke_all depth ecode
       (EventEmitter.registered ev se) args se
   ∧ EventEmitterProg.emit depth ecode ev args se
     = match EventEmitterProg.invoke_all depth ecode
               (EventEmitter.registered ev se) args se with
       | (se', inl e) => (se', inl e)
       | (se', inr rs) => (se', inr (Promise_all rs))
       end
   ∧ EventEmitter.runs_in_order ebody args (EventEmitter.registered ev se) se
       (EventEmitter.emitSync ebody ev args se)
   ∧ (EventEmitter.emit ebody ev args se).1
     = (EventEmitter.emitSync ebody ev args se).1
   ∧ EventEmitterProg.emitSync (S depth) (EventEmitterProg.of_body ebody)
       ev args se
     = EventEmitter.emitSync ebody ev args se)
  ∧ (MonoEmitterProg.emitSync depth mcode args sm
     = MonoEmitterProg.invoke_all depth mcode
         (MonoEmitter.registered sm) args sm
   ∧ MonoEmitterProg.emit depth mcode args sm
     = match MonoEmitterProg.invoke_all depth mcode
               (MonoEmitter.registered sm) args sm with
       | (sm', inl e) => (sm', inl e)
       | (sm', inr rs) => (sm', inr (Promise_all rs))
       end
   ∧ MonoEmitter.runs_in_order mbody args (MonoEmitter.registered sm) sm
       (MonoEmitter.emitSync mbody args sm)
   ∧ (MonoEmitter.emit mbody args sm).1 = (MonoEmitter.emitSync mbody args sm).1
   ∧ MonoEmitterProg.emitSync (S depth) (MonoEmitterProg.of_body mbody) args sm
     = MonoEmitter.emitSync mbody args sm).
Proof.
  intros He Hm. split.
  - pose proof (prog_emitSync_invoke_all ecode depth ev args se He) as Hs.
    split_and!.
    + exact Hs.
    + unfold EventEmitterProg.emit, EventEmitterProg.emit_with.
      unfold EventEmitterProg.emitSync in Hs. by rewrite Hs.
    + apply emitSync_runs_in_order.
    + by rewrite emit_emitSync.
    + apply of_body_emitSync.
  - pose proof (mono_prog_emitSync_invoke_all mcode depth args sm Hm) as Hs.
    split_and!.
    + exact Hs.
    + unfold MonoEmitterProg.emit, MonoEmitterProg.emit_with.
      unfold MonoEmitterProg.emitSync in Hs. by rewrite Hs.
    + apply mono_emitSync_runs_in_order.
    + by rewrite mono_emit_emitSync.
    + apply mono_of_body_emitSync.
Qed.

(** The first of two listeners registers a third, removes the second,
    waits and calls the third itself: the dispatch still calls the two
    listeners it found. *)
Lemma C8_dispatch_uses_snapshot_witness :
  let mcode := λ (f : nat) (_ : list value),
    match f with
    | 1 =>
        MonoEmitterProg.Ask (MonoEmitterProg.AddListener [Fn 3]) (λ _,
        MonoEmitterProg.Ask (MonoEmitterProg.RemoveListener (Fn 2)) (λ _,
        MonoEmitterProg.Ask (MonoEmitterProg.Wait None) (λ _,
        MonoEmitterProg.Ask (MonoEmitterProg.Invoke (Fn 3) [Str "b"]) (λ _,
        MonoEmitterProg.Return (inr (Plain (Num 1)))))))
    | _ => MonoEmitterProg.Return (inr (Plain (Num (Z.of_nat f))))
    end in
  let sm := (MonoEmitter.addListener [Fn 1; Fn 2] MonoEmitter.new).1 in
  MonoEmitterProg.emitSync 2 mcode [Str "a"] sm
  = MonoEmitterProg.invoke_all 2 mcode [Fn 1; Fn 2] [Str "a"] sm
  ∧ (MonoEmitterProg.emitSync 2 mcode [Str "a"] sm).2
    = inr [Plain (Num 1); Plain (Num 2)]
  ∧ MonoEmitter.registered (MonoEmitterProg.emitSync 2 mcode [Str "a"] sm).1
    = [Fn 1; Fn 3; WaitCallback 0].
Proof.
  intros mcode sm.
  pose proof (C8_dispatch_uses_snapshot 2 [Str "a"]
    (λ _ _, EventEmitterProg.Return (inr (Plain Undefined)))
    (λ _, EventEmitter.Body [] (λ _, inr (Plain Undefined)))
    (KStr "x") EventEmitter.new
    mcode (λ _, MonoEmitter.Body [] (λ _, inr (Plain Undefined))) sm) as H.
  destruct H as [_ (Hm & _)].
  - intros f a. exact I.
  - intros f a. unfold mcode.
    destruct f as [|[|f]]; simpl; repeat first [split | intros ?]; done.
  - split_and!; [exact Hm | vm_compute; reflexivity | vm_compute; reflexivity].
Defined.

(** The claim as worded fails: the accessor hands out the array that the
    dispatch is reading (C9), and the first of two listeners cuts it down
    to one element, [e.listeners.length = 1]: the dispatch returns without
    having called the second listener. *)
Lemma C8_counterexample :
  let code := λ (f : nat) (_ : list value),
    match f with
    | 1 =>
        MonoEmitterProg.Ask MonoEmitterProg.Listeners (λ ans,
          match ans with
          | MonoEmitterProg.ArrayRef a =>
              MonoEmitterProg.Ask (MonoEmitterProg.WriteArray a [Fn 1]) (λ _,
                MonoEmitterProg.Return (inr (Plain Undefined)))
          | _ => MonoEmitterProg.Return (inr (Plain Undefined))
          end)
    | _ => MonoEmitterProg.Return (inr (Plain Undefined))
    end in
  ¬ Stated.dispatch_invokes_captured_list 1 code []
      (MonoEmitter.addListener [Fn 1; Fn 2] MonoEmitter.new).1.
Proof.
  intros code H.
  specialize (H _ _ eq_refl). vm_compute in H. discriminate H.
Qed.

(** A listener that registers a third listener and removes the second one
    while the single-channel emitter dispatches: the dispatch still invokes
    the two listeners it found, and the registry holds the change after. *)
Example mono_dispatch_reentrant :
  let code := λ f,
    match f with
    | 1 => MonoEmitter.Body
             [MonoEmitter.CallAddListener [Fn 3];
              MonoEmitter.CallRemoveListener (Fn 2)]
             (λ _, inr (Plain (Num 1)))
    | _ => MonoEmitter.Body [] (λ _, inr (Plain (Num (Z.of_nat f))))
    end in
  let st := (MonoEmitter.addListener [Fn 1; Fn 2] MonoEmitter.new).1 in
  let res := MonoEmitter.emitSync code [Str "a"] st in
  MonoEmitter.trace res.1 = [(Fn 1, [Str "a"]); (Fn 2, [Str "a"])]
  ∧ res.2 = inr [Plain (Num 1); Plain (Num 2)]
  ∧ MonoEmitter.registered res.1 = [Fn 1; Fn 3].
Proof. vm_compute. done. Qed.

Example keyed_dispatch_reentrant :
  let ev := KStr "x" in
  let code := λ f,
    match f with
    | 1 => EventEmitter.Body
             [EventEmitter.CallAddListener ev [Fn 3];
              EventEmitter.CallRemoveListener ev (Fn 2)]
             (λ _, inr (Plain (Num 1)))
    | _ => EventEmitter.Body [] (λ _, inr (Plain (Num (Z.of_nat f))))
    end in
  let st := (EventEmitter.addListener ev [Fn 1; Fn 2] EventEmitter.new).1 in
  let res := EventEmitter.emit code ev [Str "a"] st in
  EventEmitter.trace res.1 = [(Fn 1, [Str "a"]); (Fn 2, [Str "a"])]
  ∧ res.2 = inr (Fulfilled [Num 1; Num 2])
  ∧ EventEmitter.registered ev res.1 = [Fn 3; Fn 1].
Proof. vm_compute. done. Qed.

(** ** C9: the accessors *)

(** C9 (as amended). The accessor hands out the array the registry itself
    uses: always on the single-channel emitter, and on the keyed emitter
    whenever the key has an entry. A listener pushed onto that array is
    registered: the count grows by one, and the next dispatch invokes the
    listeners there were and then the pushed one, in that order, up to the
    first that throws (for listeners that make registry calls, and for
    listeners that do anything else but write to an array). For a key
    without an entry the keyed accessor hands out a new empty array, and
    pushing onto that one changes nothing. *)
Theorem C9_accessor_is_live
    (l : listener) (args : list value)
    (ecode : nat → EventEmitter.body) (ev ev0 : key) (a : nat)
    (se : EventEmitter.state)
    (mcode : nat → MonoEmitter.body) (sm : MonoEmitter.state) :
  EventEmitter.wf se →
  EventEmitter.events se !! ev = Some a →
  EventEmitter.events se !! ev0 = None →
  MonoEmitter.wf sm →
  let se' := EventEmitter.set_heap (push a [l]) se in
  let sm' := MonoEmitter.set_heap (push (MonoEmitter.get_listeners sm) [l]) sm in
  let fresh := EventEmitter.getListeners ev0 se in
  EventEmitter.getListeners ev se = (se, a)
  ∧ EventEmitter.registered ev se' = EventEmitter.registered ev se ++ [l]
  ∧ EventEmitter.listenerCount ev se' = S (EventEmitter.listenerCount ev se)
  ∧ EventEmitter.runs_in_order ecode args (EventEmitter.registered ev se ++ [l])
      se' (EventEmitter.emitSync ecode ev args se')
  ∧ (∀ d pcode, EventEmitterProg.no_array_written pcode →
       EventEmitterProg.emitSync d pcode ev args se'
       = EventEmitterProg.invoke_all d pcode
           (EventEmitter.registered ev se ++ [l]) args se')
  ∧ (∀ ev', EventEmitter.registered ev'
              (EventEmitter.set_heap (push fresh.2 [l]) fresh.1)
            = EventEmitter.registered ev' se)
  ∧ MonoEmitter.get_listeners sm = MonoEmitter.listeners sm
  ∧ MonoEmitter.registered sm' = MonoEmitter.registered sm ++ [l]
  ∧ MonoEmitter.listenersCount sm' = S (MonoEmitter.listenersCount sm)
  ∧ MonoEmitter.runs_in_order mcode args (MonoEmitter.registered sm ++ [l])
      sm' (MonoEmitter.emitSync mcode args sm')
  ∧ (∀ d pcode, MonoEmitterProg.no_array_written pcode →
       MonoEmitterProg.emitSync d pcode args sm'
       = MonoEmitterProg.invoke_all d pcode
           (MonoEmitter.registered sm ++ [l]) args sm').
Proof.
  intros Hwe Ha H0 Hwm se' sm' fresh.
  assert (Hre : EventEmitter.registered ev se'
                = EventEmitter.registered ev se ++ [l]).
  { unfold EventEmitter.registered, se'; simpl. rewrite Ha.
    apply array_push_same. by eapply Hwe. }
  assert (Hrm : MonoEmitter.registered sm' = MonoEmitter.registered sm ++ [l]).
  { by apply mono_registered_push. }
  split_and!.
  - unfold EventEmitter.getListeners. by rewrite Ha.
  - done.
  - rewrite !listenerCount_registered, Hre, length_app. simpl. lia.
  - rewrite <- Hre. apply emitSync_runs_in_order.
  - intros d pcode Hcode. rewrite <- Hre.
    by apply prog_emitSync_invoke_all.
  - intros ev'. unfold fresh, EventEmitter.getListeners. rewrite H0. simpl.
    unfold EventEmitter.registered; simpl.
    destruct (EventEmitter.events se !! ev') as [b|] eqn:Hb; [|done].
    pose proof (Hwe _ _ Hb) as Hlt.
    rewrite array_push_other by lia. by apply array_alloc_old.
  - done.
  - done.
  - unfold MonoEmitter.listenersCount. rewrite Hrm, length_app. simpl. lia.
  - rewrite <- Hrm. apply mono_emitSync_runs_in_order.
  - intros d pcode Hcode. rewrite <- Hrm.
    by apply mono_prog_emitSync_invoke_all.
Qed.

Lemma C9_accessor_is_live_witness :
  MonoEmitter.listenersCount
    (MonoEmitter.set_heap
       (push (MonoEmitter.get_listeners MonoEmitter.new) [Fn 7])
       MonoEmitter.new)
  = S (MonoEmitter.listenersCount MonoEmitter.new).
Proof.
  pose proof (C9_accessor_is_live (Fn 7) []
    (λ _, EventEmitter.Body [] (λ _, inr (Plain Undefined)))
    (KStr "x") (KStr "y") 0
    (EventEmitter.addListener (KStr "x") [Fn 1] EventEmitter.new).1
    (λ _, MonoEmitter.Body [] (λ _, inr (Plain Undefined)))
    MonoEmitter.new) as H.
  refine (proj1 (proj2 (proj2 (proj2 (proj2 (proj2 (proj2 (proj2 (proj2
            (H _ _ _ _))))))))));
    [apply wf_addListener, wf_new | reflexivity | reflexivity
    | apply mono_wf_new].
Defined.

(** A listener pushed onto the array of the accessor is called by the next
    dispatch, after the one that was registered. *)
Example mono_pushed_listener_is_dispatched :
  let code := λ f, MonoEmitter.Body [] (λ _, inr (Plain (Num (Z.of_nat f)))) in
  let sm := (MonoEmitter.addListener [Fn 1] MonoEmitter.new).1 in
  let sm' := MonoEmitter.set_heap (push (MonoEmitter.get_listeners sm) [Fn 7])
               sm in
  MonoEmitter.emitSync code [] sm'
  = (MonoEmitter.set_trace (λ _, [(Fn 1, []); (Fn 7, [])]) sm',
     inr [Plain (Num 1); Plain (Num 7)]).
Proof. vm_compute. reflexivity. Qed.

(** The claim as worded fails: a listener pushed onto the array that the
    accessor of a new single-channel emitter returns is counted. *)
Lemma C9_counterexample :
  ¬ Stated.accessor_returns_copy (Fn 7) MonoEmitter.new.
Proof. unfold Stated.accessor_returns_copy. vm_compute. discriminate. Qed.

(** ** C10: clear keeps the limits *)

(** C10. [clear] leaves no listener for any key and does not touch the
    limits: they are the ones every register call is tested against
    afterwards, also after further registry calls. Both emitters. *)
Theorem C10_clear_keeps_limits
    (se : EventEmitter.state) (sm : MonoEmitter.state) :
  (∀ ev, EventEmitter.listenerCount ev (EventEmitter.clear se) = 0)
  ∧ EventEmitter.maxListeners (EventEmitter.clear se)
    = EventEmitter.maxListeners se
  ∧ (∀ calls ev ls,
       let se' := (EventEmitter.run_actions calls (EventEmitter.clear se)).1 in
       (EventEmitter.addListener ev ls se').2 = inl LimitExceeded ↔
       ∃ N, EventEmitter.maxListeners se !! ev = Some N ∧ (N + 1 ≠ 0)%Z
            ∧ (N < Z.of_nat (EventEmitter.listenerCount ev se'))%Z)
  ∧ MonoEmitter.listenersCount (MonoEmitter.clear sm) = 0
  ∧ MonoEmitter.maxListenersCount (MonoEmitter.clear sm)
    = MonoEmitter.maxListenersCount sm
  ∧ (∀ calls ls,
       let sm' := (MonoEmitter.run_actions calls (MonoEmitter.clear sm)).1 in
       (MonoEmitter.addListener ls sm').2 = inl LimitExceeded ↔
       ∃ N, MonoEmitter.maxListenersCount sm = Some N ∧ N ≠ 0%Z
            ∧ (N < Z.of_nat (MonoEmitter.listenersCount sm') + 1)%Z).
Proof.
  split_and!.
  - intros ev. by rewrite listenerCount_registered, registered_clear.
  - done.
  - intros calls ev ls se'.
    destruct (run_actions_dispatch_rel [] calls (EventEmitter.clear se))
      as [(_ & _ & Hmax & _) _]. fold se' in Hmax. simpl in Hmax.
    rewrite addListener_throws_iff, limit_reached_iff. by rewrite Hmax.
  - unfold MonoEmitter.listenersCount. by rewrite mono_registered_clear.
  - done.
  - intros calls ls sm'.
    destruct (mono_run_actions_dispatch_rel [] calls (MonoEmitter.clear sm))
      as [(_ & _ & Hmax & _) _]. fold sm' in Hmax. simpl in Hmax.
    rewrite mono_addListener_throws_iff, mono_limit_reached_iff.
    by rewrite Hmax.
Qed.

Lemma C10_clear_keeps_limits_witness :
  let sm := (MonoEmitter.addListener [Fn 1]
               (MonoEmitter.set_maxListenersCount (Some 1%Z) MonoEmitter.new)).1 in
  (MonoEmitter.addListener [Fn 3]
     (MonoEmitter.run_actions [MonoEmitter.CallAddListener [Fn 2]]
        (MonoEmitter.clear sm)).1).2 = inl LimitExceeded.
Proof.
  intros sm.
  destruct (C10_clear_keeps_limits EventEmitter.new sm)
    as (_ & _ & _ & _ & _ & H).
  apply (H [MonoEmitter.CallAddListener [Fn 2]] [Fn 3]).
  exists 1%Z. split_and!; [reflexivity | lia | vm_compute; reflexivity].
Defined.

(** After [clear], a limit of one on the single-channel emitter still
    refuses the second listener. *)
Example mono_limit_after_clear :
  let st := MonoEmitter.clear
    (MonoEmitter.addListener [Fn 1]
       (MonoEmitter.set_maxListenersCount (Some 1%Z) MonoEmitter.new)).1 in
  MonoEmitter.listenersCount st = 0
  ∧ (MonoEmitter.addListener [Fn 2] st).2 = inr ()
  ∧ (MonoEmitter.addListener [Fn 3] (MonoEmitter.addListener [Fn 2] st).1).2
    = inl LimitExceeded.
Proof. vm_compute. done. Qed.

(** * Further properties of the code *)



(** Two calls on the keyed emitter, then a dispatch: the listener of the
    second call is invoked first. *)
Example keyed_dispatch_latest_call_first :
  let code := λ f, EventEmitter.Body [] (λ _, inr (Plain (Num (Z.of_nat f)))) in
  let se := (EventEmitter.addListener (KStr "x") [Fn 3]
               (EventEmitter.addListener (KStr "x") [Fn 1; Fn 2]
                  EventEmitter.new).1).1 in
  EventEmitter.emitSync code (KStr "x") [] se
  = (EventEmitter.set_trace (λ _, [(Fn 3, []); (Fn 1, []); (Fn 2, [])]) se,
     inr [Plain (Num 3); Plain (Num 1); Plain (Num 2)]).
Proof. vm_compute. reflexivity. Qed.

(** X2. As long as every register call hands over one listener, a
    positive limit [N] bounds the count: on MonoEmitter the count never
    passes [N]; on EventEmitter it never passes [N + 1], whatever calls
    register and unregister on any event. *)
Theorem X2_limit_bounds_count
    (N : Z) (ev : key)
    (ops : list EventEmitter.op) (se se' : EventEmitter.state)
    (mops : list MonoEmitter.op) (sm sm' : MonoEmitter.state) :
  (0 < N)%Z →
  EventEmitterExt.one_at_a_time ops →
  EventEmitter.wf se →
  EventEmitter.maxListeners se !! ev = Some N →
  (Z.of_nat (EventEmitter.listenerCount ev se) ≤ N + 1)%Z →
  EventEmitter.run ops se = Some se' →
  MonoEmitterExt.one_at_a_time mops →
  MonoEmitter.wf sm →
  MonoEmitter.maxListenersCount sm = Some N →
  (Z.of_nat (MonoEmitter.listenersCount sm) ≤ N)%Z →
  MonoEmitter.run mops sm = Some sm' →
  (Z.of_nat (EventEmitter.listenerCount ev se') ≤ N + 1)%Z
  ∧ (Z.of_nat (MonoEmitter.listenersCount sm') ≤ N)%Z.
Proof.
  intros HN Hone Hwf Hmax Hb Hrun Hmone Hmwf Hmmax Hmb Hmrun. split.
  - apply (run_count_bound ev N ops se se'); auto with lia.
  - apply (mono_run_count_bound N mops sm sm'); auto with lia.
Qed.

(** Two listeners stay under a limit of one on EventEmitter: the bound
    [N + 1] is reached. *)
Lemma X2_limit_bounds_count_witness :
  (Z.of_nat (EventEmitter.listenerCount (KStr "x")
     (EventEmitter.addListener (KStr "x") [Fn 2]
        (EventEmitter.addListener (KStr "x") [Fn 1]
           (EventEmitter.set_maxListeners <[KStr "x" := 1%Z]>
              EventEmitter.new)).1).1) ≤ 1 + 1)%Z.
Proof.
  refine (proj1 (X2_limit_bounds_count 1 (KStr "x")
    [EventEmitter.Register (KStr "x") [Fn 1];
     EventEmitter.Register (KStr "x") [Fn 2]]
    (EventEmitter.set_maxListeners <[KStr "x" := 1%Z]> EventEmitter.new) _
    [MonoEmitter.Register [Fn 1]; MonoEmitter.Unregister (Fn 1)]
    (MonoEmitter.set_maxListenersCount (Some 1%Z) MonoEmitter.new)
    (MonoEmitter.removeListener (Fn 1)
       (MonoEmitter.addListener [Fn 1]
          (MonoEmitter.set_maxListenersCount (Some 1%Z) MonoEmitter.new)).1)
    _ _ _ _ _ _ _ _ _ _ _)).
  - lia.
  - repeat constructor.
  - apply wf_new.
  - reflexivity.
  - vm_compute. discriminate.
  - vm_compute. reflexivity.
  - repeat constructor.
  - apply mono_wf_new.
  - reflexivity.
  - vm_compute. discriminate.
  - vm_compute. reflexivity.
Defined.

(** X3. [removeListeners(event)] empties the list of that event alone and
    touches neither the other events, nor the limits, nor a promise; a
    dispatch on the event then invokes nothing and returns no result
    ([emit] fulfils with the empty list); for an event without an entry it
    changes nothing at all. *)
Theorem X3_removeListeners_drops_one_event
    (ev : key) (code : nat → EventEmitter.body) (args : list value)
    (st : EventEmitter.state) :
  let st' := EventEmitter.removeListeners ev st in
  EventEmitter.listenerCount ev st' = 0
  ∧ (∀ ev', ev' ≠ ev →
       EventEmitter.registered ev' st' = EventEmitter.registered ev' st)
  ∧ EventEmitter.maxListeners st' = EventEmitter.maxListeners st
  ∧ (∀ p, EventEmitter.promise_of p st' = EventEmitter.promise_of p st)
  ∧ EventEmitter.emitSync code ev args st' = (st', inr [])
  ∧ EventEmitter.emit code ev args st' = (st', inr (Fulfilled []))
  ∧ (EventEmitter.events st !! ev = None → st' = st).
Proof.
  intros st'. subst st'. split_and!.
  - by rewrite listenerCount_registered, registered_removeListeners.
  - intros ev' Hne. unfold EventEmitter.registered; simpl.
    by rewrite lookup_delete_ne.
  - done.
  - done.
  - unfold EventEmitter.emitSync; simpl. by rewrite lookup_delete_eq.
  - unfold EventEmitter.emit, EventEmitter.emitSync; simpl.
    by rewrite lookup_delete_eq.
  - intros Hn. apply set_events_id. by apply delete_id.
Qed.

(** X4. Removing a listener twice is removing it once, and two removals can
    be swapped: the registered lists come out the same. Both emitters. *)
Theorem X4_removeListener_idempotent_commutes
    (ev ev1 ev2 : key) (l1 l2 : listener)
    (se : EventEmitter.state) (sm : MonoEmitter.state) :
  EventEmitter.wf se →
  EventEmitter.registered ev
    (EventEmitter.removeListener ev1 l1 (EventEmitter.removeListener ev1 l1 se))
  = EventEmitter.registered ev (EventEmitter.removeListener ev1 l1 se)
  ∧ EventEmitter.registered ev
      (EventEmitter.removeListener ev1 l1 (EventEmitter.removeListener ev2 l2 se))
    = EventEmitter.registered ev
        (EventEmitter.removeListener ev2 l2 (EventEmitter.removeListener ev1 l1 se))
  ∧ MonoEmitter.registered
      (MonoEmitter.removeListener l1 (MonoEmitter.removeListener l1 sm))
    = MonoEmitter.registered (MonoEmitter.removeListener l1 sm)
  ∧ MonoEmitter.registered
      (MonoEmitter.removeListener l1 (MonoEmitter.removeListener l2 sm))
    = MonoEmitter.registered
        (MonoEmitter.removeListener l2 (MonoEmitter.removeListener l1 sm)).
Proof.
  intros Hwf.
  destruct (step_Unregister_registered ev ev1 l1 se Hwf) as [Hwf1 H1].
  destruct (step_Unregister_registered ev ev2 l2 se Hwf) as [Hwf2 H2].
  destruct (step_Unregister_registered ev ev1 l1 _ Hwf1) as [_ H11].
  destruct (step_Unregister_registered ev ev1 l1 _ Hwf2) as [_ H12].
  destruct (step_Unregister_registered ev ev2 l2 _ Hwf1) as [_ H21].
  split_and!.
  - rewrite H11, H1. destruct (decide (ev1 = ev)); [|done].
    apply filter_neq_idemp.
  - rewrite H12, H21, H1, H2.
    destruct (decide (ev1 = ev)), (decide (ev2 = ev)); try done.
    apply filter_neq_comm.
  - rewrite !mono_registered_removeListener. apply filter_neq_idemp.
  - rewrite !mono_registered_removeListener. apply filter_neq_comm.
Qed.

Lemma X4_removeListener_idempotent_commutes_witness :
  MonoEmitter.registered
    (MonoEmitter.removeListener (Fn 1)
       (MonoEmitter.removeListener (Fn 2)
          (MonoEmitter.addListener [Fn 1; Fn 2; Fn 3] MonoEmitter.new).1))
  = MonoEmitter.registered
      (MonoEmitter.removeListener (Fn 2)
         (MonoEmitter.removeListener (Fn 1)
            (MonoEmitter.addListener [Fn 1; Fn 2; Fn 3] MonoEmitter.new).1)).
Proof.
  exact (proj2 (proj2 (proj2 (X4_removeListener_idempotent_commutes
    (KStr "x") (KStr "x") (KStr "y") (Fn 1) (Fn 2) EventEmitter.new
    (MonoEmitter.addListener [Fn 1; Fn 2; Fn 3] MonoEmitter.new).1
    wf_new)))).
Defined.

(** X5. Registering a listener that was not registered, any number of
    times in one call, and then removing it gives back the lists there were;
    no other event is touched. Both emitters. *)
Theorem X5_register_unregister_round_trip
    (ev : key) (l : listener) (n : nat)
    (se se1 : EventEmitter.state) (sm sm1 : MonoEmitter.state) :
  EventEmitter.wf se →
  l ∉ EventEmitter.registered ev se →
  EventEmitter.addListener ev (replicate n l) se = (se1, inr ()) →
  MonoEmitter.wf sm →
  l ∉ MonoEmitter.registered sm →
  MonoEmitter.addListener (replicate n l) sm = (sm1, inr ()) →
  (∀ ev', EventEmitter.registered ev' (EventEmitter.removeListener ev l se1)
          = EventEmitter.registered ev' se)
  ∧ MonoEmitter.registered (MonoEmitter.removeListener l sm1)
    = MonoEmitter.registered sm.
Proof.
  intros Hwf Hl Hadd Hmwf Hml Hmadd. split.
  - intros ev'.
    assert (Hs : EventEmitter.step
              (EventEmitter.Register ev (replicate n l)) se = Some se1).
    { simpl. by rewrite Hadd. }
    destruct (step_Register_registered ev' _ _ _ _ Hwf Hs) as [Hwf1 Hr1].
    destruct (step_Unregister_registered ev' ev l se1 Hwf1) as [_ Hr2].
    rewrite Hr2, Hr1. destruct (decide (ev = ev')) as [<-|]; [|done].
    rewrite filter_app, filter_neq_replicate. simpl.
    by apply filter_neq_absent.
  - rewrite mono_registered_removeListener.
    rewrite (mono_registered_addListener _ _ _ Hmwf Hmadd).
    rewrite filter_app, filter_neq_replicate, app_nil_r.
    by apply filter_neq_absent.
Qed.

Lemma X5_register_unregister_round_trip_witness :
  MonoEmitter.registered
    (MonoEmitter.removeListener (Fn 9)
       (MonoEmitter.addListener [Fn 9; Fn 9]
          (MonoEmitter.addListener [Fn 1] MonoEmitter.new).1).1)
  = [Fn 1].
Proof.
  refine (proj2 (X5_register_unregister_round_trip (KStr "x") (Fn 9) 2
    (EventEmitter.addListener (KStr "x") [Fn 1] EventEmitter.new).1
    (EventEmitter.addListener (KStr "x") [Fn 9; Fn 9]
       (EventEmitter.addListener (KStr "x") [Fn 1] EventEmitter.new).1).1
    (MonoEmitter.addListener [Fn 1] MonoEmitter.new).1
    (MonoEmitter.addListener [Fn 9; Fn 9]
       (MonoEmitter.addListener [Fn 1] MonoEmitter.new).1).1
    _ _ _ _ _ _)).
  - apply wf_addListener, wf_new.
  - vm_compute. intros H. apply list_elem_of_singleton in H. discriminate H.
  - vm_compute. reflexivity.
  - apply mono_wf_addListener, mono_wf_new.
  - vm_compute. intros H. apply list_elem_of_singleton in H. discriminate H.
  - vm_compute. reflexivity.
Defined.

(** X6. On EventEmitter a [wait] made when the limit test of [addListener]
    fails returns a promise that is already rejected with the limit error:
    no listener is registered, no timer is set whatever the timeout, and no
    later dispatch changes the promise. *)
Theorem X6_wait_at_limit_is_rejected
    (ev : key) (timeout : option Z) (st : EventEmitter.state)
    (code : nat → EventEmitter.body) (ev' : key) (args : list value) :
  EventEmitter.limit_reached ev st = true →
  let p := (EventEmitter.wait ev timeout st).2 in
  let st1 := (EventEmitter.wait ev timeout st).1 in
  EventEmitter.promise_of p st1 = Some (Rejected LimitExceeded)
  ∧ EventEmitter.events st1 = EventEmitter.events st
  ∧ EventEmitter.heap st1 = EventEmitter.heap st
  ∧ EventEmitter.timers st1 = EventEmitter.timers st
  ∧ EventEmitter.promise_of p (EventEmitter.emitSync code ev' args st1).1
    = Some (Rejected LimitExceeded).
Proof.
  intros Hl p st1. unfold p, st1. rewrite wait_refused by done. simpl.
  assert (Hp : EventEmitter.promise_of (length (EventEmitter.waits st))
            (EventEmitter.set_waits
               (λ w, w ++ [EventEmitter.Closure ev (Rejected LimitExceeded) false])
               st) = Some (Rejected LimitExceeded)).
  { unfold EventEmitter.promise_of; simpl.
    by rewrite lookup_app_r, Nat.sub_diag by lia. }
  split_and!; [done|done|done|done|].
  by apply promise_of_settled.
Qed.

Lemma X6_wait_at_limit_is_rejected_witness :
  let st := (EventEmitter.addListener (KStr "x") [Fn 1; Fn 2]
               (EventEmitter.set_maxListeners <[KStr "x" := 1%Z]>
                  EventEmitter.new)).1 in
  EventEmitter.promise_of (EventEmitter.wait (KStr "x") (Some 50%Z) st).2
    (EventEmitter.wait (KStr "x") (Some 50%Z) st).1
  = Some (Rejected LimitExceeded).
Proof.
  intros st.
  refine (proj1 (X6_wait_at_limit_is_rejected (KStr "x") (Some 50%Z) st
    (λ _, EventEmitter.Body [] (λ _, inr (Plain Undefined))) (KStr "x") [] _)).
  vm_compute. reflexivity.
Defined.

(** X7. [wait] on MonoEmitter pushes its callback without the limit test:
    where [addListener] fails with the limit error, [wait] still registers
    its callback and returns a pending promise, and the count is then above
    the limit. *)
Theorem X7_mono_wait_ignores_the_limit
    (timeout : option Z) (ls : list listener) (st : MonoEmitter.state) :
  MonoEmitter.wf st →
  MonoEmitter.limit_reached st = true →
  let p := (MonoEmitter.wait timeout st).2 in
  let st1 := (MonoEmitter.wait timeout st).1 in
  (MonoEmitter.addListener ls st).2 = inl LimitExceeded
  ∧ MonoEmitter.promise_of p st1 = Some Pending
  ∧ MonoEmitter.registered st1 = MonoEmitter.registered st ++ [WaitCallback p]
  ∧ ∃ N, MonoEmitter.maxListenersCount st1 = Some N
         ∧ (N < Z.of_nat (MonoEmitter.listenersCount st1))%Z.
Proof.
  intros Hwf Hl p st1.
  destruct (mono_wait_returns timeout st Hwf) as (Hp2 & _ & Hr & _).
  fold p in Hp2. fold st1 in Hr. rewrite <- Hp2 in Hr.
  split_and!.
  - by apply mono_addListener_throws_iff.
  - apply mono_promise_of_wait.
  - exact Hr.
  - apply mono_limit_reached_iff in Hl as (N & HN & _ & Hlt). exists N. split.
    + unfold st1, MonoEmitter.wait.
      by destruct timeout as [t|]; [destruct (truthy t)|].
    + unfold MonoEmitter.listenersCount in *. rewrite Hr, length_app. simpl.
      lia.
Qed.

Lemma X7_mono_wait_ignores_the_limit_witness :
  let st := (MonoEmitter.addListener [Fn 1]
               (MonoEmitter.set_maxListenersCount (Some 1%Z) MonoEmitter.new)).1 in
  MonoEmitter.registered (MonoEmitter.wait None st).1
  = MonoEmitter.registered st ++ [WaitCallback (MonoEmitter.wait None st).2].
Proof.
  intros st.
  refine (proj1 (proj2 (proj2
    (X7_mono_wait_ignores_the_limit None [Fn 2] st _ _)))).
  - apply mono_wf_addListener, mono_wf_new.
  - vm_compute. reflexivity.
Defined.

(** X8. A [wait] without a timeout, or with the timeout zero, sets no
    timer: afterwards the timers are those there were, and no timer of that
    call can ever run. Both emitters. *)
Theorem X8_no_timeout_no_timer
    (ev : key) (timeout : option Z)
    (se : EventEmitter.state) (sm : MonoEmitter.state) :
  timeout = None ∨ timeout = Some 0%Z →
  length (EventEmitter.waits se) ∉ (EventEmitter.timers se).*1 →
  length (MonoEmitter.waits sm) ∉ (MonoEmitter.timers sm).*1 →
  let we := EventEmitter.wait ev timeout se in
  let wm := MonoEmitter.wait timeout sm in
  EventEmitter.timers we.1 = EventEmitter.timers se
  ∧ EventEmitter.run_timer we.2 we.1 = we.1
  ∧ MonoEmitter.timers wm.1 = MonoEmitter.timers sm
  ∧ MonoEmitter.run_timer wm.2 wm.1 = wm.1.
Proof.
  intros Ht Hfe Hfm we wm.
  assert (Hte : EventEmitter.timers we.1 = EventEmitter.timers se).
  { unfold we. destruct (EventEmitter.limit_reached ev se) eqn:Hl.
    - by rewrite wait_refused.
    - destruct (wait_returns ev timeout se Hl) as (_ & _ & _ & -> & _).
      destruct Ht as [->| ->]; simpl; by rewrite app_nil_r. }
  assert (Htm : MonoEmitter.timers wm.1 = MonoEmitter.timers sm).
  { unfold wm, MonoEmitter.wait. by destruct Ht as [->| ->]. }
  split_and!; [done| |done|].
  - pose proof (wait_number ev timeout se) as Hn. fold we in Hn.
    unfold EventEmitter.run_timer. rewrite Hte, Hn.
    by rewrite bool_decide_eq_false_2.
  - pose proof (mono_wait_number timeout sm) as Hn. fold wm in Hn.
    unfold MonoEmitter.run_timer. rewrite Htm, Hn.
    by rewrite bool_decide_eq_false_2.
Qed.

Lemma X8_no_timeout_no_timer_witness :
  EventEmitter.timers
    (EventEmitter.wait (KStr "x") (Some 0%Z) EventEmitter.new).1 = [].
Proof.
  refine (proj1 (X8_no_timeout_no_timer (KStr "x") (Some 0%Z)
    EventEmitter.new MonoEmitter.new _ _ _)).
  - by right.
  - apply not_elem_of_nil.
  - apply not_elem_of_nil.
Defined.



(** X10. With listeners that call no method of the emitter, [emitSync]
    throws exactly when some registered listener throws, and then it throws
    what the first such listener in dispatch order throws; the listeners up
    to that one have been invoked and none after it; [emit] throws the same
    exception itself, instead of returning a rejected promise. Both
    emitters. *)
Theorem X10_first_throwing_listener_aborts_dispatch
    (args : list value)
    (ecode : nat → EventEmitter.body) (ev : key) (se : EventEmitter.state)
    (mcode : nat → MonoEmitter.body) (sm : MonoEmitter.state) :
  EventEmitterExt.pure_code ecode →
  MonoEmitterExt.pure_code mcode →
  ((∀ e, (EventEmitter.emitSync ecode ev args se).2 = inl e
         ↔ ∃ pre x, EventEmitterExt.throws_first ecode args
                      (EventEmitter.registered ev se) pre x e)
   ∧ (∀ pre x e,
        EventEmitterExt.throws_first ecode args
          (EventEmitter.registered ev se) pre x e →
        EventEmitter.trace (EventEmitter.emitSync ecode ev args se).1
          = EventEmitter.trace se ++ EventEmitter.invocations args (pre ++ [x])
        ∧ (EventEmitter.emit ecode ev args se).2 = inl e))
  ∧ ((∀ e, (MonoEmitter.emitSync mcode args sm).2 = inl e
         ↔ ∃ pre x, MonoEmitterExt.throws_first mcode args
                      (MonoEmitter.registered sm) pre x e)
   ∧ (∀ pre x e,
        MonoEmitterExt.throws_first mcode args
          (MonoEmitter.registered sm) pre x e →
        MonoEmitter.trace (MonoEmitter.emitSync mcode args sm).1
          = MonoEmitter.trace sm ++ MonoEmitter.invocations args (pre ++ [x])
        ∧ (MonoEmitter.emit mcode args sm).2 = inl e)).
Proof.
  intros Hpe Hpm. split.
  - rewrite emit_emitSync.
    destruct (EventEmitter.emitSync ecode ev args se) as [st' r] eqn:Hsync.
    pose proof (pure_emitSync_outcome ecode args Hpe ev se st' r Hsync) as Hout.
    destruct r as [e0|rs]; simpl.
    + destruct Hout as (pre0 & x0 & post0 & Heq & Hok & Hx & Htr). split.
      * intros e. split.
        -- intros [= <-]. exists pre0, x0, post0. by split_and!.
        -- intros (pre & x & post & Heq' & Hok' & Hx'). rewrite Heq in Heq'.
           destruct (first_thrower_unique ecode args _ _ _ _ _ _ _ _
                       Heq' Hok Hok' Hx Hx') as (_ & _ & ->). done.
      * intros pre x e (post & Heq' & Hok' & Hx'). rewrite Heq in Heq'.
        destruct (first_thrower_unique ecode args _ _ _ _ _ _ _ _
                    Heq' Hok Hok' Hx Hx') as (<- & <- & <-). done.
    + destruct Hout as [Hall _].
      assert (Hno : ∀ pre x e,
                ¬ EventEmitterExt.throws_first ecode args
                    (EventEmitter.registered ev se) pre x e).
      { intros pre x e (post & Heq & _ & Hx). rewrite Heq in Hall.
        apply Forall2_app_inv_l in Hall as (k1 & k2 & _ & Hk2 & _).
        apply Forall2_cons_inv_l in Hk2 as (v & k & Hv & _ & _). congruence. }
      split.
      * intros e. split; [done|]. intros (pre & x & H). by destruct (Hno _ _ _ H).
      * intros pre x e H. by destruct (Hno _ _ _ H).
  - rewrite mono_emit_emitSync.
    destruct (MonoEmitter.emitSync mcode args sm) as [st' r] eqn:Hsync.
    pose proof (mono_pure_emitSync_outcome mcode args Hpm sm st' r Hsync) as Hout.
    destruct r as [e0|rs]; simpl.
    + destruct Hout as (pre0 & x0 & post0 & Heq & Hok & Hx & Htr). split.
      * intros e. split.
        -- intros [= <-]. exists pre0, x0, post0. by split_and!.
        -- intros (pre & x & post & Heq' & Hok' & Hx'). rewrite Heq in Heq'.
           destruct (mono_first_thrower_unique mcode args _ _ _ _ _ _ _ _
                       Heq' Hok Hok' Hx Hx') as (_ & _ & ->). done.
      * intros pre x e (post & Heq' & Hok' & Hx'). rewrite Heq in Heq'.
        destruct (mono_first_thrower_unique mcode args _ _ _ _ _ _ _ _
                    Heq' Hok Hok' Hx Hx') as (<- & <- & <-). done.
    + destruct Hout as [Hall _].
      assert (Hno : ∀ pre x e,
                ¬ MonoEmitterExt.throws_first mcode args
                    (MonoEmitter.registered sm) pre x e).
      { intros pre x e (post & Heq & _ & Hx). rewrite Heq in Hall.
        apply Forall2_app_inv_l in Hall as (k1 & k2 & _ & Hk2 & _).
        apply Forall2_cons_inv_l in Hk2 as (v & k & Hv & _ & _). congruence. }
      split.
      * intros e. split; [done|]. intros (pre & x & H). by destruct (Hno _ _ _ H).
      * intros pre x e H. by destruct (Hno _ _ _ H).
Qed.

Lemma X10_first_throwing_listener_aborts_dispatch_witness :
  let ecode := λ f, EventEmitter.Body []
                 (λ _, if Nat.even f then inl (Thrown (Num (Z.of_nat f)))
                       else inr (Plain Undefined)) in
  let se := (EventEmitter.addListener (KStr "x") [Fn 1; Fn 2; Fn 3; Fn 4]
               EventEmitter.new).1 in
  EventEmitter.trace (EventEmitter.emitSync ecode (KStr "x") [] se).1
    = [(Fn 1, []); (Fn 2, [])]
  ∧ (EventEmitter.emit ecode (KStr "x") [] se).2 = inl (Thrown (Num 2)).
Proof.
  intros ecode se.
  refine (proj2 (proj1 (X10_first_throwing_listener_aborts_dispatch []
    ecode (KStr "x") se
    (λ _, MonoEmitter.Body [] (λ _, inr (Plain Undefined))) MonoEmitter.new
    _ _)) [Fn 1] (Fn 2) (Thrown (Num 2)) _).
  - intros f. reflexivity.
  - intros f. reflexivity.
  - exists [Fn 3; Fn 4]. split_and!.
    + reflexivity.
    + repeat constructor. by exists (Plain Undefined).
    + reflexivity.
Defined.

(** X11. With listeners that call no method of the emitter, a dispatch
    that returns leaves registered exactly the user listeners that were
    registered, in their order: every callback of a [wait] (so of a [once]
    or an iterator too) has removed itself, its promise, if pending, is
    fulfilled with the arguments, and the lists of the other events are
    unchanged. Both emitters. *)
Theorem X11_dispatch_consumes_the_wait_callbacks
    (args : list value)
    (ecode : nat → EventEmitter.body) (ev : key)
    (se se' : EventEmitter.state) (rs : list ret)
    (mcode : nat → MonoEmitter.body)
    (sm sm' : MonoEmitter.state) (mrs : list ret) :
  EventEmitterExt.pure_code ecode →
  EventEmitter.wf se →
  (∀ q, WaitCallback q ∈ EventEmitter.registered ev se →
        ∃ w, EventEmitter.waits se !! q = Some w ∧ EventEmitter.event w = ev) →
  EventEmitter.emitSync ecode ev args se = (se', inr rs) →
  MonoEmitterExt.pure_code mcode →
  (∀ q, WaitCallback q ∈ MonoEmitter.registered sm →
        is_Some (MonoEmitter.waits sm !! q)) →
  MonoEmitter.emitSync mcode args sm = (sm', inr mrs) →
  (EventEmitter.registered ev se' = filter is_user (EventEmitter.registered ev se)
   ∧ (∀ ev', ev' ≠ ev →
        EventEmitter.registered ev' se' = EventEmitter.registered ev' se)
   ∧ (∀ q, WaitCallback q ∈ EventEmitter.registered ev se →
        EventEmitter.promise_of q se = Some Pending →
        EventEmitter.promise_of q se' = Some (Fulfilled args)))
  ∧ (MonoEmitter.registered sm' = filter is_user (MonoEmitter.registered sm)
   ∧ (∀ q, WaitCallback q ∈ MonoEmitter.registered sm →
        MonoEmitter.promise_of q sm = Some Pending →
        MonoEmitter.promise_of q sm' = Some (Fulfilled args))).
Proof.
  intros Hpe Hwf Hcl Hsync Hpm Hmcl Hmsync. split.
  - destruct (pure_emitSync_registry ecode args Hpe ev se se' rs Hwf Hcl Hsync)
      as [Hr Ho].
    split_and!; [exact Hr | exact Ho |].
    intros q Hin Hp. by apply (emitSync_resolves ecode ev args q se se' rs).
  - split.
    + by apply (mono_pure_emitSync_registry mcode args Hpm sm sm' mrs).
    + intros q Hin Hp.
      by apply (mono_emitSync_resolves mcode args q sm sm' mrs).
Qed.

Lemma X11_dispatch_consumes_the_wait_callbacks_witness :
  let ecode := λ f, EventEmitter.Body [] (λ _, inr (Plain Undefined)) in
  let mcode := λ f, MonoEmitter.Body [] (λ _, inr (Plain Undefined)) in
  let se := (EventEmitter.wait (KStr "x") None
               (EventEmitter.addListener (KStr "x") [Fn 1]
                  EventEmitter.new).1).1 in
  let sm := (MonoEmitter.wait None
               (MonoEmitter.addListener [Fn 1] MonoEmitter.new).1).1 in
  EventEmitter.registered (KStr "x")
    (EventEmitter.emitSync ecode (KStr "x") [Num 7] se).1 = [Fn 1]
  ∧ MonoEmitter.registered (MonoEmitter.emitSync mcode [Num 7] sm).1 = [Fn 1].
Proof.
  intros ecode mcode se sm.
  pose proof (X11_dispatch_consumes_the_wait_callbacks [Num 7]
    ecode (KStr "x") se (EventEmitter.emitSync ecode (KStr "x") [Num 7] se).1
    [Plain Undefined; Plain Undefined]
    mcode sm (MonoEmitter.emitSync mcode [Num 7] sm).1
    [Plain Undefined; Plain Undefined]) as H.
  destruct H as [(He & _) (Hm & _)].
  - intros f. reflexivity.
  - apply wf_wait, wf_addListener, wf_new.
  - intros q Hq. vm_compute in Hq.
    apply elem_of_cons in Hq as [[= ->]|Hq].
    + eexists. split; reflexivity.
    + apply elem_of_cons in Hq as [[=]|Hq]. by apply elem_of_nil in Hq.
  - vm_compute. reflexivity.
  - intros f. reflexivity.
  - intros q Hq. vm_compute in Hq.
    apply elem_of_cons in Hq as [[=]|Hq].
    apply elem_of_cons in Hq as [[= ->]|Hq].
    + eexists. reflexivity.
    + by apply elem_of_nil in Hq.
  - vm_compute. reflexivity.
  - split; [exact He | exact Hm].
Defined.



(** [once] with two listeners, then an emission, then the rest of [once]:
    both listeners are invoked, in the order given, with the arguments of
    the emission, and the promise of [once] is fulfilled. *)
Example once_runs_both_listeners :
  let code := λ f, EventEmitter.Body [] (λ _, inr (Plain (Num (Z.of_nat f)))) in
  let o := EventEmitterExt.once (KStr "x") [Fn 1; Fn 2] EventEmitter.new in
  let st2 := (EventEmitter.emitSync code (KStr "x") [Num 7] o.1).1 in
  let res := EventEmitterExt.once_resume code o.2 st2 in
  EventEmitter.trace st2 = [(WaitCallback 0, [Num 7])]
  ∧ EventEmitter.trace res.1
    = [(WaitCallback 0, [Num 7]); (Fn 1, [Num 7]); (Fn 2, [Num 7])]
  ∧ res.2 = Some (Fulfilled ()).
Proof. vm_compute. done. Qed.

(** X13. [once] on EventEmitter made when the limit test of [addListener]
    fails: the promise of [once] is rejected with the limit error, and its
    listeners are never invoked, whatever is dispatched afterwards. *)
Theorem X13_once_at_limit_never_runs
    (code : nat → EventEmitter.body) (ev : key) (ls : list listener)
    (st : EventEmitter.state)
    (code' : nat → EventEmitter.body) (ev' : key) (args : list value) :
  EventEmitter.limit_reached ev st = true →
  let fr := (EventEmitterExt.once ev ls st).2 in
  let st1 := (EventEmitterExt.once ev ls st).1 in
  let st2 := (EventEmitter.emitSync code' ev' args st1).1 in
  (∀ ev0, EventEmitter.registered ev0 st1 = EventEmitter.registered ev0 st)
  ∧ EventEmitterExt.once_resume code fr st1 = (st1, Some (Rejected LimitExceeded))
  ∧ EventEmitterExt.once_resume code fr st2 = (st2, Some (Rejected LimitExceeded)).
Proof.
  intros Hl fr st1 st2.
  assert (Hp : EventEmitter.promise_of (EventEmitterExt.awaited_wait fr) st1
               = Some (Rejected LimitExceeded)).
  { unfold fr, st1, EventEmitterExt.once; simpl. rewrite wait_refused by done.
    unfold EventEmitter.promise_of; simpl.
    by rewrite lookup_app_r, Nat.sub_diag by lia. }
  split_and!.
  - intros ev0. unfold st1, EventEmitterExt.once; simpl.
    by rewrite wait_refused.
  - by apply once_resume_rejected.
  - apply once_resume_rejected. by apply promise_of_settled.
Qed.

Lemma X13_once_at_limit_never_runs_witness :
  let code := λ f, EventEmitter.Body [] (λ _, inr (Plain Undefined)) in
  let st := (EventEmitter.addListener (KStr "x") [Fn 1; Fn 2]
               (EventEmitter.set_maxListeners <[KStr "x" := 1%Z]>
                  EventEmitter.new)).1 in
  let o := EventEmitterExt.once (KStr "x") [Fn 5] st in
  EventEmitterExt.once_resume code o.2 o.1 = (o.1, Some (Rejected LimitExceeded)).
Proof.
  intros code st o.
  refine (proj1 (proj2 (X13_once_at_limit_never_runs code (KStr "x") [Fn 5] st
    code (KStr "x") [] _))).
  vm_compute. reflexivity.
Defined.



(** The second of the two listeners of [once] throws: both are invoked, and
    the promise of [once] is rejected with what it threw. *)
Example mono_once_rejects_with_the_throw :
  let code := λ f,
    match f with
    | 2 => MonoEmitter.Body [] (λ _, inl (Thrown (Str "boom")))
    | _ => MonoEmitter.Body [] (λ _, inr (Plain Undefined))
    end in
  let o := MonoEmitterExt.once [Fn 1; Fn 2; Fn 3] MonoEmitter.new in
  let st2 := (MonoEmitter.emitSync code [Num 7] o.1).1 in
  let res := MonoEmitterExt.once_resume code o.2 st2 in
  MonoEmitter.trace res.1
  = [(WaitCallback 0, [Num 7]); (Fn 1, [Num 7]); (Fn 2, [Num 7])]
  ∧ res.2 = Some (Rejected (Thrown (Str "boom"))).
Proof. vm_compute. done. Qed.

(** X15. The generator of [iterator] on EventEmitter has one callback
    registered while a [next()] is outstanding and none otherwise: the
    first [next()] registers it, a [next()] made meanwhile is queued and
    registers nothing; a dispatch on the event that returns makes the
    generator yield the arguments of that dispatch; it then waits again at
    once if a [next()] was queued, and otherwise is suspended, so that the
    [next()] made later starts a new wait that is pending whatever was
    dispatched before. *)
Theorem X15_iterator_yields_what_is_dispatched_while_it_waits
    (code : nat → EventEmitter.body) (ev : key) (args : list value)
    (st st2 : EventEmitter.state) (rs : list ret) :
  EventEmitter.limit_reached ev st = false →
  let n1 := EventEmitterExt.next (EventEmitterExt.iterator ev) st in
  let st1 := n1.1.1 in
  let p := length (EventEmitter.waits st) in
  EventEmitter.emitSync code ev args st1 = (st2, inr rs) →
  n1 = (st1, EventEmitterExt.Generator ev (EventEmitterExt.Awaiting p) 0, None)
  ∧ EventEmitter.registered ev st1 = WaitCallback p :: EventEmitter.registered ev st
  ∧ EventEmitterExt.next n1.1.2 st1
    = (st1, EventEmitterExt.Generator ev (EventEmitterExt.Awaiting p) 1, None)
  ∧ EventEmitterExt.iterator_resume n1.1.2 st1 = (st1, n1.1.2, [])
  ∧ EventEmitterExt.iterator_resume n1.1.2 st2
    = (st2, EventEmitterExt.Generator ev EventEmitterExt.Suspended 0,
       [EventEmitterExt.Yielded args])
  ∧ EventEmitterExt.iterator_resume
      (EventEmitterExt.Generator ev (EventEmitterExt.Awaiting p) 1) st2
    = ((EventEmitter.wait ev None st2).1,
       EventEmitterExt.Generator ev
         (EventEmitterExt.Awaiting (length (EventEmitter.waits st2))) 0,
       [EventEmitterExt.Yielded args])
  ∧ (∀ st3, EventEmitter.limit_reached ev st3 = false →
       let n2 := EventEmitterExt.next
                   (EventEmitterExt.Generator ev EventEmitterExt.Suspended 0)
                   st3 in
       EventEmitter.registered ev n2.1.1
         = WaitCallback (length (EventEmitter.waits st3))
           :: EventEmitter.registered ev st3
       ∧ EventEmitterExt.iterator_resume n2.1.2 n2.1.1 = (n2.1.1, n2.1.2, [])).
Proof.
  intros Hl n1 st1 p Hsync.
  destruct (wait_returns ev None st Hl) as (Hp2 & Hw & Hr & _).
  pose proof (promise_of_wait ev None st Hl) as Hpend.
  rewrite Hp2 in Hpend. fold p in Hpend, Hp2.
  assert (Hn1 : n1 = (st1, EventEmitterExt.Generator ev
                             (EventEmitterExt.Awaiting p) 0, None)).
  { unfold n1, st1, EventEmitterExt.next; simpl. by rewrite Hp2. }
  assert (Hst1 : st1 = (EventEmitter.wait ev None st).1) by done.
  assert (Hres : EventEmitter.promise_of p st2 = Some (Fulfilled args)).
  { apply (emitSync_resolves code ev args p st1 st2 rs);
      [by rewrite Hst1 | | done].
    rewrite Hst1, Hr. by left. }
  rewrite Hn1. simpl. split_and!.
  - done.
  - by rewrite Hst1.
  - done.
  - apply (iterator_resume_pending _ p); [done|]. by rewrite Hst1.
  - by rewrite (iterator_resume_fulfilled _ p st2 args).
  - by rewrite (iterator_resume_fulfilled _ p st2 args).
  - intros st3 Hl3.
    destruct (wait_returns ev None st3 Hl3) as (Hq2 & _ & Hr3 & _).
    pose proof (promise_of_wait ev None st3 Hl3) as Hpend3.
    split.
    + exact Hr3.
    + by apply (iterator_resume_pending _ (EventEmitter.wait ev None st3).2).
Qed.

Lemma X15_iterator_yields_what_is_dispatched_while_it_waits_witness :
  let code := λ f, EventEmitter.Body [] (λ _, inr (Plain Undefined)) in
  let n1 := EventEmitterExt.next (EventEmitterExt.iterator (KStr "x"))
              EventEmitter.new in
  let st2 := (EventEmitter.emitSync code (KStr "x") [Num 1] n1.1.1).1 in
  EventEmitterExt.iterator_resume n1.1.2 st2
  = (st2, EventEmitterExt.Generator (KStr "x") EventEmitterExt.Suspended 0,
     [EventEmitterExt.Yielded [Num 1]]).
Proof.
  intros code n1 st2.
  refine (proj1 (proj2 (proj2 (proj2 (proj2
    (X15_iterator_yields_what_is_dispatched_while_it_waits code (KStr "x")
       [Num 1] EventEmitter.new st2 [Plain Undefined] _ _)))))).
  - reflexivity.
  - vm_compute. reflexivity.
Defined.

(** X16. A [next()] on EventEmitter made when the limit test of
    [addListener] fails ends the generator: that call gets the limit error,
    the calls queued behind it and every later call get [done], and no
    callback was registered. *)
Theorem X16_iterator_at_limit_ends
    (ev : key) (k : nat) (st : EventEmitter.state) :
  EventEmitter.limit_reached ev st = true →
  let n1 := EventEmitterExt.next (EventEmitterExt.iterator ev) st in
  let g1 := EventEmitterExt.Generator ev
              (EventEmitterExt.Awaiting (length (EventEmitter.waits st))) k in
  let r := EventEmitterExt.iterator_resume g1 n1.1.1 in
  n1.1.2 = EventEmitterExt.Generator ev
             (EventEmitterExt.Awaiting (length (EventEmitter.waits st))) 0
  ∧ (∀ ev0, EventEmitter.registered ev0 n1.1.1 = EventEmitter.registered ev0 st)
  ∧ r = (n1.1.1, EventEmitterExt.Generator ev EventEmitterExt.Completed 0,
         EventEmitterExt.Thrown_out LimitExceeded
         :: replicate k EventEmitterExt.Done)
  ∧ (∀ st', EventEmitterExt.next r.1.2 st'
            = (st', r.1.2, Some EventEmitterExt.Done)
            ∧ EventEmitterExt.iterator_resume r.1.2 st' = (st', r.1.2, [])).
Proof.
  intros Hl n1 g1 r.
  assert (Hn : n1 = (EventEmitter.set_waits
                       (λ w, w ++ [EventEmitter.Closure ev
                                     (Rejected LimitExceeded) false]) st,
                     EventEmitterExt.Generator ev
                       (EventEmitterExt.Awaiting
                          (length (EventEmitter.waits st))) 0, None)).
  { unfold n1, EventEmitterExt.next; simpl. by rewrite wait_refused. }
  assert (Hr : r = (n1.1.1,
                    EventEmitterExt.Generator ev EventEmitterExt.Completed 0,
                    EventEmitterExt.Thrown_out LimitExceeded
                    :: replicate k EventEmitterExt.Done)).
  { unfold r, g1.
    rewrite (iterator_resume_rejected _ (length (EventEmitter.waits st))
               _ LimitExceeded); [done|done|].
    rewrite Hn; simpl. unfold EventEmitter.promise_of; simpl.
    by rewrite lookup_app_r, Nat.sub_diag by lia. }
  split_and!.
  - by rewrite Hn.
  - intros ev0. by rewrite Hn.
  - exact Hr.
  - intros st'. by rewrite Hr.
Qed.

Lemma X16_iterator_at_limit_ends_witness :
  let st := (EventEmitter.addListener (KStr "x") [Fn 1; Fn 2]
               (EventEmitter.set_maxListeners <[KStr "x" := 1%Z]>
                  EventEmitter.new)).1 in
  (EventEmitterExt.next (EventEmitterExt.iterator (KStr "x")) st).1.2
  = EventEmitterExt.Generator (KStr "x") (EventEmitterExt.Awaiting 0) 0.
Proof.
  intros st.
  refine (proj1 (X16_iterator_at_limit_ends (KStr "x") 0 st _)).
  vm_compute. reflexivity.
Defined.



(** X18. Nothing but the invocation of its own callback touches the
    promise of a [wait]. Through a dispatch, whatever the listeners do
    (register, remove, clear, wait, set limits, read and write the arrays
    of the accessors, dispatch and call listeners themselves, to any
    depth), the log grows by the invocations made, and the promise is the
    one there was, resolved with the arguments of the first invocation of
    its callback among them: it is unchanged when the callback was not
    invoked. Registering, removing, clearing and the expiry of a timer
    leave it as it is. Both emitters. *)
Theorem X18_promise_settled_only_by_its_callback
    (p depth : nat) (args : list value)
    (ecode : nat → list value → EventEmitterProg.prog) (ev : key)
    (se : EventEmitter.state) (s : promise (list value))
    (mcode : nat → list value → MonoEmitterProg.prog)
    (sm : MonoEmitter.state) (ms : promise (list value)) :
  EventEmitter.promise_of p se = Some s →
  MonoEmitter.promise_of p sm = Some ms →
  ((∀ se', se' = (EventEmitterProg.emitSync depth ecode ev args se).1
           ∨ se' = (EventEmitterProg.emit depth ecode ev args se).1 →
      ∃ new, EventEmitter.trace se' = EventEmitter.trace se ++ new
        ∧ EventEmitter.promise_of p se' = Some (resolved_by p new s)
        ∧ ((∀ a, (WaitCallback p, a) ∉ new) →
           EventEmitter.promise_of p se' = Some s))
   ∧ (∀ o se', EventEmitter.step o se = Some se' →
        EventEmitter.promise_of p se' = Some s)
   ∧ (∀ ev', EventEmitter.promise_of p (EventEmitter.removeListeners ev' se)
             = Some s)
   ∧ EventEmitter.promise_of p (EventEmitter.clear se) = Some s
   ∧ (∀ q, EventEmitter.promise_of p (EventEmitter.run_timer q se) = Some s))
  ∧ ((∀ sm', sm' = (MonoEmitterProg.emitSync depth mcode args sm).1
             ∨ sm' = (MonoEmitterProg.emit depth mcode args sm).1 →
        ∃ new, MonoEmitter.trace sm' = MonoEmitter.trace sm ++ new
          ∧ MonoEmitter.promise_of p sm' = Some (resolved_by p new ms)
          ∧ ((∀ a, (WaitCallback p, a) ∉ new) →
             MonoEmitter.promise_of p sm' = Some ms))
   ∧ (∀ o sm', MonoEmitter.step o sm = Some sm' →
        MonoEmitter.promise_of p sm' = Some ms)
   ∧ MonoEmitter.promise_of p (MonoEmitter.clear sm) = Some ms
   ∧ (∀ q, MonoEmitter.promise_of p (MonoEmitter.run_timer q sm) = Some ms)).
Proof.
  intros He Hm. split.
  - split_and!.
    + intros se' Hse'.
      assert (Hstep : EventEmitterProg.promise_step p se se').
      { destruct Hse' as [->| ->];
          [apply prog_emitSync_promise | apply prog_emit_promise]. }
      destruct (promise_step_promise_of p se se' s Hstep He)
        as (new & Ht & Hp).
      exists new. split_and!; [done|done|].
      intros Hnot. rewrite Hp. unfold resolved_by.
      by rewrite (proj2 (first_args_None (WaitCallback p) new) Hnot).
    + intros [ev' ls|ev' l] se'; simpl.
      * destruct (addListener_cases ev' ls se) as [H|H]; rewrite H; [done|].
        by intros [= <-].
      * intros [= <-]. by rewrite removeListener_eq.
    + done.
    + done.
    + intros q. unfold EventEmitter.promise_of in *.
      by rewrite run_timer_waits.
  - split_and!.
    + intros sm' Hsm'.
      assert (Hstep : MonoEmitterProg.promise_step p sm sm').
      { destruct Hsm' as [->| ->];
          [apply mono_prog_emitSync_promise | apply mono_prog_emit_promise]. }
      destruct (mono_promise_step_promise_of p sm sm' ms Hstep Hm)
        as (new & Ht & Hp).
      exists new. split_and!; [done|done|].
      intros Hnot. rewrite Hp. unfold resolved_by.
      by rewrite (proj2 (first_args_None (WaitCallback p) new) Hnot).
    + intros [ls|l] sm'; simpl.
      * destruct (mono_addListener_cases ls sm) as [H|H]; rewrite H; [done|].
        by intros [= <-].
      * by intros [= <-].
    + done.
    + intros q. unfold MonoEmitter.promise_of in *.
      by rewrite mono_run_timer_waits.
Qed.

(** A wait on "x", then a dispatch on "y" whose listener dispatches on "x"
    itself: the wait is resolved with the arguments of the dispatch that
    the listener made, the first in which its callback is invoked. *)
Lemma X18_promise_settled_only_by_its_callback_witness :
  let ecode := λ (f : nat) (_ : list value),
    EventEmitterProg.Ask
      (EventEmitterProg.EmitSync (KStr "x") [Str "inner"])
      (λ _, EventEmitterProg.Return (inr (Plain Undefined))) in
  let se := (EventEmitter.addListener (KStr "y") [Fn 1]
               (EventEmitter.wait (KStr "x") None EventEmitter.new).1).1 in
  let se' := (EventEmitterProg.emitSync 2 ecode (KStr "y") [Str "outer"] se).1 in
  EventEmitter.trace se'
  = [(Fn 1, [Str "outer"]); (WaitCallback 0, [Str "inner"])]
  ∧ EventEmitter.promise_of 0 se' = Some (Fulfilled [Str "inner"]).
Proof.
  intros ecode se se'.
  pose proof (X18_promise_settled_only_by_its_callback 0 2 [Str "outer"]
    ecode (KStr "y") se Pending
    (λ _ _, MonoEmitterProg.Return (inr (Plain Undefined)))
    (MonoEmitter.wait None MonoEmitter.new).1 Pending) as H.
  destruct H as [(H & _) _].
  - reflexivity.
  - reflexivity.
  - destruct (H se' (or_introl eq_refl)) as (new & Ht & Hp & _).
    assert (Htr : EventEmitter.trace se'
                  = [(Fn 1, [Str "outer"]); (WaitCallback 0, [Str "inner"])])
      by (vm_compute; reflexivity).
    assert (Hse : EventEmitter.trace se = []) by (vm_compute; reflexivity).
    split; [exact Htr|].
    rewrite Htr, Hse in Ht. simpl in Ht. subst new. exact Hp.
Defined.

(** X19. Taking the callback of a pending [wait] out of the registry, by
    [clear], by [removeListeners] (EventEmitter) or by [removeListener] with
    the callback, rejects nothing: the promise stays pending through the
    next dispatch, and when the timer of the wait expires the timeout error
    is thrown uncaught while the promise is still pending. Both
    emitters. *)
Theorem X19_removed_wait_stays_pending
    (t : Z) (args : list value)
    (ecode : nat → EventEmitter.body) (ev : key) (se : EventEmitter.state)
    (mcode : nat → MonoEmitter.body) (sm : MonoEmitter.state) :
  truthy t = true →
  EventEmitter.limit_reached ev se = false →
  MonoEmitter.wf sm →
  let p := length (EventEmitter.waits se) in
  let se1 := (EventEmitter.wait ev (Some t) se).1 in
  let q := length (MonoEmitter.waits sm) in
  let sm1 := (MonoEmitter.wait (Some t) sm).1 in
  (∀ se2,
     se2 = EventEmitter.clear se1
     ∨ se2 = EventEmitter.removeListeners ev se1
     ∨ se2 = EventEmitter.removeListener ev (WaitCallback p) se1 →
     let se3 := (EventEmitter.emitSync ecode ev args se2).1 in
     EventEmitter.promise_of p se3 = Some Pending
     ∧ EventEmitter.uncaught (EventEmitter.run_timer p se3)
       = EventEmitter.uncaught se ++ [Timeout]
     ∧ EventEmitter.promise_of p (EventEmitter.run_timer p se3) = Some Pending)
  ∧ (∀ sm2,
     sm2 = MonoEmitter.clear sm1
     ∨ sm2 = MonoEmitter.removeListener (WaitCallback q) sm1 →
     let sm3 := (MonoEmitter.emitSync mcode args sm2).1 in
     MonoEmitter.promise_of q sm3 = Some Pending
     ∧ MonoEmitter.uncaught (MonoEmitter.run_timer q sm3)
       = MonoEmitter.uncaught sm ++ [Timeout]
     ∧ MonoEmitter.promise_of q (MonoEmitter.run_timer q sm3) = Some Pending).
Proof.
  intros Ht Hl Hwf p se1 q sm1. split.
  - destruct (wait_returns ev (Some t) se Hl) as (_ & Hw & Hr & Htm & Hu).
    fold se1 p in Hw, Hr, Htm, Hu. rewrite Ht in Htm.
    intros se2 H2 se3.
    assert (Hgone : WaitCallback p ∉ EventEmitter.registered ev se2).
    { destruct H2 as [->|[->| ->]].
      - rewrite registered_clear. apply not_elem_of_nil.
      - rewrite registered_removeListeners. apply not_elem_of_nil.
      - rewrite registered_removeListener. apply filter_neq_gone. }
    assert (Hsame : EventEmitter.waits se2 = EventEmitter.waits se1
                    ∧ EventEmitter.timers se2 = EventEmitter.timers se1
                    ∧ EventEmitter.uncaught se2 = EventEmitter.uncaught se1).
    { destruct H2 as [->|[->| ->]]; [done|done|].
      by rewrite removeListener_eq. }
    destruct Hsame as (Hw2 & Ht2 & Hu2).
    pose proof (emitSync_other_waits ecode args p ev se2 Hgone) as Hw3.
    fold se3 in Hw3.
    destruct (EventEmitter.emitSync ecode ev args se2) as [se3' r] eqn:Hsync.
    destruct (emitSync_spec _ _ _ _ _ _ Hsync)
      as (_ & _ & _ & _ & (_ & _ & _ & Ht3 & Hu3) & _).
    simpl in se3. subst se3.
    assert (Hlook : EventEmitter.waits se3' !! p
                    = Some (EventEmitter.Closure ev Pending false)).
    { rewrite Hw3, Hw2, Hw. unfold p.
      by rewrite lookup_app_r, Nat.sub_diag by lia. }
    assert (Hin : p ∈ (EventEmitter.timers se3').*1).
    { rewrite Ht3, Ht2, Htm, fmap_app. apply elem_of_app. right. by left. }
    split_and!.
    + unfold EventEmitter.promise_of. by rewrite Hlook.
    + rewrite (run_timer_unfulfilled p se3' _ Hin Hlook eq_refl). simpl.
      by rewrite Hu3, Hu2, Hu.
    + unfold EventEmitter.promise_of. by rewrite run_timer_waits, Hlook.
  - destruct (mono_wait_returns (Some t) sm Hwf) as (_ & Hw & Hr & Htm & Hu).
    fold sm1 q in Hw, Hr, Htm, Hu. rewrite Ht in Htm.
    intros sm2 H2 sm3.
    assert (Hgone : WaitCallback q ∉ MonoEmitter.registered sm2).
    { destruct H2 as [->| ->].
      - rewrite mono_registered_clear. apply not_elem_of_nil.
      - rewrite mono_registered_removeListener. apply filter_neq_gone. }
    assert (Hsame : MonoEmitter.waits sm2 = MonoEmitter.waits sm1
                    ∧ MonoEmitter.timers sm2 = MonoEmitter.timers sm1
                    ∧ MonoEmitter.uncaught sm2 = MonoEmitter.uncaught sm1).
    { by destruct H2 as [->| ->]. }
    destruct Hsame as (Hw2 & Ht2 & Hu2).
    pose proof (mono_emitSync_other_waits mcode args q sm2 Hgone) as Hw3.
    fold sm3 in Hw3.
    destruct (MonoEmitter.emitSync mcode args sm2) as [sm3' r] eqn:Hsync.
    destruct (mono_emitSync_spec _ _ _ _ _ Hsync)
      as (_ & _ & _ & _ & (_ & _ & _ & Ht3 & Hu3) & _).
    simpl in sm3. subst sm3.
    assert (Hlook : MonoEmitter.waits sm3' !! q
                    = Some (MonoEmitter.Closure Pending false)).
    { rewrite Hw3, Hw2, Hw. unfold q.
      by rewrite lookup_app_r, Nat.sub_diag by lia. }
    assert (Hin : q ∈ (MonoEmitter.timers sm3').*1).
    { rewrite Ht3, Ht2, Htm, fmap_app. apply elem_of_app. right. by left. }
    split_and!.
    + unfold MonoEmitter.promise_of. by rewrite Hlook.
    + rewrite (mono_run_timer_unfulfilled q sm3' _ Hin Hlook eq_refl). simpl.
      by rewrite Hu3, Hu2, Hu.
    + unfold MonoEmitter.promise_of. by rewrite mono_run_timer_waits, Hlook.
Qed.

Lemma X19_removed_wait_stays_pending_witness :
  let ecode := λ f, EventEmitter.Body [] (λ _, inr (Plain Undefined)) in
  let se1 := (EventEmitter.wait (KStr "x") (Some 50%Z) EventEmitter.new).1 in
  let se3 := (EventEmitter.emitSync ecode (KStr "x") [Num 1]
                (EventEmitter.clear se1)).1 in
  EventEmitter.promise_of 0 se3 = Some Pending
  ∧ EventEmitter.uncaught (EventEmitter.run_timer 0 se3) = [Timeout].
Proof.
  intros ecode se1 se3.
  pose proof (proj1 (X19_removed_wait_stays_pending 50 [Num 1]
    ecode (KStr "x") EventEmitter.new
    (λ _, MonoEmitter.Body [] (λ _, inr (Plain Undefined))) MonoEmitter.new
    eq_refl eq_refl mono_wf_new) (EventEmitter.clear se1)
    (or_introl eq_refl)) as (H1 & H2 & _).
  split; [exact H1 | exact H2].
Defined.

(** X20. No method of either emitter changes a limit, and a dispatch
    changes one only when a listener writes it: as long as no listener
    writes to the map of the limits of EventEmitter, or to
    [maxListenersCount] of MonoEmitter, a dispatch leaves the limits as it
    found them, whatever else the listeners do, to any depth; so do
    registering, removing, clearing, [wait] and the expiry of its timer,
    [once] and the generator of [iterator]. *)
Theorem X20_no_method_changes_the_limits
    (depth : nat) (args : list value) (timeout : option Z)
    (ls : list listener) (l : listener) (q : nat)
    (ecode : nat → list value → EventEmitterProg.prog)
    (ebody : nat → EventEmitter.body) (ev : key) (se : EventEmitter.state)
    (efr : EventEmitterExt.once_frame) (eg : EventEmitterExt.generator)
    (mcode : nat → list value → MonoEmitterProg.prog)
    (mbody : nat → MonoEmitter.body) (sm : MonoEmitter.state)
    (mfr : MonoEmitterExt.once_frame) (mg : MonoEmitterExt.generator) :
  EventEmitterProg.no_limit_written ecode →
  MonoEmitterProg.no_limit_written mcode →
  Forall (λ se', EventEmitter.maxListeners se' = EventEmitter.maxListeners se)
    [ (EventEmitter.addListener ev ls se).1;
      (EventEmitter.on ev ls se).1;
      EventEmitter.removeListener ev l se;
      EventEmitter.removeListeners ev se;
      EventEmitter.clear se;
      (EventEmitterProg.emitSync depth ecode ev args se).1;
      (EventEmitterProg.emit depth ecode ev args se).1;
      (EventEmitter.emitSync ebody ev args se).1;
      (EventEmitter.emit ebody ev args se).1;
      (EventEmitter.wait ev timeout se).1;
      EventEmitter.run_timer q se;
      (EventEmitterExt.once ev ls se).1;
      (EventEmitterExt.once_resume ebody efr se).1;
      (EventEmitterExt.next eg se).1.1;
      (EventEmitterExt.iterator_resume eg se).1.1 ]
  ∧ Forall (λ sm', MonoEmitter.maxListenersCount sm'
                   = MonoEmitter.maxListenersCount sm)
    [ (MonoEmitter.addListener ls sm).1;
      (MonoEmitter.on ls sm).1;
      MonoEmitter.removeListener l sm;
      MonoEmitter.clear sm;
      (MonoEmitterProg.emitSync depth mcode args sm).1;
      (MonoEmitterProg.emit depth mcode args sm).1;
      (MonoEmitter.emitSync mbody args sm).1;
      (MonoEmitter.emit mbody args sm).1;
      (MonoEmitter.wait timeout sm).1;
      MonoEmitter.run_timer q sm;
      (MonoEmitterExt.once ls sm).1;
      (MonoEmitterExt.once_resume mbody mfr sm).1;
      (MonoEmitterExt.next mg sm).1.1;
      (MonoEmitterExt.iterator_resume mg sm).1.1 ].
Proof.
  intros He Hm.
  assert (Hadd : EventEmitter.maxListeners (EventEmitter.addListener ev ls se).1
                 = EventEmitter.maxListeners se).
  { by destruct (addListener_cases ev ls se) as [H|H]; rewrite H. }
  assert (Hmadd : MonoEmitter.maxListenersCount (MonoEmitter.addListener ls sm).1
                  = MonoEmitter.maxListenersCount sm).
  { by destruct (mono_addListener_cases ls sm) as [H|H]; rewrite H. }
  split.
  - repeat apply Forall_cons_2; try apply Forall_nil_2.
    + exact Hadd.
    + exact Hadd.
    + by rewrite removeListener_eq.
    + done.
    + done.
    + by apply prog_emitSync_maxListeners.
    + by apply prog_emit_maxListeners.
    + apply emitSync_maxListeners.
    + rewrite emit_emitSync. apply emitSync_maxListeners.
    + apply wait_maxListeners.
    + apply run_timer_maxListeners.
    + apply wait_maxListeners.
    + apply once_resume_maxListeners.
    + apply iterator_maxListeners.
    + apply iterator_maxListeners.
  - repeat apply Forall_cons_2; try apply Forall_nil_2.
    + exact Hmadd.
    + exact Hmadd.
    + done.
    + done.
    + by apply mono_prog_emitSync_maxListenersCount.
    + by apply mono_prog_emit_maxListenersCount.
    + apply mono_emitSync_maxListenersCount.
    + rewrite mono_emit_emitSync. apply mono_emitSync_maxListenersCount.
    + apply mono_wait_maxListenersCount.
    + apply mono_run_timer_maxListenersCount.
    + apply mono_wait_maxListenersCount.
    + apply mono_once_resume_maxListenersCount.
    + apply mono_iterator_maxListenersCount.
    + apply mono_iterator_maxListenersCount.
Qed.

(** A listener that dispatches from within and registers, under a limit of
    three: the limit is three after the dispatch. *)
Lemma X20_no_method_changes_the_limits_witness :
  let mcode := λ (f : nat) (_ : list value),
    MonoEmitterProg.Ask (MonoEmitterProg.EmitSync [Str "inner"]) (λ _,
    MonoEmitterProg.Ask (MonoEmitterProg.AddListener [Fn 2]) (λ _,
    MonoEmitterProg.Return (inr (Plain Undefined)))) in
  let sm := (MonoEmitter.addListener [Fn 1]
               (MonoEmitter.set_maxListenersCount (Some 3%Z)
                  MonoEmitter.new)).1 in
  MonoEmitter.maxListenersCount (MonoEmitterProg.emitSync 3 mcode [] sm).1
  = Some 3%Z.
Proof.
  intros mcode sm.
  pose proof (X20_no_method_changes_the_limits 3 [] None [] (Fn 1) 0
    (λ _ _, EventEmitterProg.Return (inr (Plain Undefined)))
    (λ _, EventEmitter.Body [] (λ _, inr (Plain Undefined)))
    (KStr "x") EventEmitter.new
    (EventEmitterExt.OnceFrame 0 [])
    (EventEmitterExt.iterator (KStr "x"))
    mcode (λ _, MonoEmitter.Body [] (λ _, inr (Plain Undefined))) sm
    (MonoEmitterExt.OnceFrame 0 []) MonoEmitterExt.iterator) as H.
  destruct H as [_ H].
  - intros f a. exact I.
  - intros f a. unfold mcode. simpl. repeat first [split | intros ?]; done.
  - exact (Forall_lookup_1 _ _ 4 _ H eq_refl).
Defined.

(** A listener that writes the limit changes it while the dispatch runs. *)
Example listener_can_write_the_limit :
  let mcode := λ (f : nat) (_ : list value),
    MonoEmitterProg.Ask (MonoEmitterProg.SetMaxListenersCount (Some 5%Z)) (λ _,
    MonoEmitterProg.Return (inr (Plain Undefined))) in
  let sm := (MonoEmitter.addListener [Fn 1] MonoEmitter.new).1 in
  MonoEmitter.maxListenersCount sm = None
  ∧ MonoEmitter.maxListenersCount (MonoEmitterProg.emitSync 1 mcode [] sm).1
    = Some 5%Z.
Proof. vm_compute. done. Qed.

